(** * dwave_networkx.drawing_extended.chimera_layout, verified

    A shallow embedding of [chimera_layout.py]: the coordinate mapper
    [chimera_node_placer_2d] with its closure [_xy_coords] and the
    tile-offset cache [grid_offsets], the orchestrator [chimera_layout],
    the single-tile index inference [_find_chimera_indices] and the
    bias-to-colour computation of [draw_chimera].

    The file has four parts: the program (the embedding of the
    source, and of the networkx functions it calls), the vocabulary of
    the specification (predicates, the closed form of the spec, example
    graphs), the proofs of the specification, and further properties
    of the code.

    Conventions of the embedding.
    - Python integers are [Z].  numpy integer arrays are pairs of [Z]
      (the 64-bit range of numpy is not modelled).
    - Python floats and numpy float arrays are values of a scalar type
      [F] with the operations the code uses ([Scalar]).  Statements
      that need no law of arithmetic are proved for every [Scalar];
      the order and field facts are proved for the exact instance
      [Q_scalar] (rationals, equality [Qeq]); [binary64] is the
      instance on the kernel's IEEE 754 floats.
    - A Python exception is a value of [exn]; a call returns a
      [result].  A dictionary is a stdpp [gmap]; the mutable cache of
      the closure is threaded through the calls explicitly.
    - A loop that has no bound in the source ([while queue] in
      networkx's [color]) takes fuel and returns [None] when it runs
      out; the theorems show that it never does.
    - The order in which a dictionary yields its keys is not fixed by
      its contents.  Where the result of the code may depend on it
      (the 2-colouring of [color] on a graph with several components)
      the order is an argument ([dict_order]) and the theorems hold
      for every order; elsewhere (a maximum, a dictionary built from
      distinct keys, a sorted list) the order of the [gmap] is used. *)

From Stdlib Require Import ZArith QArith Qabs Qminmax Lqa Lia.
From Stdlib Require Import Floats.
From stdpp Require Import gmap strings list fin_maps sorting.

Local Open Scope Z_scope.

(** * Part I: the program *)

(** ** Exceptions and results *)

Inductive exn : Type :=
| ZeroDivisionError
| ValueError (msg : string)
| NotImplementedError
| NetworkXError (msg : string)
| IndexError
| KeyError
| ImportError.

Inductive result (A : Type) : Type :=
| Ok (a : A)
| Raise (e : exn).
Arguments Ok {A} a.
Arguments Raise {A} e.

#[export] Instance result_ret : MRet result := fun _ a => Ok a.
#[export] Instance result_bind : MBind result := fun _ _ f r =>
  match r with
  | Ok a => f a
  | Raise e => Raise e
  end.

(** The messages of the module's two [ValueError]s, of numpy's
    [np.zeros] on a negative length, of Python's [max] on an empty
    sequence and of networkx's errors. *)
Definition msg_dim : string := "layout must have at least two dimensions".
Definition msg_center : string :=
  "length of center coordinates must match dimension of layout".
Definition msg_negative : string := "negative dimensions are not allowed".
Definition msg_max_empty : string := "max() arg is an empty sequence".
Definition msg_not_bipartite : string := "Graph is not bipartite.".
Definition msg_not_connected : string :=
  "Graph not connected: infinite path length".
Definition msg_conflict : string :=
  "if linear_biases and/or quadratic_biases are provided, cannot also provide node_color or edge_color".

(** ** Scalars *)

Class Scalar (F : Type) : Type := {
  of_int : Z -> F;          (* int -> float conversion *)
  fzero : F;                (* 0. *)
  fadd : F -> F -> F;
  fmul : F -> F -> F;
  fdiv : F -> F -> F
}.

#[export] Instance Q_scalar : Scalar Q := {|
  of_int := inject_Z;
  fzero := 0%Q;
  fadd := Qplus;
  fmul := Qmult;
  fdiv := Qdiv
|}.

(** int64 -> float64 conversion, exact below 2^53 and rounded to
    nearest above (as numpy does), for |z| < 2^63. *)
Definition float_of_Z (z : Z) : float :=
  if z <? 0 then PrimFloat.opp (PrimFloat.of_uint63 (Uint63.of_Z (- z)))
  else PrimFloat.of_uint63 (Uint63.of_Z z).

#[export] Instance binary64 : Scalar float := {|
  of_int := float_of_Z;
  fzero := 0%float;
  fadd := PrimFloat.add;
  fmul := PrimFloat.mul;
  fdiv := PrimFloat.div
|}.

(** ** The coordinate mapper *)

(** A chimera index [(i, j, u, k)]: row, column, shore, shore index. *)
Definition index : Type := Z * Z * Z * Z.

(** The dictionary [grid_offsets] of the closure. *)
Abbreviation cache := (gmap (Z * Z) (Z * Z)).

Section Mapper.
Context {F : Type} `{Scalar F}.

(** The variables captured by the closure [_xy_coords] (the cache
    apart): [scale] is the value after [scale /= ...]. *)
Record placer : Type := Placer {
  tile_center : Z;
  tile_length : Z;
  scale : F;
  center : list F;
  paddims : Z
}.

(** [np.zeros(n)] *)
Definition np_zeros (n : Z) : result (list F) :=
  if n <? 0 then Raise (ValueError msg_negative)
  else Ok (replicate (Z.to_nat n) fzero).

Definition chimera_node_placer_2d
    (m n t : Z) (scale : F) (center : option (list F)) (dim : Z)
  : result placer :=
  let tile_center := t / 2 in
  let tile_length := t + 3 in
  let denom := Z.max m n * tile_length - 3 in
  if denom =? 0 then Raise ZeroDivisionError else
  let scale := fdiv scale (of_int denom) in
  center ← match center with
           | None => np_zeros dim
           | Some c => Ok c
           end;
  let paddims := dim - 2 in
  if paddims <? 0 then Raise (ValueError msg_dim) else
  if negb (Z.of_nat (length center) =? dim) then Raise (ValueError msg_center)
  else Ok (Placer tile_center tile_length scale center paddims).

(** [a + b] on two integer arrays of length two. *)
Definition add2 (a b : Z * Z) : Z * Z := (a.1 + b.1, a.2 + b.2).

(** [np.hstack((xy * scale, np.zeros(paddims))) + center]; the two
    arrays have the same length [dim] in a mapper that
    [chimera_node_placer_2d] returned. *)
Definition finish (P : placer) (xy : Z * Z) : list F :=
  zip_with fadd
    ([fmul (of_int xy.1) (scale P); fmul (of_int xy.2) (scale P)]
       ++ replicate (Z.to_nat (paddims P)) fzero)
    (center P).

(** One call of the closure: the point, and the cache it leaves.  The
    array stored in the cache is [off]; [xy += off] updates the fresh
    array [xy] only, so a stored offset is never changed afterwards. *)
Definition _xy_coords (P : placer) (i j u k : Z) (grid_offsets : cache)
  : list F * cache :=
  let p := if k <? tile_center P then k else k + 1 in
  let xy := if u =? 0 then (p, -1 * tile_center P)
            else (tile_center P, -1 * p) in
  let '(xy, grid_offsets) :=
    if (0 <? i) || (0 <? j) then
      match grid_offsets !! (i, j) with
      | Some off => (add2 xy off, grid_offsets)
      | None =>
          let off := (j * tile_length P, -1 * i * tile_length P) in
          (add2 xy off, <[(i, j) := off]> grid_offsets)
      end
    else (xy, grid_offsets) in
  (finish P xy, grid_offsets).

Definition call (P : placer) (idx : index) (g : cache) : list F * cache :=
  let '(i, j, u, k) := idx in _xy_coords P i j u k g.

(** The integer array [xy] of a call as it stands before the last
    line scales it ([xy * scale]), and the cache the call leaves: the
    body of the closure up to its [return]. *)
Definition _xy_grid (P : placer) (i j u k : Z) (grid_offsets : cache)
  : (Z * Z) * cache :=
  let p := if k <? tile_center P then k else k + 1 in
  let xy := if u =? 0 then (p, -1 * tile_center P)
            else (tile_center P, -1 * p) in
  if (0 <? i) || (0 <? j) then
    match grid_offsets !! (i, j) with
    | Some off => (add2 xy off, grid_offsets)
    | None =>
        let off := (j * tile_length P, -1 * i * tile_length P) in
        (add2 xy off, <[(i, j) := off]> grid_offsets)
    end
  else (xy, grid_offsets).

(** The cache after a sequence of calls. *)
Definition cache_after (P : placer) (calls : list index) (g : cache) : cache :=
  foldl (fun g idx => (call P idx g).2) g calls.

End Mapper.
Arguments placer F : clear implicits.

(** ** Graphs *)

(** The data dictionary of a node; the attribute values modelled are
    index tuples. *)
Abbreviation attrs := (gmap string index).

(** A networkx [Graph]: the dictionaries [G.node] (node -> data) and
    [G.adj] (node -> neighbours).  Nodes are integers, which are
    hashable and orderable.  Where the order of an iteration has no
    effect on the result, iterating a dictionary follows
    [map_to_list] and the neighbours of a node are iterated as
    [elements]; where it may have one, the order is an argument
    ([dict_order] below). *)
Record Graph : Type := mkGraph {
  node : gmap Z attrs;
  adj : gmap Z (gset Z)
}.

(** An element of an iterable handed to [add_nodes_from]: a node, or
    a pair of a node and a dictionary of attributes. *)
Inductive node_item : Type :=
| Bare (v : Z)
| WithData (v : Z) (dat : attrs).

(** What [chimera_layout] accepts: a graph, or any iterable of nodes. *)
Inductive graph_like : Type :=
| IsGraph (G : Graph)
| Nodes (l : list node_item).

(** One pass of the loop of [add_nodes_from] (networkx 1.x, called
    without keyword attributes): a new node gets an empty adjacency
    and an empty data dictionary, or the data given with it; a node
    that is there already keeps its data, updated with the data given
    ([olddict.update(ndict)]). *)
Definition add_node (G : Graph) (n : node_item) : Graph :=
  match n with
  | Bare v =>
      if decide (is_Some (node G !! v)) then G
      else mkGraph (<[v := ∅]> (node G)) (<[v := ∅]> (adj G))
  | WithData v dat =>
      match node G !! v with
      | None => mkGraph (<[v := dat]> (node G)) (<[v := ∅]> (adj G))
      | Some old => mkGraph (<[v := dat ∪ old]> (node G)) (adj G)
      end
  end.

(** [nx.Graph()] followed by [add_nodes_from(l)] *)
Definition add_nodes_from (l : list node_item) : Graph :=
  foldl add_node (mkGraph ∅ ∅) l.

(** [G.nodes_iter(data=True)] *)
Definition nodes_iter_data (G : Graph) : list (Z * attrs) :=
  map_to_list (node G).

(** [G.nodes()] *)
Definition nodes (G : Graph) : list Z := (map_to_list (node G)).*1.

(** [G.edges()]: every edge once, from the endpoint met first. *)
Definition edges (G : Graph) : list (Z * Z) :=
  (foldl (fun (acc : list (Z * Z) * gset Z) (item : Z * gset Z) =>
            (acc.1 ++ ((fun nbr => (item.1, nbr)) <$>
                         filter (fun nbr => nbr ∉ acc.2) (elements item.2)),
             {[item.1]} ∪ acc.2))
         ([], ∅) (map_to_list (adj G))).1.

(** A dict comprehension over a list of items: later items win. *)
Definition dict_of {V : Type} (items : list (Z * V)) : gmap Z V :=
  foldl (fun d kv => <[kv.1 := kv.2]> d) ∅ items.

(** [max] of a sequence of integers *)
Definition py_max (l : list Z) : result Z :=
  match l with
  | [] => Raise (ValueError msg_max_empty)
  | x :: l => Ok (foldl Z.max x l)
  end.

Definition idx_i (idx : index) : Z := idx.1.1.1.
Definition idx_j (idx : index) : Z := idx.1.1.2.
Definition idx_u (idx : index) : Z := idx.1.2.
Definition idx_k (idx : index) : Z := idx.2.

(** ** The layout *)

Section Layout.
Context {F : Type} `{Scalar F}.

(** One step of the comprehension that builds [pos]: a call of the
    mapper, which may extend its cache. *)
Definition place_step (P : placer F)
    (acc : gmap Z (list F) * cache) (item : Z * index)
  : gmap Z (list F) * cache :=
  let r := call P item.2 acc.2 in (<[item.1 := r.1]> acc.1, r.2).

Definition chimera_layout
    (G : graph_like) (scale : F) (center : option (list F)) (dim : Z)
  : result (gmap Z (list F)) :=
  let G := match G with
           | IsGraph G => G
           | Nodes l => add_nodes_from l
           end in
  if forallb (fun vd => bool_decide (is_Some (vd.2 !! "chimera_index")))
       (nodes_iter_data G)
  then
    let chimera_indices : gmap Z index :=
      dict_of (prod_map id (fun dat => dat !!! "chimera_index")
                 <$> nodes_iter_data G) in
    let values := (map_to_list chimera_indices).*2 in
    m ← py_max (idx_i <$> values);
    n ← py_max (idx_j <$> values);
    t ← py_max (idx_k <$> values);
    xy_coords ← chimera_node_placer_2d (m + 1) (n + 1) (t + 1) scale center dim;
    Ok (foldl (place_step xy_coords) (∅, ∅) (map_to_list chimera_indices)).1
  else Raise NotImplementedError.

End Layout.

(** ** The render adapter: colours from biases

    The biases, the colours and the bounds of the colour scale are
    rationals. *)

(** [max] of a sequence of numbers: the first greatest element. *)
Definition py_max_Q (l : list Q) : result Q :=
  match l with
  | [] => Raise (ValueError msg_max_empty)
  | x :: l => Ok (foldl Qmax x l)
  end.

(** The inner functions [edge_color] and [node_color]. *)
Definition edge_color (quadratic_biases : gmap (Z * Z) Q) (u v : Z) : Q :=
  let c := 0%Q in
  let c := match quadratic_biases !! (u, v) with
           | Some b => (c + b)%Q
           | None => c
           end in
  match quadratic_biases !! (v, u) with
  | Some b => (c + b)%Q
  | None => c
  end.

Definition node_color
    (linear_biases : gmap Z Q) (quadratic_biases : gmap (Z * Z) Q) (v : Z) : Q :=
  let c := 0%Q in
  let c := match linear_biases !! v with
           | Some b => (c + b)%Q
           | None => c
           end in
  match quadratic_biases !! (v, v) with
  | Some b => (c + b)%Q
  | None => c
  end.

(** What [draw_chimera] hands to [networkx.draw] (colour maps apart):
    the keyword arguments, the two colour lists it put into [kwargs]
    and the magnitude used for the colour bar. *)
Record draw_args : Type := DrawArgs {
  arg_nodelist : option (list Z);
  arg_edgelist : option (list (Z * Z));
  arg_vmin : option Q;
  arg_vmax : option Q;
  arg_edge_vmin : option Q;
  arg_edge_vmax : option Q;
  arg_node_color : option (list Q);
  arg_edge_color : option (list Q);
  arg_vmag : option Q
}.

(** The body of [draw_chimera] before the call of [draw].
    [matplotlib] tells whether the import succeeds; [kwargs] holds the
    names of the extra keyword arguments of the caller. *)
Definition draw_chimera_args
    (matplotlib : bool) (G : Graph)
    (linear_biases : gmap Z Q) (quadratic_biases : gmap (Z * Z) Q)
    (nodelist : option (list Z)) (edgelist : option (list (Z * Z)))
    (vmin vmax edge_vmin edge_vmax : option Q) (kwargs : gset string)
  : result draw_args :=
  if bool_decide (linear_biases ≠ ∅) || bool_decide (quadratic_biases ≠ ∅) then
    if negb matplotlib then Raise ImportError else
    let nodelist := match nodelist with
                    | None => nodes G
                    | Some l => l
                    end in
    let edgelist := match edgelist with
                    | None => edges G
                    | Some l => l
                    end in
    if bool_decide ("node_color" ∈ kwargs) || bool_decide ("edge_color" ∈ kwargs)
    then Raise (ValueError msg_conflict) else
    let node_colors := node_color linear_biases quadratic_biases <$> nodelist in
    let edge_colors :=
      (fun e => edge_color quadratic_biases e.1 e.2) <$> edgelist in
    a ← py_max_Q (Qabs <$> node_colors);
    b ← py_max_Q (Qabs <$> edge_colors);
    let vmag := Qmax a b in
    let vmin := match vmin with None => (-1 * vmag)%Q | Some x => x end in
    let vmax := match vmax with None => vmag | Some x => x end in
    let edge_vmin := match edge_vmin with None => (-1 * vmag)%Q | Some x => x end in
    let edge_vmax := match edge_vmax with None => vmag | Some x => x end in
    Ok (DrawArgs (Some nodelist) (Some edgelist)
          (Some vmin) (Some vmax) (Some edge_vmin) (Some edge_vmax)
          (Some node_colors) (Some edge_colors) (Some vmag))
  else
    Ok (DrawArgs nodelist edgelist vmin vmax edge_vmin edge_vmax None None None).

(** [draw_chimera] up to the call of [draw]: the arguments above and
    the layout [chimera_layout(G)], evaluated after them. *)
Definition draw_chimera
    (matplotlib : bool) (G : Graph)
    (linear_biases : gmap Z Q) (quadratic_biases : gmap (Z * Z) Q)
    (nodelist : option (list Z)) (edgelist : option (list (Z * Z)))
    (vmin vmax edge_vmin edge_vmax : option Q) (kwargs : gset string)
  : result (gmap Z (list Q) * draw_args) :=
  args ← draw_chimera_args matplotlib G linear_biases quadratic_biases
            nodelist edgelist vmin vmax edge_vmin edge_vmax kwargs;
  pos ← chimera_layout (IsGraph G) (inject_Z 1) None 2;
  Ok (pos, args).

(** ** networkx: neighbours, degree, 2-colouring, diameter

    [networkx] is a dependency of the module; the three functions the
    module calls are modelled from networkx 1.x. *)

(** [G.neighbors(v)], the keys of [G.adj[v]] *)
Definition neighbors (G : Graph) (v : Z) : list Z :=
  elements (default ∅ (adj G !! v)).

(** [G.degree(v)]: a self-loop counts twice. *)
Definition degree (G : Graph) (v : Z) : Z :=
  Z.of_nat (length (neighbors G v))
  + (if bool_decide (v ∈ neighbors G v) then 1 else 0).

(** The [for w in neighbors(v)] loop of [color]: [cv] is [color[v]];
    the queue is kept with its last element first, so that
    [queue.append] is a cons and [queue.pop()] takes the head. *)
Fixpoint color_neighbors (cv : Z) (ws : list Z) (queue : list Z)
    (color : gmap Z Z) : result (list Z * gmap Z Z) :=
  match ws with
  | [] => Ok (queue, color)
  | w :: ws =>
      match color !! w with
      | Some cw =>
          if cw =? cv then Raise (NetworkXError msg_not_bipartite)
          else color_neighbors cv ws queue color
      | None => color_neighbors cv ws (w :: queue) (<[w := 1 - cv]> color)
      end
  end.

(** The order in which the dictionaries of a graph yield their keys
    when they are iterated: [G.node] and [G.adj] yield the nodes in
    the order [node_order], [G.adj[v]] yields the neighbours of [v] in
    the order [nbr_order v].  Python does not fix these orders by the
    contents of a dictionary (they follow the insertions from Python
    3.7, the hash table before), so the functions whose result may
    depend on them take them as an argument, and the theorems hold for
    every order. *)
Record dict_order : Type := DictOrder {
  node_order : list Z;
  nbr_order : Z -> list Z
}.

(** The [while queue] loop; [None] when the fuel runs out.  [nbrs v]
    is what [neighbors(v)] yields. *)
Fixpoint color_component (fuel : nat) (nbrs : Z -> list Z) (queue : list Z)
    (color : gmap Z Z) : option (result (gmap Z Z)) :=
  match fuel with
  | O => None
  | S fuel =>
      match queue with
      | [] => Some (Ok color)
      | v :: queue =>
          match color !! v with
          | None => Some (Raise KeyError)
          | Some cv =>
              match color_neighbors cv (nbrs v) queue color with
              | Raise e => Some (Raise e)
              | Ok (queue, color) => color_component fuel nbrs queue color
              end
          end
      end
  end.

(** The [for n in G] loop, over the nodes [ns] that [G] yields. *)
Fixpoint color_nodes (fuel : nat) (G : Graph) (nbrs : Z -> list Z)
    (ns : list Z) (color : gmap Z Z) : option (result (gmap Z Z)) :=
  match ns with
  | [] => Some (Ok color)
  | n :: ns =>
      if bool_decide (is_Some (color !! n))
         || bool_decide (length (neighbors G n) = 0%nat)
      then color_nodes fuel G nbrs ns color
      else
        match color_component fuel nbrs [n] (<[n := 1]> color) with
        | Some (Ok color) => color_nodes fuel G nbrs ns color
        | r => r
        end
  end.

(** [nx.isolates(G)] *)
Definition isolates (G : Graph) : list Z :=
  filter (fun n => degree G n = 0) (nodes G).

(** [networkx.algorithms.bipartite.color]: every pass of the while
    loop takes a node that was coloured once, so one more pass than
    there are nodes is enough fuel. *)
Definition color (o : dict_order) (G : Graph) : option (result (gmap Z Z)) :=
  match color_nodes (S (size (node G))) G (nbr_order o) (node_order o) ∅ with
  | Some (Ok color) =>
      Some (Ok (foldl (fun c n => <[n := 0]> c) color (isolates G)))
  | r => r
  end.

(** The nodes within [k] steps of [v]. *)
Fixpoint ball (G : Graph) (v : Z) (k : nat) : gset Z :=
  match k with
  | O => {[v]}
  | S k => ball G v k ∪ ⋃ ((fun w => default ∅ (adj G !! w)) <$> elements (ball G v k))
  end.

(** The eccentricity of a node that reaches every node: the number of
    radii whose ball is not yet the whole graph. *)
Definition eccentricity (G : Graph) (v : Z) : Z :=
  Z.of_nat (length (filter (fun k => ball G v k ≠ dom (node G))
                      (seq 0 (size (node G))))).

(** [networkx.diameter]: the greatest eccentricity; an error when
    some node does not reach every node. *)
Definition diameter (G : Graph) : result Z :=
  if forallb (fun v => bool_decide (ball G v (size (node G)) = dom (node G)))
       (nodes G)
  then py_max (eccentricity G <$> nodes G)
  else Raise (NetworkXError msg_not_connected).

(** ** The index inference *)

(** [l[i]] on a Python list, negative indices counting from the end *)
Definition py_pos (len : nat) (i : Z) : option nat :=
  if bool_decide (0 <= i < Z.of_nat len) then Some (Z.to_nat i)
  else if bool_decide (- Z.of_nat len <= i < 0) then Some (Z.to_nat (Z.of_nat len + i))
  else None.

Definition py_get (l : list Z) (i : Z) : result Z :=
  match py_pos (length l) i ≫= (l !!.) with
  | Some x => Ok x
  | None => Raise IndexError
  end.

(** [l[i] += 1] *)
Definition py_incr (l : list Z) (i : Z) : result (list Z) :=
  match py_pos (length l) i with
  | Some n => Ok (alter (fun x => x + 1) n l)
  | None => Raise IndexError
  end.

(** [d[k]] on a dictionary *)
Definition py_item {V : Type} (d : gmap Z V) (k : Z) : result V :=
  match d !! k with
  | Some x => Ok x
  | None => Raise KeyError
  end.

(** [sorted(G.nodes_iter())] *)
Definition sorted_nodes (G : Graph) : list Z := merge_sort Z.le (nodes G).

(** The colouring the inference works with: the one of [color],
    complemented when the lowest node is not coloured 1. *)
Definition chimera_coloring (o : dict_order) (G : Graph)
  : option (result (gmap Z Z)) :=
  let nlist := sorted_nodes G in
  match color o G with
  | None => None
  | Some r =>
      Some (coloring ← r;
            match nlist with
            | [] => Raise IndexError
            | v0 :: _ =>
                c0 ← py_item coloring v0;
                if negb (c0 =? 1) then Ok ((fun c => 1 - c) <$> coloring)
                else Ok coloring
            end)
  end.

(** The loop that counts the shores. *)
Definition count_shores (coloring : gmap Z Z) : result (list Z) :=
  foldl (fun shores vc => shores ← shores; py_incr shores vc.2)
        (Ok [0; 0]) (map_to_list coloring).

(** The loop that assigns the indices of a single tile. *)
Fixpoint assign_indices (coloring : gmap Z Z) (nlist : list Z)
    (shore_indices : list Z) (chimera_indices : gmap Z index)
  : result (gmap Z index) :=
  match nlist with
  | [] => Ok chimera_indices
  | v :: nlist =>
      cv ← py_item coloring v;
      let u := 1 - cv in
      k ← py_get shore_indices u;
      shore_indices ← py_incr shore_indices u;
      assign_indices coloring nlist shore_indices
        (<[v := (0, 0, u, k)]> chimera_indices)
  end.

Definition _find_chimera_indices (o : dict_order) (G : Graph)
  : option (result (gmap Z index)) :=
  let nlist := sorted_nodes G in
  match chimera_coloring o G with
  | None => None
  | Some r =>
      Some (coloring ← r;
            delta ← py_max (degree G <$> nodes G);
            shores ← count_shores coloring;
            shore_size ← py_max shores;
            if shore_size =? delta then
              assign_indices coloring nlist [0; 0] ∅
            else
              dia ← diameter G;
              Raise NotImplementedError)
  end.

(** * Part II: the vocabulary of the specification *)

(** ** The mapper *)

(** The spec's names for the errors of the mapper.  [InvalidDimension]
    is a [ValueError] about the dimension: the module's own, or numpy's
    when [np.zeros dim] is reached first with a negative [dim]. *)
Definition InvalidDimension (e : exn) : Prop :=
  e = ValueError msg_dim \/ e = ValueError msg_negative.
Definition InvalidCenter (e : exn) : Prop :=
  e = ValueError msg_center.

(** The closed form of the spec (sections 4.1.1 to 4.1.7), written
    from its words, to be compared with [_xy_coords]. *)
Definition spec_point {F : Type} `{Scalar F}
    (M N T : Z) (s : F) (c : option (list F)) (dim : Z) (i j u k : Z)
  : list F :=
  let tile_center := T / 2 in
  let tile_length := T + 3 in
  let eff := fdiv s (of_int (Z.max M N * tile_length - 3)) in
  let p := if k <? tile_center then k else k + 1 in
  let intra := if u =? 1 then (tile_center, - p) else (p, - tile_center) in
  let x := intra.1 + j * tile_length in
  let y := intra.2 + - i * tile_length in
  zip_with fadd
    ([fmul (of_int x) eff; fmul (of_int y) eff]
       ++ replicate (Z.to_nat (dim - 2)) fzero)
    (match c with
     | Some c => c
     | None => replicate (Z.to_nat dim) fzero
     end).

(** Every stored offset is the offset of its tile. *)
Definition cache_ok {F : Type} (P : placer F) (g : cache) : Prop :=
  forall i j off, g !! (i, j) = Some off ->
    off = (j * tile_length P, -1 * i * tile_length P).

(** The integer point of an index before scaling. *)
Definition grid_point (tc tl : Z) (i j u k : Z) : Z * Z :=
  let p := if k <? tc then k else k + 1 in
  if u =? 0 then (p + j * tl, - tc + - i * tl)
  else (tc + j * tl, - p + - i * tl).

Definition in_bounds (M N T : Z) (idx : index) : Prop :=
  let '(i, j, u, k) := idx in
  0 <= i < M /\ 0 <= j < N /\ (u = 0 \/ u = 1) /\ 0 <= k < T.

(** Equality of points of rationals, coordinate by coordinate. *)
Definition point_eq (a b : list Q) : Prop := Forall2 Qeq a b.

Definition coord (n : nat) (pt : list Q) : Q := nth n pt 0%Q.

(** ** The layout *)

(** Node [v] of [G] carries the chimera index [idx]. *)
Definition index_of (G : Graph) (v : Z) (idx : index) : Prop :=
  exists dat, node G !! v = Some dat /\ dat !! "chimera_index" = Some idx.

(** [m] is the greatest value of [f] over the indices carried in [G]. *)
Definition greatest (G : Graph) (f : index -> Z) (m : Z) : Prop :=
  (exists v idx, index_of G v idx /\ f idx = m) /\
  (forall v idx, index_of G v idx -> f idx <= m).

Definition all_indexed (G : Graph) : Prop :=
  forall v dat, node G !! v = Some dat -> is_Some (dat !! "chimera_index").

(** ** The render adapter *)

(** [linear_biases.get(v, 0)] and [quadratic_biases.get(e, 0)] *)
Definition get0 {K : Type} `{Countable K} (d : gmap K Q) (k : K) : Q :=
  default 0%Q (d !! k).

(** [m] is the greatest absolute value in [l]. *)
Definition max_abs (l : list Q) (m : Q) : Prop :=
  (exists c, c ∈ l /\ (Qabs c == m)%Q) /\ (forall c, c ∈ l -> (Qabs c <= m)%Q).

(** A bound the caller gave is used unchanged; a missing one is
    [d]. *)
Definition bound_is (given used : option Q) (d : Q) : Prop :=
  match given with
  | Some x => used = Some x
  | None => exists y, used = Some y /\ (y == d)%Q
  end.

(** ** Graphs *)

(** [v] and [w] are joined by an edge. *)
Definition edge (G : Graph) (v w : Z) : Prop :=
  w ∈ default (∅ : gset Z) (adj G !! v).

(** The invariants of a networkx graph: [G.node] and [G.adj] have the
    same keys, and adjacency is symmetric. *)
Definition wf_graph (G : Graph) : Prop :=
  dom (adj G) = dom (node G) /\
  map_Forall (fun v ws =>
                set_Forall (fun w => v ∈ default (∅ : gset Z) (adj G !! w)) ws)
             (adj G).

#[export] Instance wf_graph_dec (G : Graph) : Decision (wf_graph G).
Proof. unfold wf_graph. apply _. Defined.

(** [o] is an order in which the dictionaries of [G] can yield their
    keys: every node once, and for every node its neighbours once. *)
Definition iterates (o : dict_order) (G : Graph) : Prop :=
  node_order o ≡ₚ nodes G /\ forall v, nbr_order o v ≡ₚ neighbors G v.

(** The order of a graph whose nodes were inserted in the order
    [ns]. *)
Definition inserted (ns : list Z) (G : Graph) : dict_order :=
  DictOrder ns (neighbors G).

(** Every two nodes are joined by a path. *)
Definition connected (G : Graph) : Prop :=
  forall v w, v ∈ dom (node G) -> w ∈ dom (node G) -> rtc (edge G) v w.

(** A proper colouring with the colours 0 and 1. *)
Definition two_coloring (G : Graph) (c : Z -> Z) : Prop :=
  (forall v, c v = 0 \/ c v = 1) /\
  forall v w, edge G v w -> c w = 1 - c v.

Definition bipartite (G : Graph) : Prop := exists c, two_coloring G c.

(** A total proper colouring of the graph with the colours 0 and 1. *)
Definition proper_coloring (G : Graph) (col : gmap Z Z) : Prop :=
  dom col = dom (node G) /\
  (forall v c, col !! v = Some c -> c = 0 \/ c = 1) /\
  (forall v w, edge G v w ->
     exists c, col !! v = Some c /\ col !! w = Some (1 - c)).

(** [v0] is the lowest node of [G]. *)
Definition lowest (G : Graph) (v0 : Z) : Prop :=
  v0 ∈ dom (node G) /\ forall v, v ∈ dom (node G) -> v0 <= v.

(** The number of nodes coloured [c]. *)
Definition class_size (col : gmap Z Z) (c : Z) : Z :=
  Z.of_nat (length (filter (fun vc : Z * Z => vc.2 = c) (map_to_list col))).

(** The size of the larger colour class. *)
Definition larger_class (col : gmap Z Z) : Z :=
  Z.max (class_size col 0) (class_size col 1).

(** [d] is the greatest degree of a node of [G]. *)
Definition max_degree (G : Graph) (d : Z) : Prop :=
  (exists v, v ∈ dom (node G) /\ degree G v = d) /\
  (forall v, v ∈ dom (node G) -> degree G v <= d).

(** The shore of a node: the complement of its colour. *)
Definition shore (col : gmap Z Z) (v : Z) : Z := 1 - default 0 (col !! v).

(** ** The invariants of the proofs *)

(** The colouring [c] extends the partial colouring [col]. *)
Definition agrees (c : Z -> Z) (col : gmap Z Z) : Prop :=
  forall v cv, col !! v = Some cv -> c v = cv.

(** The state of the while loop of [color]: colours are 0 or 1 and
    sit on nodes, the queue holds coloured nodes, and every coloured
    node that is not queued has all its neighbours coloured with the
    other colour. *)
Definition color_inv (G : Graph) (queue : list Z) (col : gmap Z Z) : Prop :=
  (forall v c, col !! v = Some c -> (c = 0 \/ c = 1) /\ v ∈ dom (node G)) /\
  (forall v, v ∈ queue -> is_Some (col !! v)) /\
  (forall v c, col !! v = Some c -> v ∉ queue ->
     forall w, edge G v w -> col !! w = Some (1 - c)).

(** The nodes not coloured yet. *)
Definition uncolored (G : Graph) (col : gmap Z Z) : gset Z :=
  dom (node G) ∖ dom col.

(** One more step from a set of nodes. *)
Definition expand (G : Graph) (S : gset Z) : gset Z :=
  S ∪ ⋃ ((fun w => default ∅ (adj G !! w)) <$> elements S).

(** ** Example inputs *)

(** The edgeless graph whose nodes carry the given indices. *)
Definition indexed_graph (l : list (Z * index)) : Graph :=
  mkGraph (list_to_map (prod_map id (fun idx => {["chimera_index" := idx]}) <$> l))
          (list_to_map (prod_map id (fun _ => ∅) <$> l)).

(** The eight nodes of the 2 x 1 lattice of shore size 2. *)
Definition lattice_2_1_2 : Graph :=
  indexed_graph
    [(0, (0, 0, 0, 0)); (1, (0, 0, 0, 1)); (2, (0, 0, 1, 0)); (3, (0, 0, 1, 1));
     (4, (1, 0, 0, 0)); (5, (1, 0, 0, 1)); (6, (1, 0, 1, 0)); (7, (1, 0, 1, 1))].

(** A graph with an indexed node and a node without data. *)
Definition half_indexed : Graph :=
  mkGraph (<[0 := {["chimera_index" := (0, 0, 0, 0)]}]> (<[1 := ∅]> ∅))
          (<[0 := {[1]}]> (<[1 := {[0]}]> ∅)).

(** Example biases: a linear bias on node 0, a quadratic bias on
    the pair (1, 0). *)
Definition example_linear : gmap Z Q := {[0 := (1 # 2)%Q]}.
Definition example_quadratic : gmap (Z * Z) Q := {[(1, 0) := (-3 # 4)%Q]}.

(** One node and no edge. *)
Definition single_node : Graph := mkGraph {[0 := ∅]} {[0 := ∅]}.

(** The graph on the nodes [ns] with the edges [es]. *)
Definition graph_of_edges (ns : list Z) (es : list (Z * Z)) : Graph :=
  mkGraph
    (list_to_map ((fun v => (v, ∅)) <$> ns))
    (list_to_map
       ((fun v => (v, list_to_set
                        ((snd <$> filter (fun e => e.1 = v) es)
                           ++ (fst <$> filter (fun e => e.2 = v) es))))
          <$> ns)).

(** The complete bipartite graph K(2,2) on the shores {0, 1} and {2, 3}. *)
Definition K_2_2 : Graph :=
  graph_of_edges [0; 1; 2; 3] [(0, 2); (0, 3); (1, 2); (1, 3)].

(** Two disjoint edges. *)
Definition two_edges : Graph := graph_of_edges [0; 1; 2; 3] [(0, 1); (2, 3)].

(** The path on five nodes. *)
Definition path_5 : Graph :=
  graph_of_edges [0; 1; 2; 3; 4] [(0, 1); (1, 2); (2, 3); (3, 4)].

(** The triangle. *)
Definition triangle : Graph := graph_of_edges [0; 1; 2] [(0, 1); (1, 2); (0, 2)].

(** The star with the centre 1 and the leaves 2 and 3, and the node
    0 without an edge. *)
Definition star_isolate : Graph :=
  graph_of_edges [0; 1; 2; 3] [(1, 2); (1, 3)].

(** The complete bipartite graph K(T,T): the shores are the nodes
    0 .. T-1 and T .. 2T-1. *)
Definition complete_bipartite (T : Z) : Graph :=
  graph_of_edges (seqZ 0 (2 * T)) (cprod (seqZ 0 T) (seqZ T T)).

(** ** Indices of a lattice *)

(** A chimera index of some lattice: no negative row, column or shore
    index, and a shore that is 0 or 1. *)
Definition valid_index (idx : index) : Prop :=
  0 <= idx_i idx /\ 0 <= idx_j idx /\ (idx_u idx = 0 \/ idx_u idx = 1) /\
  0 <= idx_k idx.

(** Every index carried in [G] is one of a lattice. *)
Definition valid_indices (G : Graph) : Prop :=
  forall v idx, index_of G v idx -> valid_index idx.

(** The edgeless graph of one tile of shore size 2, with the nodes of
    the second shore first. *)
Definition tile_2 : Graph :=
  indexed_graph
    [(0, (0, 0, 1, 0)); (1, (0, 0, 1, 1)); (2, (0, 0, 0, 0)); (3, (0, 0, 0, 1))].

(** The default layout of [tile_2]. *)
Definition tile_2_layout : gmap Z (list Q) :=
  match chimera_layout (IsGraph tile_2) (1%Q) None 2 with
  | Ok pos => pos
  | Raise _ => ∅
  end.

(** A node handed to [add_nodes_from] together with its chimera
    index: the pair [(v, {'chimera_index': idx})]. *)
Definition with_index (item : Z * index) : node_item :=
  WithData item.1 {["chimera_index" := item.2]}.

(** * Part III: the proofs *)

(** ** The coordinate mapper *)

Section MapperFacts.
Context {F : Type} `{Scalar F}.

(** *** The cache is transparent *)

Lemma cache_ok_empty (P : placer F) : cache_ok P ∅.
Proof. intros i j off Hl. by rewrite lookup_empty in Hl. Qed.

Lemma cache_ok_call (P : placer F) (idx : index) (g : cache) :
  cache_ok P g -> cache_ok P (call P idx g).2.
Proof.
  destruct idx as [[[i j] u] k]. intros Hg. unfold call, _xy_coords.
  destruct ((0 <? i) || (0 <? j)); [|exact Hg].
  destruct (g !! (i, j)) as [off|] eqn:E; [exact Hg|].
  simpl. intros i' j' off' Hl.
  destruct (decide ((i, j) = (i', j'))) as [[= <- <-]|Hne].
  - rewrite lookup_insert_eq in Hl. congruence.
  - rewrite lookup_insert_ne in Hl by done. by apply Hg.
Qed.

Lemma cache_ok_after (P : placer F) (calls : list index) (g : cache) :
  cache_ok P g -> cache_ok P (cache_after P calls g).
Proof.
  unfold cache_after. revert g.
  induction calls as [|idx calls IH]; intros g Hg; simpl; [done|].
  apply IH. by apply cache_ok_call.
Qed.

Lemma call_grid_point (P : placer F) (i j u k : Z) (g : cache) :
  cache_ok P g -> 0 <= i -> 0 <= j ->
  (call P (i, j, u, k) g).1
  = finish P (grid_point (tile_center P) (tile_length P) i j u k).
Proof.
  intros Hg Hi Hj. unfold call, _xy_coords, grid_point.
  set (p := if k <? tile_center P then k else k + 1).
  destruct ((0 <? i) || (0 <? j)) eqn:Eij.
  - destruct (g !! (i, j)) as [off|] eqn:E.
    + rewrite (Hg _ _ _ E). simpl. f_equal.
      destruct (u =? 0); unfold add2; simpl; f_equal; lia.
    + simpl. f_equal. destruct (u =? 0); unfold add2; simpl; f_equal; lia.
  - apply orb_false_iff in Eij as [Ei Ej].
    assert (i = 0) as -> by lia. assert (j = 0) as -> by lia.
    simpl. f_equal. destruct (u =? 0); f_equal; lia.
Qed.

Lemma placer_ok (M N T : Z) (s : F) (c : option (list F)) (dim : Z) :
  0 < M -> 0 < N -> 0 < T -> 2 <= dim ->
  (forall l, c = Some l -> Z.of_nat (length l) = dim) ->
  chimera_node_placer_2d M N T s c dim
  = Ok (Placer (T / 2) (T + 3)
          (fdiv s (of_int (Z.max M N * (T + 3) - 3)))
          (match c with
           | Some l => l
           | None => replicate (Z.to_nat dim) fzero
           end)
          (dim - 2)).
Proof.
  intros HM HN HT Hdim Hc. unfold chimera_node_placer_2d.
  assert ((Z.max M N * (T + 3) - 3 =? 0) = false) as -> by (apply Z.eqb_neq; nia).
  destruct c as [l|]; simpl.
  - assert ((dim - 2 <? 0) = false) as -> by lia.
    rewrite (Hc l eq_refl), Z.eqb_refl. done.
  - unfold np_zeros. assert ((dim <? 0) = false) as -> by lia. simpl.
    assert ((dim - 2 <? 0) = false) as -> by lia.
    rewrite length_replicate, Z2Nat.id by lia. rewrite Z.eqb_refl. done.
Qed.

Lemma finish_spec_point (M N T : Z) (s : F) (c : option (list F))
    (dim i j u k : Z) :
  u = 0 \/ u = 1 ->
  finish
    (Placer (T / 2) (T + 3) (fdiv s (of_int (Z.max M N * (T + 3) - 3)))
       (match c with
        | Some l => l
        | None => replicate (Z.to_nat dim) fzero
        end)
       (dim - 2))
    (grid_point (T / 2) (T + 3) i j u k)
  = spec_point M N T s c dim i j u k.
Proof.
  intros [-> | ->]; unfold finish, spec_point, grid_point; simpl; reflexivity.
Qed.

(** C1. For positive lattice dimensions, [dim >= 2], a center that is
    absent or of length [dim], and an in-bounds index, the mapper
    built by [chimera_node_placer_2d] returns the closed-form point of
    the spec, whatever calls were made on it before; a repeated call
    returns the identical point: the cache is not observable. *)
Theorem mapper_closed_form
    (M N T : Z) (s : F) (c : option (list F)) (dim i j u k : Z)
    (prior : list index) :
  0 < M -> 0 < N -> 0 < T -> 2 <= dim ->
  (forall l, c = Some l -> Z.of_nat (length l) = dim) ->
  0 <= i < M -> 0 <= j < N -> u = 0 \/ u = 1 -> 0 <= k < T ->
  exists P, chimera_node_placer_2d M N T s c dim = Ok P /\
    let r := _xy_coords P i j u k (cache_after P prior ∅) in
    r.1 = spec_point M N T s c dim i j u k /\
    (_xy_coords P i j u k r.2).1 = r.1.
Proof.
  intros HM HN HT Hdim Hc Hi Hj Hu Hk.
  eexists. split; [by apply placer_ok|].
  set (P := Placer _ _ _ _ _).
  assert (cache_ok P (cache_after P prior ∅)) as Hg
    by apply cache_ok_after, cache_ok_empty.
  pose proof (cache_ok_call P (i, j, u, k) _ Hg) as Hg'.
  pose proof (call_grid_point P i j u k _ Hg (proj1 Hi) (proj1 Hj)) as E1.
  pose proof (call_grid_point P i j u k _ Hg' (proj1 Hi) (proj1 Hj)) as E2.
  unfold call in *. cbv zeta. rewrite E2, E1. split; [|done].
  by apply finish_spec_point.
Qed.

(** C8, amended. When [max(M, N) * (T + 3) = 3] the constructor fails
    with [ZeroDivisionError], whatever [dim] and [center] are: the
    division comes first.  Otherwise (as for all positive lattice
    dimensions) it fails with an [InvalidDimension] error exactly when
    [dim < 2], and for [dim >= 2] and a given center of another length
    it fails with the [InvalidCenter] error.  For positive lattice
    dimensions, [dim >= 2] and a center that is absent or of length
    [dim] it returns a mapper. *)
Theorem placer_errors (M N T : Z) (s : F) (c : option (list F)) (dim : Z) :
  (Z.max M N * (T + 3) = 3 ->
   chimera_node_placer_2d M N T s c dim = Raise ZeroDivisionError) /\
  (Z.max M N * (T + 3) <> 3 ->
   (dim < 2 <->
      exists e, chimera_node_placer_2d M N T s c dim = Raise e /\
                InvalidDimension e) /\
   (2 <= dim -> forall l, c = Some l -> Z.of_nat (length l) <> dim ->
      exists e, chimera_node_placer_2d M N T s c dim = Raise e /\
                InvalidCenter e)) /\
  (0 < M -> 0 < N -> 0 < T -> 2 <= dim ->
   c = None \/ (exists l, c = Some l /\ Z.of_nat (length l) = dim) ->
   exists P, chimera_node_placer_2d M N T s c dim = Ok P).
Proof.
  split; [|split].
  - intros Hden. unfold chimera_node_placer_2d.
    by assert ((Z.max M N * (T + 3) - 3 =? 0) = true) as -> by lia.
  - intros Hne.
    assert ((Z.max M N * (T + 3) - 3 =? 0) = false) as Hden by lia.
    split; [split|].
    + intros Hdim. unfold chimera_node_placer_2d. rewrite Hden.
      destruct c as [l|]; simpl.
      * assert ((dim - 2 <? 0) = true) as -> by lia.
        eexists; split; [done|by left].
      * unfold np_zeros. destruct (dim <? 0) eqn:E; simpl.
        -- eexists; split; [done|by right].
        -- assert ((dim - 2 <? 0) = true) as -> by lia.
           eexists; split; [done|by left].
    + intros (e & He & Hinv). destruct (Z_lt_le_dec dim 2) as [|Hge]; [done|].
      exfalso. revert He. unfold chimera_node_placer_2d. rewrite Hden.
      destruct c as [l|]; simpl.
      * assert ((dim - 2 <? 0) = false) as -> by lia.
        destruct (negb _); intros [= <-]; by destruct Hinv.
      * unfold np_zeros. assert ((dim <? 0) = false) as -> by lia. simpl.
        assert ((dim - 2 <? 0) = false) as -> by lia.
        destruct (negb _); intros [= <-]; by destruct Hinv.
    + intros Hdim l -> Hl. unfold chimera_node_placer_2d. rewrite Hden. simpl.
      assert ((dim - 2 <? 0) = false) as -> by lia.
      assert ((Z.of_nat (length l) =? dim) = false) as -> by lia. simpl.
      by eexists.
  - intros HM HN HT Hdim Hc. eexists. apply placer_ok; try done.
    intros l ->. by destruct Hc as [|(l' & [= <-] & ?)].
Qed.

End MapperFacts.

(** The theorem at the rationals: a 2 x 1 lattice of shore size 2, the
    index (1, 0, 1, 1) after two earlier calls. *)
Lemma mapper_closed_form_witness :
  exists P,
    chimera_node_placer_2d 2 1 2 (1%Q) (Some [0%Q; 0%Q]) 2 = Ok P /\
    let r := _xy_coords P 1 0 1 1
               (cache_after P [(1, 0, 0, 0); (0, 0, 1, 1)] ∅) in
    r.1 = spec_point 2 1 2 (1%Q) (Some [0%Q; 0%Q]) 2 1 0 1 1 /\
    (_xy_coords P 1 0 1 1 r.2).1 = r.1.
Proof.
  apply (mapper_closed_form 2 1 2 (1%Q) (Some [0%Q; 0%Q]) 2 1 0 1 1
           [(1, 0, 0, 0); (0, 0, 1, 1)]); try lia.
  intros l [= <-]. reflexivity.
Defined.

(** The four parts at concrete arguments: the sizes (1, 1, 0), whose
    denominator is 0; [dim = 1]; a center of length 3 for [dim = 2];
    the defaults. *)
Lemma placer_errors_witness :
  chimera_node_placer_2d 1 1 0 (1%Q) None 2 = Raise ZeroDivisionError /\
  (exists e, chimera_node_placer_2d 1 1 1 (1%Q) None 1 = Raise e /\
             InvalidDimension e) /\
  (exists e,
     chimera_node_placer_2d 1 1 1 (1%Q) (Some [0%Q; 0%Q; 0%Q]) 2 = Raise e /\
     InvalidCenter e) /\
  (exists P, chimera_node_placer_2d 1 1 1 (1%Q) None 2 = Ok P).
Proof.
  split; [|split; [|split]].
  - apply (proj1 (placer_errors 1 1 0 (1%Q) None 2)). lia.
  - apply (proj1 (proj1 (proj1 (proj2 (placer_errors 1 1 1 (1%Q) None 1))
                            ltac:(lia)))).
    lia.
  - apply (proj2 (proj1 (proj2 (placer_errors 1 1 1 (1%Q)
                                  (Some [0%Q; 0%Q; 0%Q]) 2))
                    ltac:(lia))
             ltac:(lia) [0%Q; 0%Q; 0%Q] eq_refl).
    simpl. lia.
  - apply (proj2 (proj2 (placer_errors 1 1 1 (1%Q) None 2))); try lia.
    by left.
Defined.

(** C8 as stated fails on the sizes (1, 1, 0): with [dim = 1] the
    constructor raises [ZeroDivisionError], which is no
    [InvalidDimension] error, and so it does with [dim = 2] and a
    center of length 3, where the spec has the [InvalidCenter]
    error. *)
Lemma placer_zero_division_first :
  1 < 2 /\
  chimera_node_placer_2d 1 1 0 (1%float) None 1 = Raise ZeroDivisionError /\
  ~ InvalidDimension ZeroDivisionError /\
  Z.of_nat (length [0%float; 0%float; 0%float]) <> 2 /\
  chimera_node_placer_2d 1 1 0 (1%float)
    (Some [0%float; 0%float; 0%float]) 2 = Raise ZeroDivisionError /\
  ~ InvalidCenter ZeroDivisionError.
Proof.
  split; [lia|]. split; [reflexivity|]. split; [by intros [?|?]|].
  split; [simpl; lia|]. split; [reflexivity|]. by intros ?.
Qed.

(** ** The integer grid *)

Lemma tile_split (tl a j a' j' : Z) :
  0 <= a < tl -> 0 <= a' < tl -> a + j * tl = a' + j' * tl ->
  a = a' /\ j = j'.
Proof. intros Ha Ha' E. assert (j = j') as -> by nia. lia. Qed.

(** The slot [p] of a shore index: the middle slot [T / 2] is left
    free for the cross. *)
Lemma slot_range (T k : Z) :
  0 < T -> 0 <= k < T ->
  let p := if k <? T / 2 then k else k + 1 in
  0 <= p <= T /\ p <> T / 2 /\ 0 <= T / 2 < T + 3 /\ T / 2 <= T.
Proof.
  intros HT Hk. cbv zeta.
  assert (0 <= T / 2 /\ 2 * (T / 2) <= T) as [? ?]
    by (split; [apply Z.div_pos; lia | apply Z.mul_div_le; lia]).
  destruct (k <? T / 2) eqn:E; lia.
Qed.

Lemma slot_inj (T k k' : Z) :
  (if k <? T / 2 then k else k + 1) = (if k' <? T / 2 then k' else k' + 1) ->
  k = k'.
Proof. destruct (k <? T / 2) eqn:E, (k' <? T / 2) eqn:E'; lia. Qed.

(** No two in-bounds indices share a grid point. *)
Lemma grid_point_inj (M N T : Z) (idx idx' : index) :
  0 < T -> in_bounds M N T idx -> in_bounds M N T idx' ->
  (let '(i, j, u, k) := idx in grid_point (T / 2) (T + 3) i j u k)
  = (let '(i, j, u, k) := idx' in grid_point (T / 2) (T + 3) i j u k) ->
  idx = idx'.
Proof.
  destruct idx as [[[i j] u] k], idx' as [[[i' j'] u'] k'].
  intros HT (Hi & Hj & Hu & Hk) (Hi' & Hj' & Hu' & Hk').
  pose proof (slot_range T k HT Hk) as (Hp & Hne & Htc & Htc').
  pose proof (slot_range T k' HT Hk') as (Hp' & Hne' & _ & _).
  cbv zeta in Hp, Hne, Hp', Hne'. unfold grid_point.
  pose proof (slot_inj T k k') as Hinj.
  set (p := if k <? T / 2 then k else k + 1) in *.
  set (p' := if k' <? T / 2 then k' else k' + 1) in *.
  set (tc := T / 2) in *.
  destruct Hu as [-> | ->], Hu' as [-> | ->]; simpl; intros [= Hx Hy].
  - apply tile_split in Hx as [Hpp ->]; [|lia..].
    assert (i = i') as -> by nia. by rewrite (Hinj Hpp).
  - apply tile_split in Hx as [Hpp ->]; lia.
  - apply tile_split in Hx as [Hpp ->]; lia.
  - assert (p + i * (T + 3) = p' + i' * (T + 3)) as Hy' by lia.
    apply tile_split in Hy' as [Hpp ->]; [|lia..].
    apply tile_split in Hx as [_ ->]; [|lia..].
    by rewrite (Hinj Hpp).
Qed.

(** ** The mapper in exact arithmetic *)

Lemma Qpos_inject (L : Z) : 0 < L -> (0 < inject_Z L)%Q.
Proof. intros HL. change (inject_Z 0 < inject_Z L)%Q. by rewrite <- Zlt_Qlt. Qed.

Lemma Qpos_neq0 (q : Q) : (0 < q)%Q -> ~ (q == 0)%Q.
Proof. intros Hq E. rewrite E in Hq. by apply Qlt_irrefl in Hq. Qed.

(** [a * (1 / L) + 0] against an integer [b], for a positive [L]. *)
Lemma Qunit_scaled (a b L : Z) :
  0 < L ->
  let q := (inject_Z a * (1 / inject_Z L) + 0)%Q in
  ((q <= inject_Z b)%Q <-> a <= b * L) /\
  ((inject_Z b <= q)%Q <-> b * L <= a) /\
  ((q == inject_Z b)%Q <-> a = b * L).
Proof.
  intros HL q. pose proof (Qpos_inject L HL) as HLq.
  assert (q * inject_Z L == inject_Z a)%Q as Hq
    by (unfold q; field; by apply Qpos_neq0).
  assert (inject_Z (b * L) == inject_Z b * inject_Z L)%Q as Hb
    by (by rewrite inject_Z_mult).
  split; [|split].
  - by rewrite <- (Qmult_le_r _ _ _ HLq), Hq, <- Hb, <- Zle_Qle.
  - by rewrite <- (Qmult_le_r _ _ _ HLq), Hq, <- Hb, <- Zle_Qle.
  - rewrite <- (Qmult_inj_r q _ (inject_Z L)), Hq, <- Hb, inject_Z_injective;
      [done | by apply Qpos_neq0].
Qed.

(** Scaling by a non-zero factor and translating keep grid points apart. *)
Lemma finish_inj_exact (P : placer Q) (xy xy' : Z * Z) :
  ~ (scale P == 0)%Q -> (2 <= length (center P))%nat ->
  point_eq (finish P xy) (finish P xy') -> xy = xy'.
Proof.
  intros Hs Hlen. unfold point_eq, finish.
  destruct (center P) as [|c0 [|c1 cr]]; simpl in Hlen; [lia..|].
  destruct xy as [x y], xy' as [x' y']. simpl. intros Heq.
  apply Forall2_cons in Heq as [Hx Heq].
  apply Forall2_cons in Heq as [Hy _].
  rewrite Qplus_inj_r, Qmult_inj_r, inject_Z_injective in Hx by done.
  rewrite Qplus_inj_r, Qmult_inj_r, inject_Z_injective in Hy by done.
  by subst.
Qed.

Lemma in_bounds_nonneg (M N T : Z) (i j u k : Z) :
  in_bounds M N T (i, j, u, k) -> 0 <= i /\ 0 <= j.
Proof. intros (? & ? & _). lia. Qed.

(** C2, in exact arithmetic. For positive lattice dimensions, a
    positive scale, [dim >= 2] and a center absent or of length [dim],
    two distinct in-bounds indices are mapped to different points,
    whatever calls were made on the mapper before either call. *)
Theorem mapper_injective_exact
    (M N T : Z) (s : Q) (c : option (list Q)) (dim : Z)
    (idx idx' : index) (prior prior' : list index) :
  0 < M -> 0 < N -> 0 < T -> (0 < s)%Q -> 2 <= dim ->
  (forall l, c = Some l -> Z.of_nat (length l) = dim) ->
  in_bounds M N T idx -> in_bounds M N T idx' -> idx <> idx' ->
  exists P, chimera_node_placer_2d M N T s c dim = Ok P /\
    ~ point_eq (call P idx (cache_after P prior ∅)).1
               (call P idx' (cache_after P prior' ∅)).1.
Proof.
  intros HM HN HT Hs Hdim Hc Hb Hb' Hne.
  eexists. split; [by apply placer_ok|].
  set (P := Placer _ _ _ _ _). intros Heq. apply Hne.
  apply (grid_point_inj M N T); [done..|].
  destruct idx as [[[i j] u] k], idx' as [[[i' j'] u'] k'].
  destruct (in_bounds_nonneg _ _ _ _ _ _ _ Hb) as [Hi Hj].
  destruct (in_bounds_nonneg _ _ _ _ _ _ _ Hb') as [Hi' Hj'].
  rewrite !call_grid_point in Heq
    by (done || apply cache_ok_after, cache_ok_empty).
  apply finish_inj_exact in Heq; [done| |].
  - apply Qpos_neq0. simpl. apply Qlt_shift_div_l.
    + apply Qpos_inject. nia.
    + by rewrite Qmult_0_l.
  - simpl. destruct c as [l|].
    + specialize (Hc l eq_refl). lia.
    + rewrite length_replicate. lia.
Qed.

(** The theorem at two indices of one tile of a 2 x 2 lattice. *)
Lemma mapper_injective_exact_witness :
  exists P, chimera_node_placer_2d 2 2 2 (1%Q) None 2 = Ok P /\
    ~ point_eq (call P (1, 1, 0, 0) (cache_after P [] ∅)).1
               (call P (1, 1, 0, 1) (cache_after P [(1, 1, 0, 0)] ∅)).1.
Proof.
  apply (mapper_injective_exact 2 2 2 (1%Q) None 2
           (1, 1, 0, 0) (1, 1, 0, 1) [] [(1, 1, 0, 0)]);
    try done; try lia; unfold in_bounds; lia.
Defined.

(** C2 as stated fails on IEEE 754 doubles: with the center
    (1e17, 0) the shore indices 0 and 1 of the first shore of a single
    tile of shore size 2 are both mapped to (1e17, -0.5), since
    1e17 + 1.0 rounds to 1e17. *)
Lemma mapper_collision_binary64 :
  exists P,
    chimera_node_placer_2d 1 1 2 (1%float) (Some [1e17%float; 0%float]) 2
    = Ok P /\
    in_bounds 1 1 2 (0, 0, 0, 0) /\ in_bounds 1 1 2 (0, 0, 0, 1) /\
    (0, 0, 0, 0) <> ((0, 0, 0, 1) : index) /\
    (_xy_coords P 0 0 0 0 ∅).1 = [1e17%float; (-0.5)%float] /\
    (_xy_coords P 0 0 0 1 ∅).1 = [1e17%float; (-0.5)%float].
Proof.
  eexists. split; [reflexivity|].
  split; [unfold in_bounds; lia|]. split; [unfold in_bounds; lia|].
  split; [discriminate|]. split; reflexivity.
Qed.

(** The grid point of an in-bounds index lies in the rectangle of the
    lattice, and reaches its far sides only at the last slot of the
    last column (for x) or of the last row (for y). *)
Lemma grid_point_range (M N T i j u k : Z) :
  0 < T -> in_bounds M N T (i, j, u, k) ->
  let xy := grid_point (T / 2) (T + 3) i j u k in
  0 <= xy.1 <= N * (T + 3) - 3 /\
  - (M * (T + 3) - 3) <= xy.2 <= 0 /\
  (xy.1 = N * (T + 3) - 3 <-> j = N - 1 /\ u = 0 /\ k = T - 1) /\
  (xy.2 = - (M * (T + 3) - 3) <-> i = M - 1 /\ u = 1 /\ k = T - 1).
Proof.
  intros HT (Hi & Hj & Hu & Hk).
  pose proof (slot_range T k HT Hk) as (Hp & Hne & Htc & Htc').
  cbv zeta in Hp, Hne. unfold grid_point.
  assert (2 * (T / 2) <= T) as Hhalf by (apply Z.mul_div_le; lia).
  assert (T / 2 < T) as HtcT by (apply Z.div_lt_upper_bound; lia).
  assert ((if k <? T / 2 then k else k + 1) = T <-> k = T - 1) as HpT
    by (destruct (k <? T / 2) eqn:E; lia).
  set (p := if k <? T / 2 then k else k + 1) in *.
  set (tc := T / 2) in *.
  destruct Hu as [-> | ->]; simpl; repeat split; try nia.
Qed.



(** On a lattice that is not square the far side of the unit box is
    not reached: on the 2 x 1 lattice of shore size 1 every in-bounds
    index has x <= 1/5, in exact arithmetic. *)
Lemma unit_box_x_below_1 :
  exists P, chimera_node_placer_2d 2 1 1 (1%Q) (Some [0%Q; 0%Q]) 2 = Ok P /\
    forall i j u k, in_bounds 2 1 1 (i, j, u, k) ->
      (coord 0 (_xy_coords P i j u k ∅).1 <= 1 # 5)%Q.
Proof.
  eexists. split; [reflexivity|].
  intros i j u k (Hi & Hj & Hu & Hk).
  assert (j = 0) as -> by lia. assert (k = 0) as -> by lia.
  assert (i = 0 \/ i = 1) as [-> | ->] by lia;
    destruct Hu as [-> | ->]; vm_compute; discriminate.
Qed.


(** ** The layout *)

Lemma dict_of_list_to_map {V : Type} (items : list (Z * V)) :
  NoDup items.*1 -> dict_of items = list_to_map items.
Proof.
  intros Hnd. unfold dict_of.
  rewrite <- (list_to_map_proper (reverse items) items);
    [|by rewrite fmap_reverse, reverse_Permutation|apply reverse_Permutation].
  rewrite <- (reverse_involutive items) at 1.
  generalize (reverse items) as l. clear. intros l.
  induction l as [|[k v] l IH]; [done|].
  rewrite reverse_cons, foldl_app. simpl. by rewrite IH.
Qed.

Lemma dict_of_fmap {V W : Type} (f : V -> W) (m : gmap Z V) :
  dict_of (prod_map id f <$> map_to_list m) = f <$> m.
Proof.
  rewrite dict_of_list_to_map.
  - by rewrite list_to_map_fmap, list_to_map_to_list.
  - rewrite <- list_fmap_compose.
    rewrite (list_fmap_ext (fst ∘ prod_map id f) fst) by (by intros ? []).
    apply NoDup_fst_map_to_list.
Qed.

Lemma py_max_spec (l : list Z) :
  l <> [] ->
  exists m, py_max l = Ok m /\ m ∈ l /\ forall x, x ∈ l -> x <= m.
Proof.
  destruct l as [|x l]; [done|]. intros _. exists (foldl Z.max x l).
  split; [done|]. revert x.
  induction l as [|y l IH]; intros x; simpl.
  - split; [apply list_elem_of_singleton; done|].
    intros z ->%list_elem_of_singleton. lia.
  - destruct (IH (Z.max x y)) as [Hin Hub]. split.
    + apply elem_of_cons in Hin as [E|Hin].
      * rewrite E. destruct (Z.max_spec x y) as [[_ ->] | [_ ->]];
          [right; left|left].
      * right; by right.
    + intros z Hz. assert (Z.max x y <= foldl Z.max (Z.max x y) l)
        by (apply Hub; left).
      apply elem_of_cons in Hz as [-> | Hz]; [lia|].
      apply elem_of_cons in Hz as [-> | Hz]; [lia|].
      apply Hub. by right.
Qed.

Section LayoutFacts.
Context {F : Type} `{Scalar F}.

(** A call does not depend on a cache that holds tile offsets only. *)
Lemma call_cache_irrelevant (P : placer F) (idx : index) (g : cache) :
  cache_ok P g -> (call P idx g).1 = (call P idx ∅).1.
Proof.
  destruct idx as [[[i j] u] k]. intros Hg. unfold call, _xy_coords.
  destruct ((0 <? i) || (0 <? j)); [|done].
  rewrite lookup_empty.
  destruct (g !! (i, j)) as [off|] eqn:E; [|done].
  by rewrite (Hg _ _ _ E).
Qed.

Lemma place_fold (P : placer F) (items : list (Z * index))
    (pos : gmap Z (list F)) (g : cache) :
  cache_ok P g ->
  (foldl (place_step P) (pos, g) items).1
  = foldl (fun d kv => <[kv.1 := kv.2]> d) pos
      (prod_map id (fun idx => (call P idx ∅).1) <$> items).
Proof.
  revert pos g. induction items as [|[v idx] items IH]; intros pos g Hg; [done|].
  simpl. unfold place_step at 2. simpl.
  rewrite IH by (by apply cache_ok_call).
  by rewrite (call_cache_irrelevant P idx g Hg).
Qed.

(** The positions computed for a dictionary of indices: the fresh
    mapper applied to each index. *)
Lemma place_all (P : placer F) (ci : gmap Z index) :
  (foldl (place_step P) (∅, ∅) (map_to_list ci)).1
  = (fun idx => (call P idx ∅).1) <$> ci.
Proof.
  rewrite place_fold by apply cache_ok_empty. apply dict_of_fmap.
Qed.

End LayoutFacts.

Lemma all_indexed_forallb (G : Graph) :
  forallb (fun vd => bool_decide (is_Some (vd.2 !! "chimera_index")))
    (nodes_iter_data G) = true
  <-> all_indexed G.
Proof.
  rewrite forallb_forall. unfold nodes_iter_data, all_indexed. split.
  - intros Hall v dat Hv.
    apply elem_of_map_to_list, list_elem_of_In, Hall in Hv.
    by apply bool_decide_eq_true in Hv.
  - intros Hall [v dat] Hin. apply bool_decide_eq_true. simpl.
    apply list_elem_of_In, elem_of_map_to_list in Hin. by eapply Hall.
Qed.

Lemma indices_lookup (G : Graph) (v : Z) (idx : index) :
  all_indexed G ->
  ((fun dat : attrs => dat !!! "chimera_index") <$> node G) !! v = Some idx
  <-> index_of G v idx.
Proof.
  intros Hall. rewrite lookup_fmap. unfold index_of. split.
  - destruct (node G !! v) as [dat|] eqn:E; [|done]. simpl. intros [= <-].
    exists dat. split; [done|]. destruct (Hall v dat E) as [idx Hidx].
    by rewrite (lookup_total_correct _ _ _ Hidx).
  - intros (dat & -> & Hidx). simpl.
    by rewrite (lookup_total_correct _ _ _ Hidx).
Qed.

Lemma py_max_greatest (G : Graph) (f : index -> Z) :
  all_indexed G -> node G <> ∅ ->
  exists m,
    py_max (f <$> (map_to_list
              ((fun dat : attrs => dat !!! "chimera_index") <$> node G)).*2)
    = Ok m /\ greatest G f m.
Proof.
  intros Hall Hne.
  set (ci := (fun dat : attrs => dat !!! "chimera_index") <$> node G).
  assert (forall x, x ∈ f <$> (map_to_list ci).*2
                    <-> exists v idx, index_of G v idx /\ f idx = x) as Hin.
  { intros x. rewrite list_elem_of_fmap. split.
    - intros (idx & -> & Hidx). apply list_elem_of_fmap in Hidx as ([v idx'] & -> & Hv).
      apply elem_of_map_to_list, indices_lookup in Hv; [|done]. by exists v, idx'.
    - intros (v & idx & Hv & <-). exists idx. split; [done|].
      apply list_elem_of_fmap. exists (v, idx). split; [done|].
      by apply elem_of_map_to_list, indices_lookup. }
  destruct (py_max_spec (f <$> (map_to_list ci).*2)) as (m & Hm & Hmin & Hub).
  - destruct (map_choose (node G) Hne) as (v & dat & Hv).
    destruct (Hall v dat Hv) as [idx Hidx].
    assert (f idx ∈ f <$> (map_to_list ci).*2) as Hin'
      by (apply Hin; exists v, idx; split; [by exists dat|done]).
    intros E. rewrite E in Hin'. by apply elem_of_nil in Hin'.
  - exists m. split; [done|]. split; [by apply Hin|].
    intros v idx Hv. apply Hub, Hin. by exists v, idx.
Qed.

Section LayoutTheorems.
Context {F : Type} `{Scalar F}.

(** C4, amended. For a graph with at least one node in which every
    node carries a chimera index, with M, N and T one more than the
    greatest row, column and shore index carried: if the mapper for
    (M, N, T, scale, center, dim) cannot be built, [chimera_layout]
    fails with the same error; otherwise it returns a position for
    exactly the nodes of the graph, each the point the fresh mapper
    returns for the index of the node. *)
Theorem chimera_layout_positions
    (G : Graph) (s : F) (c : option (list F)) (dim : Z) :
  node G <> ∅ -> all_indexed G ->
  exists M N T,
    greatest G idx_i (M - 1) /\ greatest G idx_j (N - 1) /\
    greatest G idx_k (T - 1) /\
    match chimera_node_placer_2d M N T s c dim with
    | Raise e => chimera_layout (IsGraph G) s c dim = Raise e
    | Ok P =>
        exists pos, chimera_layout (IsGraph G) s c dim = Ok pos /\
          dom pos = dom (node G) /\
          forall v idx, index_of G v idx ->
            pos !! v = Some (call P idx ∅).1
    end.
Proof.
  intros Hne Hall.
  destruct (py_max_greatest G idx_i Hall Hne) as (m & Hm & Hgm).
  destruct (py_max_greatest G idx_j Hall Hne) as (n & Hn & Hgn).
  destruct (py_max_greatest G idx_k Hall Hne) as (t & Ht & Hgt).
  exists (m + 1), (n + 1), (t + 1).
  replace (m + 1 - 1) with m by lia. replace (n + 1 - 1) with n by lia.
  replace (t + 1 - 1) with t by lia. do 3 (split; [done|]).
  unfold chimera_layout.
  rewrite (proj2 (all_indexed_forallb G) Hall).
  unfold nodes_iter_data. cbv zeta. rewrite dict_of_fmap, Hm, Hn, Ht. simpl.
  destruct (chimera_node_placer_2d (m + 1) (n + 1) (t + 1) s c dim)
    as [P|e]; simpl; [|done].
  eexists. split; [done|]. rewrite place_all. split.
  - by rewrite !dom_fmap_L.
  - intros v idx Hv. apply indices_lookup in Hv; [|done].
    rewrite lookup_fmap. apply fmap_Some. exists idx. split; [exact Hv|done].
Qed.

(** C5. When some node of the graph lacks the chimera index,
    [chimera_layout] raises [NotImplementedError] (the spec's
    IndexInferenceUnsupported), whatever the rest of the graph is. *)
Theorem chimera_layout_unindexed
    (G : Graph) (s : F) (c : option (list F)) (dim : Z) (v : Z) (dat : attrs) :
  node G !! v = Some dat -> dat !! "chimera_index" = None ->
  chimera_layout (IsGraph G) s c dim = Raise NotImplementedError.
Proof.
  intros Hv Hdat. unfold chimera_layout.
  destruct (forallb _ _) eqn:E; [|done].
  apply all_indexed_forallb in E. destruct (E v dat Hv) as [idx Hidx].
  congruence.
Qed.

End LayoutTheorems.

Lemma lattice_2_1_2_indexed : all_indexed lattice_2_1_2.
Proof. apply all_indexed_forallb. by vm_compute. Qed.

Lemma lattice_2_1_2_nonempty : node lattice_2_1_2 <> ∅.
Proof.
  intros E. assert (node lattice_2_1_2 !! 0 = None) as E'
    by (by rewrite E, lookup_empty).
  by vm_compute in E'.
Qed.

(** The theorem on the 2 x 1 lattice of shore size 2, with the
    default parameters. *)
Lemma chimera_layout_positions_witness :
  exists M N T,
    greatest lattice_2_1_2 idx_i (M - 1) /\
    greatest lattice_2_1_2 idx_j (N - 1) /\
    greatest lattice_2_1_2 idx_k (T - 1) /\
    match chimera_node_placer_2d M N T (1%Q) None 2 with
    | Raise e => chimera_layout (IsGraph lattice_2_1_2) (1%Q) None 2 = Raise e
    | Ok P =>
        exists pos,
          chimera_layout (IsGraph lattice_2_1_2) (1%Q) None 2 = Ok pos /\
          dom pos = dom (node lattice_2_1_2) /\
          forall v idx, index_of lattice_2_1_2 v idx ->
            pos !! v = Some (call P idx ∅).1
    end.
Proof.
  exact (chimera_layout_positions lattice_2_1_2 (1%Q) None 2
           lattice_2_1_2_nonempty lattice_2_1_2_indexed).
Defined.

(** C4 as stated fails on the graph without nodes: every node of it
    carries an index, and [max] of no index raises [ValueError]. *)
Lemma chimera_layout_empty_graph :
  all_indexed (mkGraph ∅ ∅) /\
  chimera_layout (IsGraph (mkGraph ∅ ∅)) (1%Q) None 2
  = Raise (ValueError msg_max_empty).
Proof. split; [|reflexivity]. intros v dat Hv. simpl in Hv. by rewrite lookup_empty in Hv. Qed.

(** The theorem on a graph whose node 1 has no data. *)
Lemma chimera_layout_unindexed_witness :
  chimera_layout (IsGraph half_indexed) (1%Q) None 2 = Raise NotImplementedError.
Proof.
  apply (chimera_layout_unindexed half_indexed (1%Q) None 2 1 ∅);
    reflexivity.
Defined.

(** ** The render adapter *)

Lemma Qmax_cases (x y : Q) : Qmax x y = x \/ Qmax x y = y.
Proof.
  unfold Qmax, GenericMinMax.gmax. destruct (x ?= y)%Q; by (left + right).
Qed.

Lemma py_max_Q_spec (l : list Q) :
  l <> [] ->
  exists m, py_max_Q l = Ok m /\ m ∈ l /\ forall c, c ∈ l -> (c <= m)%Q.
Proof.
  destruct l as [|x l]; [done|]. intros _. exists (foldl Qmax x l).
  split; [done|]. revert x.
  induction l as [|y l IH]; intros x; simpl.
  - split; [by apply list_elem_of_singleton|].
    intros c ->%list_elem_of_singleton. apply Qle_refl.
  - destruct (IH (Qmax x y)) as [Hin Hub]. split.
    + apply elem_of_cons in Hin as [E|Hin]; [|right; by right].
      rewrite E. destruct (Qmax_cases x y) as [-> | ->]; [left|right; left].
    + intros c Hc.
      assert (Qmax x y <= foldl Qmax (Qmax x y) l)%Q as Hm by (apply Hub; left).
      apply elem_of_cons in Hc as [-> | Hc];
        [by eapply Qle_trans; [apply Q.le_max_l|]|].
      apply elem_of_cons in Hc as [-> | Hc];
        [by eapply Qle_trans; [apply Q.le_max_r|]|].
      apply Hub. by right.
Qed.

Lemma py_max_Q_ok (l : list Q) (m : Q) :
  py_max_Q l = Ok m -> m ∈ l /\ forall c, c ∈ l -> (c <= m)%Q.
Proof.
  intros Hm. destruct (py_max_Q_spec l) as (m' & Hm' & ?); [by intros ->|].
  rewrite Hm in Hm'. by injection Hm' as ->.
Qed.

Lemma py_max_Q_nil_iff (l : list Q) :
  py_max_Q l = Raise (ValueError msg_max_empty) <-> l = [].
Proof. destruct l; split; done. Qed.

Lemma node_color_get (lb : gmap Z Q) (qb : gmap (Z * Z) Q) (v : Z) :
  (node_color lb qb v == get0 lb v + get0 qb (v, v))%Q.
Proof.
  unfold node_color, get0.
  destruct (lb !! v), (qb !! (v, v)); simpl; ring.
Qed.

Lemma edge_color_get (qb : gmap (Z * Z) Q) (u v : Z) :
  (edge_color qb u v == get0 qb (u, v) + get0 qb (v, u))%Q.
Proof.
  unfold edge_color, get0.
  destruct (qb !! (u, v)), (qb !! (v, u)); simpl; ring.
Qed.

Lemma max_abs_app (l1 l2 : list Q) (a b : Q) :
  a ∈ Qabs <$> l1 -> (forall c, c ∈ Qabs <$> l1 -> (c <= a)%Q) ->
  b ∈ Qabs <$> l2 -> (forall c, c ∈ Qabs <$> l2 -> (c <= b)%Q) ->
  max_abs (l1 ++ l2) (Qmax a b).
Proof.
  intros Ha Hua Hb Hub. split.
  - apply list_elem_of_fmap in Ha as (ca & -> & Hca).
    apply list_elem_of_fmap in Hb as (cb & -> & Hcb).
    destruct (Qmax_cases (Qabs ca) (Qabs cb)) as [-> | ->].
    + exists ca. split; [apply elem_of_app; by left|reflexivity].
    + exists cb. split; [apply elem_of_app; by right|reflexivity].
  - intros c [Hc|Hc]%elem_of_app.
    + eapply Qle_trans; [|apply Q.le_max_l].
      apply Hua, list_elem_of_fmap. by exists c.
    + eapply Qle_trans; [|apply Q.le_max_r].
      apply Hub, list_elem_of_fmap. by exists c.
Qed.

(** C9. With a non-empty bias map, when [draw_chimera] reaches the
    drawing: the colour of every node [v] of the node list is
    [linear_biases.get(v,0) + quadratic_biases.get((v,v),0)], the
    colour of every edge [(u,v)] of the edge list is
    [quadratic_biases.get((u,v),0) + quadratic_biases.get((v,u),0)],
    [vmag] is the greatest absolute value of these colours, and each
    of [vmin], [vmax], [edge_vmin], [edge_vmax] is the caller's value
    or, when missing, [-vmag], [vmag], [-vmag], [vmag]. *)
Theorem draw_chimera_colors
    (matplotlib : bool) (G : Graph) (lb : gmap Z Q) (qb : gmap (Z * Z) Q)
    (nodelist : option (list Z)) (edgelist : option (list (Z * Z)))
    (vmin vmax edge_vmin edge_vmax : option Q) (kwargs : gset string)
    (args : draw_args) :
  lb ≠ ∅ \/ qb ≠ ∅ ->
  draw_chimera_args matplotlib G lb qb nodelist edgelist
    vmin vmax edge_vmin edge_vmax kwargs = Ok args ->
  exists ncol ecol vmag,
    arg_node_color args = Some ncol /\ arg_edge_color args = Some ecol /\
    arg_vmag args = Some vmag /\
    Forall2 (fun v c => (c == get0 lb v + get0 qb (v, v))%Q)
      (default (nodes G) nodelist) ncol /\
    Forall2 (fun e c => (c == get0 qb (e.1, e.2) + get0 qb (e.2, e.1))%Q)
      (default (edges G) edgelist) ecol /\
    max_abs (ncol ++ ecol) vmag /\
    bound_is vmin (arg_vmin args) (- vmag) /\
    bound_is vmax (arg_vmax args) vmag /\
    bound_is edge_vmin (arg_edge_vmin args) (- vmag) /\
    bound_is edge_vmax (arg_edge_vmax args) vmag.
Proof.
  intros Hne. unfold draw_chimera_args.
  assert (bool_decide (lb ≠ ∅) || bool_decide (qb ≠ ∅) = true) as ->.
  { apply orb_true_iff. destruct Hne; [left|right]; by apply bool_decide_eq_true. }
  destruct (negb matplotlib); [done|].
  destruct (bool_decide _ || bool_decide _); [done|].
  set (nl := match nodelist with None => nodes G | Some l => l end).
  set (el := match edgelist with None => edges G | Some l => l end).
  assert (default (nodes G) nodelist = nl) as -> by (by destruct nodelist).
  assert (default (edges G) edgelist = el) as -> by (by destruct edgelist).
  destruct (py_max_Q (Qabs <$> (node_color lb qb <$> nl)))
    as [a|e] eqn:Ea; simpl; [|done].
  destruct (py_max_Q (Qabs <$> ((fun e => edge_color qb e.1 e.2) <$> el)))
    as [b|e] eqn:Eb; simpl; [|done].
  intros [= <-]. simpl.
  apply py_max_Q_ok in Ea as [Ha Hua]. apply py_max_Q_ok in Eb as [Hb Hub].
  eexists _, _, _. do 3 (split; [done|]).
  split; [|split; [|split]].
  - apply Forall2_fmap_r, Forall_Forall2_diag, Forall_forall.
    intros v _. apply node_color_get.
  - apply Forall2_fmap_r, Forall_Forall2_diag, Forall_forall.
    intros [u v] _. apply edge_color_get.
  - by apply max_abs_app.
  - repeat split.
    + destruct vmin; [done|]. eexists; split; [done|]. ring.
    + destruct vmax; [done|]. by eexists.
    + destruct edge_vmin; [done|]. eexists; split; [done|]. ring.
    + destruct edge_vmax; [done|]. by eexists.
Qed.

Lemma example_linear_nonempty : example_linear ≠ ∅.
Proof.
  intros E. assert (example_linear !! 0 = None) as E'
    by (by rewrite E, lookup_empty).
  unfold example_linear in E'. by rewrite lookup_singleton_eq in E'.
Qed.

(** The theorem on the edge 0 - 1 with the example biases and
    [vmax = 2] given. *)
Lemma draw_chimera_colors_witness :
  exists ncol ecol vmag,
    Some [0%Q; (1 # 2)%Q] = Some ncol /\ Some [(-3 # 4)%Q] = Some ecol /\
    Some (3 # 4)%Q = Some vmag /\
    Forall2 (fun v c => (c == get0 example_linear v
                             + get0 example_quadratic (v, v))%Q)
      (nodes half_indexed) ncol /\
    Forall2 (fun e c => (c == get0 example_quadratic (e.1, e.2)
                             + get0 example_quadratic (e.2, e.1))%Q)
      (edges half_indexed) ecol /\
    max_abs (ncol ++ ecol) vmag /\
    bound_is None (Some (-3 # 4)%Q) (- vmag) /\
    bound_is (Some 2%Q) (Some 2%Q) vmag /\
    bound_is None (Some (-3 # 4)%Q) (- vmag) /\
    bound_is None (Some (3 # 4)%Q) vmag.
Proof.
  apply (draw_chimera_colors true half_indexed
           example_linear example_quadratic
           None None None (Some 2%Q) None None ∅
           (DrawArgs (Some [1; 0]) (Some [(1, 0)])
              (Some (-3 # 4)%Q) (Some 2%Q) (Some (-3 # 4)%Q) (Some (3 # 4)%Q)
              (Some [0%Q; (1 # 2)%Q]) (Some [(-3 # 4)%Q]) (Some (3 # 4)%Q))).
  - left. apply example_linear_nonempty.
  - by vm_compute.
Defined.

Lemma draw_chimera_args_nonempty
    (matplotlib : bool) (G : Graph) (lb : gmap Z Q) (qb : gmap (Z * Z) Q)
    (nodelist : option (list Z)) (edgelist : option (list (Z * Z)))
    (vmin vmax edge_vmin edge_vmax : option Q) (kwargs : gset string)
    (args : draw_args) :
  lb ≠ ∅ \/ qb ≠ ∅ ->
  draw_chimera_args matplotlib G lb qb nodelist edgelist
    vmin vmax edge_vmin edge_vmax kwargs = Ok args ->
  default (nodes G) nodelist <> [] /\ default (edges G) edgelist <> [].
Proof.
  intros Hne. unfold draw_chimera_args.
  assert (bool_decide (lb ≠ ∅) || bool_decide (qb ≠ ∅) = true) as ->.
  { apply orb_true_iff. destruct Hne; [left|right]; by apply bool_decide_eq_true. }
  destruct (negb matplotlib); [done|].
  destruct (bool_decide _ || bool_decide _); [done|].
  destruct nodelist as [[|]|], edgelist as [[|]|]; simpl; try done;
    destruct (nodes G); try done; destruct (edges G); done.
Qed.

(** C10. With a non-empty bias map, matplotlib present and no colour
    given by the caller, an empty node list or an empty edge list makes
    [draw_chimera] fail with the [ValueError] of [max] on an empty
    sequence, before the layout is computed and anything is drawn; and
    whenever [draw_chimera] gets through, both lists are non-empty. *)
Theorem draw_chimera_vmag_unguarded
    (matplotlib : bool) (G : Graph) (lb : gmap Z Q) (qb : gmap (Z * Z) Q)
    (nodelist : option (list Z)) (edgelist : option (list (Z * Z)))
    (vmin vmax edge_vmin edge_vmax : option Q) (kwargs : gset string) :
  lb ≠ ∅ \/ qb ≠ ∅ ->
  (matplotlib = true -> "node_color" ∉ kwargs -> "edge_color" ∉ kwargs ->
   default (nodes G) nodelist = [] \/ default (edges G) edgelist = [] ->
   draw_chimera_args matplotlib G lb qb nodelist edgelist
     vmin vmax edge_vmin edge_vmax kwargs = Raise (ValueError msg_max_empty) /\
   draw_chimera matplotlib G lb qb nodelist edgelist
     vmin vmax edge_vmin edge_vmax kwargs = Raise (ValueError msg_max_empty)) /\
  (forall r,
     draw_chimera matplotlib G lb qb nodelist edgelist
       vmin vmax edge_vmin edge_vmax kwargs = Ok r ->
     default (nodes G) nodelist <> [] /\ default (edges G) edgelist <> []).
Proof.
  intros Hne. split.
  - intros -> Hnc Hec Hempty.
    assert (draw_chimera_args true G lb qb nodelist edgelist
              vmin vmax edge_vmin edge_vmax kwargs
            = Raise (ValueError msg_max_empty)) as E.
    { unfold draw_chimera_args.
      assert (bool_decide (lb ≠ ∅) || bool_decide (qb ≠ ∅) = true) as ->.
      { apply orb_true_iff.
        destruct Hne; [left|right]; by apply bool_decide_eq_true. }
      simpl negb. cbv iota.
      rewrite (bool_decide_eq_false_2 _ Hnc), (bool_decide_eq_false_2 _ Hec).
      simpl orb. cbv iota.
      set (nl := match nodelist with None => nodes G | Some l => l end).
      set (el := match edgelist with None => edges G | Some l => l end).
      assert (nl = [] \/ el = []) as [-> | ->]
        by (by destruct nodelist, edgelist).
      - done.
      - destruct (py_max_Q (Qabs <$> (node_color lb qb <$> nl)))
          as [a|e] eqn:Ea; [done|].
        destruct (Qabs <$> (node_color lb qb <$> nl)); [|done].
        by injection Ea as <-. }
    split; [done|]. unfold draw_chimera. by rewrite E.
  - intros r Hr. unfold draw_chimera in Hr.
    destruct (draw_chimera_args _ _ _ _ _ _ _ _ _ _ _) as [args|e] eqn:E;
      [|done].
    by eapply draw_chimera_args_nonempty.
Qed.

(** The theorem on a failing input: one node, no edge, a linear bias
    on the node. *)
Lemma draw_chimera_vmag_unguarded_witness :
  draw_chimera_args true single_node example_linear ∅
    None None None None None None ∅ = Raise (ValueError msg_max_empty) /\
  draw_chimera true single_node example_linear ∅
    None None None None None None ∅ = Raise (ValueError msg_max_empty).
Proof.
  apply (draw_chimera_vmag_unguarded true single_node
           example_linear ∅ None None None None None None ∅).
  - left. apply example_linear_nonempty.
  - reflexivity.
  - set_solver.
  - set_solver.
  - right. by vm_compute.
Defined.

(** ** Facts on graphs *)

Lemma elem_of_neighbors (G : Graph) (v w : Z) :
  w ∈ neighbors G v <-> edge G v w.
Proof. unfold neighbors, edge. apply elem_of_elements. Qed.

Lemma elem_of_nodes (G : Graph) (v : Z) : v ∈ nodes G <-> v ∈ dom (node G).
Proof.
  unfold nodes. rewrite elem_of_dom, list_elem_of_fmap. split.
  - intros ([v' dat] & -> & Hin). apply elem_of_map_to_list in Hin. by exists dat.
  - intros [dat Hdat]. exists (v, dat). split; [done|].
    by apply elem_of_map_to_list.
Qed.

Lemma length_nodes (G : Graph) : length (nodes G) = size (node G).
Proof. unfold nodes. by rewrite length_fmap, length_map_to_list. Qed.

Lemma NoDup_nodes (G : Graph) : NoDup (nodes G).
Proof. apply NoDup_fst_map_to_list. Qed.

Lemma edge_adj (G : Graph) (v w : Z) :
  edge G v w <-> exists ws, adj G !! v = Some ws /\ w ∈ ws.
Proof.
  unfold edge. destruct (adj G !! v) as [ws|]; simpl.
  - split; [by exists ws|]. by intros (ws' & [= <-] & ?).
  - split; [set_solver|]. by intros (ws' & ? & ?).
Qed.

Lemma edge_sym (G : Graph) (v w : Z) : wf_graph G -> edge G v w -> edge G w v.
Proof.
  intros [_ Hsym] (ws & Hv & Hw)%edge_adj. exact (Hsym v ws Hv w Hw).
Qed.

Lemma edge_node (G : Graph) (v w : Z) :
  wf_graph G -> edge G v w -> v ∈ dom (node G) /\ w ∈ dom (node G).
Proof.
  intros Hwf Hvw.
  assert (forall a b, edge G a b -> a ∈ dom (node G)) as Hdom.
  { intros a b (ws & Ha & _)%edge_adj. destruct Hwf as [<- _].
    by apply elem_of_dom. }
  split; [by eapply Hdom|]. eapply Hdom. by apply edge_sym.
Qed.

Lemma degree_0 (G : Graph) (v : Z) : degree G v = 0 <-> neighbors G v = [].
Proof.
  unfold degree. split.
  - destruct (neighbors G v); [done|]. simpl length. case_bool_decide; lia.
  - intros ->. by rewrite bool_decide_eq_false_2 by apply not_elem_of_nil.
Qed.

Lemma uncolored_insert (G : Graph) (col : gmap Z Z) (w c : Z) :
  w ∈ dom (node G) -> col !! w = None ->
  size (uncolored G col) = S (size (uncolored G (<[w := c]> col))).
Proof.
  intros Hw Hcol. unfold uncolored. rewrite dom_insert_L.
  assert (dom (node G) ∖ dom col
          = {[w]} ∪ dom (node G) ∖ ({[w]} ∪ dom col)) as ->.
  { apply set_eq. intros x. apply not_elem_of_dom in Hcol.
    destruct (decide (x = w)) as [->|]; set_solver. }
  rewrite size_union by set_solver. by rewrite size_singleton.
Qed.

(** *** The loop over the neighbours *)

Lemma color_neighbors_spec (G : Graph) (cv : Z) (ws queue : list Z)
    (col : gmap Z Z) :
  cv = 0 \/ cv = 1 ->
  (forall v c, col !! v = Some c -> c = 0 \/ c = 1) ->
  (forall w, w ∈ ws -> w ∈ dom (node G)) ->
  match color_neighbors cv ws queue col with
  | Ok (queue', col') =>
      exists new, queue' = new ++ queue /\
        (forall x, x ∈ new -> col !! x = None /\ x ∈ ws) /\
        (forall x, col' !! x = match col !! x with
                               | Some c => Some c
                               | None => if decide (x ∈ new) then Some (1 - cv)
                                         else None
                               end) /\
        (forall w, w ∈ ws -> col' !! w = Some (1 - cv)) /\
        (length new + size (uncolored G col') = size (uncolored G col))%nat
  | Raise e =>
      e = NetworkXError msg_not_bipartite /\
      exists w, w ∈ ws /\ col !! w = Some cv
  end.
Proof.
  intros Hcv. revert queue col.
  induction ws as [|w ws IH]; intros queue col Hval Hws; simpl.
  - exists []. split; [done|]. split; [|split; [|split]]; [| | |done].
    + intros x Hx. by apply elem_of_nil in Hx.
    + intros x. destruct (col !! x); [done|].
      by rewrite decide_False by apply not_elem_of_nil.
    + intros x Hx. by apply elem_of_nil in Hx.
  - assert (forall x, x ∈ ws -> x ∈ dom (node G)) as Hws'
      by (intros x Hx; apply Hws; by right).
    destruct (col !! w) as [cw|] eqn:Ew.
    + destruct (cw =? cv) eqn:Ec.
      * apply Z.eqb_eq in Ec as ->. split; [done|]. exists w. split; [left|done].
      * apply Z.eqb_neq in Ec. specialize (IH queue col Hval Hws').
        destruct (color_neighbors cv ws queue col) as [[queue' col']|e].
        -- destruct IH as (new & -> & Hnew & Hchar & Hall & Hsize).
           exists new. split; [done|]. split; [|split; [|split]]; [|done| |done].
           ++ intros x Hx. destruct (Hnew x Hx). split; [done|by right].
           ++ intros x [->|Hx]%elem_of_cons; [|by apply Hall].
              rewrite Hchar, Ew. f_equal. destruct (Hval _ _ Ew); lia.
        -- destruct IH as (-> & x & Hx & Hcx). split; [done|].
           exists x. split; [by right|done].
    + assert (forall v c, <[w := 1 - cv]> col !! v = Some c -> c = 0 \/ c = 1)
        as Hval'.
      { intros v c. destruct (decide (w = v)) as [->|Hne].
        - rewrite lookup_insert_eq. intros [= <-]. lia.
        - rewrite lookup_insert_ne by done. apply Hval. }
      specialize (IH (w :: queue) (<[w := 1 - cv]> col) Hval' Hws').
      destruct (color_neighbors cv ws (w :: queue) (<[w:=1 - cv]> col))
        as [[queue' col']|e].
      * destruct IH as (new & -> & Hnew & Hchar & Hall & Hsize).
        exists (new ++ [w]). split; [by rewrite <- app_assoc|].
        split; [|split; [|split]].
        -- intros x [Hx| ->%list_elem_of_singleton]%elem_of_app.
           ++ destruct (Hnew x Hx) as [Hnone Hin]. split; [|by right].
              destruct (decide (w = x)) as [->|Hne];
                [by rewrite lookup_insert_eq in Hnone|].
              by rewrite lookup_insert_ne in Hnone.
           ++ split; [done|left].
        -- intros x. rewrite Hchar. destruct (decide (w = x)) as [<-|Hne].
           ++ rewrite lookup_insert_eq, Ew.
              rewrite decide_True; [done|]. apply elem_of_app. right. left.
           ++ rewrite lookup_insert_ne by done. destruct (col !! x); [done|].
              destruct (decide (x ∈ new)) as [Hin|Hnin].
              ** rewrite decide_True; [done|]. apply elem_of_app. by left.
              ** rewrite decide_False; [done|].
                 intros [?| ->%list_elem_of_singleton]%elem_of_app; done.
        -- intros x [->|Hx]%elem_of_cons; [|by apply Hall].
           rewrite Hchar, lookup_insert_eq. done.
        -- rewrite length_app. simpl.
           rewrite (uncolored_insert G col w (1 - cv)); [lia| |done].
           apply Hws. left.
      * destruct IH as (-> & x & Hx & Hcx). split; [done|].
        exists x. split; [by right|].
        destruct (decide (w = x)) as [<-|Hne].
        -- rewrite lookup_insert_eq in Hcx. injection Hcx. lia.
        -- by rewrite lookup_insert_ne in Hcx.
Qed.

(** *** The while loop *)

Lemma color_component_spec (G : Graph) (fuel : nat) (nbrs : Z -> list Z)
    (queue : list Z) (col : gmap Z Z) :
  wf_graph G -> (forall v, nbrs v ≡ₚ neighbors G v) ->
  color_inv G queue col ->
  (length queue + size (uncolored G col) < fuel)%nat ->
  exists r, color_component fuel nbrs queue col = Some r /\
    match r with
    | Ok col' => col ⊆ col' /\ color_inv G [] col'
    | Raise e => e = NetworkXError msg_not_bipartite
    end /\
    (forall c, two_coloring G c -> agrees c col ->
       exists col', r = Ok col' /\ agrees c col').
Proof.
  intros Hwf Hnbrs.
  assert (forall v w, w ∈ nbrs v <-> edge G v w) as elem_of_nbrs
    by (intros v w; by rewrite Hnbrs, elem_of_neighbors).
  revert queue col.
  induction fuel as [|fuel IH]; intros queue col Hinv Hfuel; [lia|].
  destruct queue as [|v queue]; simpl.
  { exists (Ok col). split; [done|]. split; [done|]. intros c _ Hc. by exists col. }
  destruct Hinv as (Hval & Hq & Hdone).
  destruct (Hq v) as [cv Hv]; [left|]. rewrite Hv.
  destruct (Hval v cv Hv) as [Hcv Hvn].
  pose proof (color_neighbors_spec G cv (nbrs v) queue col Hcv
                (fun x c Hx => proj1 (Hval x c Hx))) as Hspec.
  destruct (color_neighbors cv (nbrs v) queue col)
    as [[queue' col']|e].
  - destruct Hspec as (new & -> & Hnew & Hchar & Hall & Hsize).
    { intros w Hw%elem_of_nbrs. by eapply edge_node. }
    assert (col ⊆ col') as Hsub.
    { apply map_subseteq_spec. intros x c Hx. by rewrite Hchar, Hx. }
    assert (forall x c, col' !! x = Some c ->
              col !! x = Some c \/ (x ∈ new /\ c = 1 - cv)) as Hcases.
    { intros x c. rewrite Hchar. destruct (col !! x); [by left|].
      destruct (decide (x ∈ new)); [|done]. intros [= <-]. by right. }
    destruct (IH (new ++ queue) col') as (r & Hr & Hres & Hagr).
    + split; [|split].
      * intros x c [Hx|[Hx ->]]%Hcases; [by apply Hval|].
        split; [lia|]. destruct (Hnew x Hx) as [_ Hin%elem_of_nbrs].
        by eapply edge_node.
      * intros x [Hx|Hx]%elem_of_app.
        -- rewrite Hchar. destruct (Hnew x Hx) as [-> _].
           by rewrite decide_True.
        -- destruct (Hq x) as [c Hc]; [by right|]. rewrite Hchar, Hc. done.
      * intros x c Hx Hnq w Hw.
        apply Hcases in Hx as [Hx|[Hx _]];
          [|exfalso; apply Hnq, elem_of_app; by left].
        destruct (decide (x = v)) as [->|Hne].
        -- assert (c = cv) as -> by congruence.
           by apply Hall, elem_of_nbrs.
        -- eapply lookup_weaken; [|done]. eapply Hdone; [done| |done].
           intros [?|?]%elem_of_cons; [done|].
           apply Hnq, elem_of_app. by right.
    + rewrite length_app. simpl in Hfuel. lia.
    + exists r. split; [done|]. split.
      * destruct r as [col''|e]; [|done]. destruct Hres as [Hsub' Hinv'].
        split; [|done]. by etrans.
      * intros c Hc Hcol. apply Hagr; [done|].
        intros x y [Hx|[Hx ->]]%Hcases; [by apply Hcol|].
        destruct (Hnew x Hx) as [_ Hin%elem_of_nbrs].
        rewrite (proj2 Hc v x Hin). by rewrite (Hcol v cv Hv).
  - destruct Hspec as (-> & w & Hw%elem_of_nbrs & Hcw).
    { intros x Hx%elem_of_nbrs. by eapply edge_node. }
    exists (Raise (NetworkXError msg_not_bipartite)).
    split; [done|]. split; [done|].
    intros c Hc Hcol. exfalso.
    pose proof (proj2 Hc v w Hw) as E.
    rewrite (Hcol v cv Hv), (Hcol w cv Hcw) in E. lia.
Qed.

(** *** The loop over the nodes *)

(** A colouring that extends a closed partial colouring can be
    complemented outside of it. *)
Lemma two_coloring_flip (G : Graph) (c : Z -> Z) (col : gmap Z Z) :
  wf_graph G -> color_inv G [] col -> two_coloring G c -> agrees c col ->
  let c' := fun v => if decide (is_Some (col !! v)) then c v else 1 - c v in
  two_coloring G c' /\ agrees c' col.
Proof.
  intros Hwf (_ & _ & Hdone) [Hval Hedge] Hagr c'. split; [split|].
  - intros v. unfold c'. destruct (Hval v); case_decide; lia.
  - intros v w Hvw. unfold c'.
    assert (forall a b, edge G a b -> is_Some (col !! a) -> is_Some (col !! b))
      as Hclosed.
    { intros a b Hab [ca Ha]. exists (1 - ca).
      eapply Hdone; [done|apply not_elem_of_nil|done]. }
    rewrite (Hedge v w Hvw).
    destruct (decide (is_Some (col !! v))) as [Hv|Hv].
    + rewrite decide_True by (by eapply Hclosed). done.
    + rewrite decide_False; [lia|]. intros Hw. apply Hv.
      eapply Hclosed; [|done]. by apply edge_sym.
  - intros v cv Hv. unfold c'. rewrite decide_True by done. by apply Hagr.
Qed.

(** Starting a component: some colouring gives the start node the
    colour 1 and still extends the partial colouring. *)
Lemma agrees_start (G : Graph) (c : Z -> Z) (col : gmap Z Z) (n : Z) :
  wf_graph G -> color_inv G [] col -> col !! n = None ->
  two_coloring G c -> agrees c col ->
  exists c1, two_coloring G c1 /\ agrees c1 (<[n := 1]> col).
Proof.
  intros Hwf Hinv Hnone Hc Hcol.
  destruct (two_coloring_flip G c col Hwf Hinv Hc Hcol) as [Hc' Hcol'].
  destruct (decide (c n = 1)) as [E|E].
  - exists c. split; [done|]. intros v cv.
    destruct (decide (n = v)) as [<-|Hne].
    + rewrite lookup_insert_eq. by intros [= <-].
    + rewrite lookup_insert_ne by done. apply Hcol.
  - eexists. split; [exact Hc'|]. intros v cv.
    destruct (decide (n = v)) as [<-|Hne].
    + rewrite lookup_insert_eq. intros [= <-].
      rewrite decide_False by (rewrite Hnone; by intros [? ?]).
      destruct (proj1 Hc n); lia.
    + rewrite lookup_insert_ne by done. apply Hcol'.
Qed.

Lemma color_nodes_spec (G : Graph) (nbrs : Z -> list Z) (ns : list Z)
    (col : gmap Z Z) :
  wf_graph G -> (forall v, nbrs v ≡ₚ neighbors G v) ->
  color_inv G [] col ->
  (forall n, n ∈ ns -> n ∈ dom (node G)) ->
  exists r, color_nodes (S (size (node G))) G nbrs ns col = Some r /\
    match r with
    | Ok col' =>
        col ⊆ col' /\ color_inv G [] col' /\
        forall n, n ∈ ns -> is_Some (col' !! n) \/ neighbors G n = []
    | Raise e => e = NetworkXError msg_not_bipartite
    end /\
    (forall c, two_coloring G c -> agrees c col ->
       exists col' c', r = Ok col' /\ two_coloring G c' /\ agrees c' col').
Proof.
  intros Hwf Hnbrs. revert col.
  induction ns as [|n ns IH]; intros col Hinv Hns; cbn [color_nodes].
  { exists (Ok col). split; [done|]. split.
    - split; [done|]. split; [done|]. intros n Hn. by apply elem_of_nil in Hn.
    - intros c Hc Hcol. by exists col, c. }
  assert (forall x, x ∈ ns -> x ∈ dom (node G)) as Hns'
    by (intros x Hx; apply Hns; by right).
  destruct (bool_decide (is_Some (col !! n))
            || bool_decide (length (neighbors G n) = 0%nat)) eqn:Eskip.
  - destruct (IH col Hinv Hns') as (r & Hr & Hres & Hagr).
    exists r. split; [done|]. split; [|done].
    destruct r as [col'|e]; [|done]. destruct Hres as (Hsub & Hinv' & Hall).
    split; [done|]. split; [done|].
    intros x [->|Hx]%elem_of_cons; [|by apply Hall].
    apply orb_true_iff in Eskip as [Hn%bool_decide_eq_true|Hn%bool_decide_eq_true].
    + left. destruct Hn as [cn Hn]. exists cn. by eapply lookup_weaken.
    + right. by apply length_zero_iff_nil.
  - apply orb_false_iff in Eskip as [Hn%bool_decide_eq_false _].
    assert (col !! n = None) as Hnone
      by (destruct (col !! n) eqn:E; [destruct Hn; by eexists|done]).
    assert (n ∈ dom (node G)) as Hnode by (apply Hns; left).
    destruct Hinv as (Hval & Hq & Hdone).
    destruct (color_component_spec G (S (size (node G))) nbrs [n]
                (<[n := 1]> col))
      as (r1 & Hr1 & Hres1 & Hagr1); [done|done| |..].
    { split; [|split].
      - intros v c. destruct (decide (n = v)) as [<-|Hne].
        + rewrite lookup_insert_eq. intros [= <-]. split; [lia|done].
        + rewrite lookup_insert_ne by done. apply Hval.
      - intros v ->%list_elem_of_singleton. rewrite lookup_insert_eq. by eexists.
      - intros v c Hv Hnq w Hw.
        assert (n ≠ v) as Hne by (intros <-; apply Hnq; left).
        rewrite lookup_insert_ne in Hv by done.
        pose proof (Hdone v c Hv (not_elem_of_nil _) w Hw) as Hcw.
        rewrite lookup_insert_ne; [done|]. intros <-. congruence. }
    { pose proof (uncolored_insert G col n 1 Hnode Hnone) as Hsz.
      assert (size (uncolored G col) <= size (node G))%nat.
      { rewrite <- (size_dom (D := gset Z)). apply subseteq_size.
        unfold uncolored. set_solver. }
      cbn [length]. lia. }
    rewrite Hr1. destruct r1 as [col1|e].
    + destruct Hres1 as [Hsub1 Hinv1].
      destruct (IH col1 Hinv1 Hns') as (r & Hr & Hres & Hagr).
      exists r. split; [done|]. split.
      * destruct r as [col'|e]; [|done]. destruct Hres as (Hsub & Hinv' & Hall).
        assert (<[n := 1]> col ⊆ col') as Hsub' by (by etrans).
        split; [|split; [done|]].
        -- etrans; [|done]. by apply insert_subseteq.
        -- intros x [->|Hx]%elem_of_cons; [|by apply Hall].
           left. exists 1. eapply lookup_weaken; [|done]. apply lookup_insert_eq.
      * intros c Hc Hcol.
        destruct (agrees_start G c col n Hwf (conj Hval (conj Hq Hdone))
                    Hnone Hc Hcol) as (c1 & Hc1 & Hcol1).
        destruct (Hagr1 c1 Hc1 Hcol1) as (col1' & [= <-] & Hcol1').
        by apply (Hagr c1).
    + exists (Raise e). split; [done|]. split; [done|].
      intros c Hc Hcol. exfalso.
      destruct (agrees_start G c col n Hwf (conj Hval (conj Hq Hdone))
                  Hnone Hc Hcol) as (c1 & Hc1 & Hcol1).
      by destruct (Hagr1 c1 Hc1 Hcol1) as (col1' & [=] & _).
Qed.

(** *** [color] decides bipartiteness *)

Lemma proper_coloring_bipartite (G : Graph) (col : gmap Z Z) :
  proper_coloring G col -> bipartite G.
Proof.
  intros (_ & Hval & Hedge). exists (fun v => default 0 (col !! v)). split.
  - intros v. destruct (col !! v) as [c|] eqn:E; simpl; [by eapply Hval|by left].
  - intros v w (c & -> & ->)%Hedge. done.
Qed.

Lemma lookup_color_isolates (col : gmap Z Z) (l : list Z) (v : Z) :
  foldl (fun c n => <[n := 0]> c) col l !! v
  = if decide (v ∈ l) then Some 0 else col !! v.
Proof.
  revert col. induction l as [|n l IH]; intros col; cbn [foldl].
  - by rewrite decide_False by apply not_elem_of_nil.
  - rewrite IH. destruct (decide (v ∈ l)) as [Hin|Hnin].
    + rewrite decide_True; [done|by right].
    + destruct (decide (n = v)) as [->|Hne].
      * rewrite lookup_insert_eq. rewrite decide_True; [done|left].
      * rewrite lookup_insert_ne by done.
        rewrite decide_False; [done|]. by intros [?|?]%elem_of_cons.
Qed.

Lemma elem_of_isolates (G : Graph) (v : Z) :
  v ∈ isolates G <-> v ∈ dom (node G) /\ neighbors G v = [].
Proof.
  unfold isolates. rewrite list_elem_of_filter, degree_0, elem_of_nodes. tauto.
Qed.

Lemma color_inv_empty (G : Graph) : color_inv G [] ∅.
Proof.
  split; [|split].
  - intros v c Hv. by rewrite lookup_empty in Hv.
  - intros v Hv. by apply elem_of_nil in Hv.
  - intros v c Hv. by rewrite lookup_empty in Hv.
Qed.

(** On a networkx graph, whatever the order of its dictionaries,
    [color] returns: a total proper colouring when the graph is
    bipartite, the error "Graph is not bipartite." when it is not. *)
Theorem color_correct (o : dict_order) (G : Graph) :
  wf_graph G -> iterates o G ->
  (bipartite G /\
   exists col, color o G = Some (Ok col) /\ proper_coloring G col)
  \/ (~ bipartite G /\
      color o G = Some (Raise (NetworkXError msg_not_bipartite))).
Proof.
  intros Hwf [Hnodes Hnbrs].
  assert (forall v, v ∈ node_order o <-> v ∈ dom (node G)) as Horder
    by (intros v; by rewrite Hnodes, elem_of_nodes).
  destruct (color_nodes_spec G (nbr_order o) (node_order o) ∅ Hwf Hnbrs
              (color_inv_empty G))
    as (r & Hr & Hres & Hagr); [by intros n Hn%Horder|].
  unfold color. rewrite Hr. destruct r as [col|e].
  - destruct Hres as (_ & (Hval & _ & Hdone) & Hall).
    assert (proper_coloring G
              (foldl (fun c n => <[n := 0]> c) col (isolates G))) as Hproper.
    { split; [|split].
      - apply set_eq. intros v. rewrite elem_of_dom, lookup_color_isolates.
        destruct (decide (v ∈ isolates G)) as [Hiso|Hiso].
        + apply elem_of_isolates in Hiso as [Hv _]. split; [done|by eexists].
        + split.
          * intros [c Hc]. by eapply Hval.
          * intros Hv. destruct (Hall v) as [?|Hnil]; [by apply Horder|done|].
            destruct Hiso. by apply elem_of_isolates.
      - intros v c. rewrite lookup_color_isolates.
        case_decide; [intros [= <-]; by left|]. intros Hc. by eapply Hval.
      - intros v w Hvw.
        destruct (edge_node G v w Hwf Hvw) as [Hv Hw].
        assert (forall a b, edge G a b -> a ∉ isolates G) as Hniso.
        { intros a b Hab%elem_of_neighbors [_ Hnil]%elem_of_isolates.
          rewrite Hnil in Hab. by apply elem_of_nil in Hab. }
        destruct (Hall v) as [[c Hc]|Hnil]; [by apply Horder| |].
        + exists c. rewrite !lookup_color_isolates.
          rewrite (decide_False (P := v ∈ isolates G)) by (by eapply Hniso).
          rewrite (decide_False (P := w ∈ isolates G))
            by (eapply Hniso; by apply edge_sym).
          split; [done|]. eapply Hdone; [done|apply not_elem_of_nil|done].
        + apply elem_of_neighbors in Hvw. rewrite Hnil in Hvw.
          by apply elem_of_nil in Hvw. }
    left. split; [by eapply proper_coloring_bipartite|]. by eexists.
  - right. subst e. split; [|done].
    intros [c Hc]. destruct (Hagr c Hc) as (col' & c' & [=] & _).
    intros v cv Hv. by rewrite lookup_empty in Hv.
Qed.

(** *** The sorted node list and the colouring of the inference *)

Lemma sorted_nodes_perm (G : Graph) : sorted_nodes G ≡ₚ nodes G.
Proof. apply merge_sort_Permutation. Qed.

Lemma elem_of_sorted_nodes (G : Graph) (v : Z) :
  v ∈ sorted_nodes G <-> v ∈ dom (node G).
Proof. by rewrite sorted_nodes_perm, elem_of_nodes. Qed.

Lemma NoDup_sorted_nodes (G : Graph) : NoDup (sorted_nodes G).
Proof. rewrite sorted_nodes_perm. apply NoDup_nodes. Qed.

Lemma sorted_nodes_head (G : Graph) :
  node G ≠ ∅ ->
  exists v0 rest, sorted_nodes G = v0 :: rest /\ lowest G v0.
Proof.
  intros Hne.
  assert (StronglySorted Z.le (sorted_nodes G)) as Hsorted
    by (apply StronglySorted_merge_sort; apply _).
  destruct (sorted_nodes G) as [|v0 rest] eqn:E.
  - destruct (map_choose (node G) Hne) as (v & dat & Hv).
    assert (v ∈ sorted_nodes G) as Hin
      by (apply elem_of_sorted_nodes, elem_of_dom; by eexists).
    rewrite E in Hin. by apply elem_of_nil in Hin.
  - exists v0, rest. split; [done|]. split.
    + apply elem_of_sorted_nodes. rewrite E. left.
    + intros v Hv%elem_of_sorted_nodes. rewrite E in Hv.
      apply StronglySorted_inv in Hsorted as [_ Hall].
      apply elem_of_cons in Hv as [->|Hv]; [done|].
      by eapply Forall_forall in Hall.
Qed.

Lemma proper_coloring_flip (G : Graph) (col : gmap Z Z) :
  proper_coloring G col -> proper_coloring G ((fun c => 1 - c) <$> col).
Proof.
  intros (Hdom & Hval & Hedge). split; [|split].
  - by rewrite dom_fmap_L.
  - intros v c. rewrite lookup_fmap.
    destruct (col !! v) as [c'|] eqn:E; [|done]. simpl. intros [= <-].
    destruct (Hval v c' E); lia.
  - intros v w (c & Hv & Hw)%Hedge. exists (1 - c).
    by rewrite !lookup_fmap, Hv, Hw.
Qed.

(** The colouring used by the inference: a proper colouring that
    gives the lowest node the colour 1, or the error of [color]. *)
Lemma chimera_coloring_correct (o : dict_order) (G : Graph) :
  wf_graph G -> iterates o G -> node G ≠ ∅ ->
  (bipartite G /\
   exists col v0, chimera_coloring o G = Some (Ok col) /\
     proper_coloring G col /\ lowest G v0 /\ col !! v0 = Some 1 /\
     exists col0, color o G = Some (Ok col0) /\
       (col = col0 \/ col = (fun c => 1 - c) <$> col0))
  \/ (~ bipartite G /\
      chimera_coloring o G = Some (Raise (NetworkXError msg_not_bipartite))).
Proof.
  intros Hwf Ho Hne. unfold chimera_coloring.
  destruct (color_correct o G Hwf Ho) as [[Hbip (col & -> & Hcol)]|[Hnbip ->]];
    [left|by right].
  split; [done|].
  destruct (sorted_nodes_head G Hne) as (v0 & rest & -> & Hlow).
  simpl. destruct Hcol as (Hdom & Hval & Hedge).
  assert (is_Some (col !! v0)) as [c0 Hc0]
    by (apply elem_of_dom; rewrite Hdom; apply Hlow).
  unfold py_item. rewrite Hc0. simpl.
  destruct (c0 =? 1) eqn:Ec; simpl.
  - apply Z.eqb_eq in Ec as ->. exists col, v0.
    do 4 (split; [done|]). exists col. split; [done|by left].
  - apply Z.eqb_neq in Ec. eexists _, v0. split; [done|].
    split; [by apply proper_coloring_flip|]. split; [done|]. split.
    + rewrite lookup_fmap, Hc0. simpl. destruct (Hval v0 c0 Hc0); [|done].
      f_equal. lia.
    + exists col. split; [done|by right].
Qed.

(** *** The shores and the degree *)

Lemma count_shores_list (l : list (Z * Z)) (a b : Z) :
  (forall vc, vc ∈ l -> vc.2 = 0 \/ vc.2 = 1) ->
  foldl (fun shores vc => shores ← shores; py_incr shores vc.2) (Ok [a; b]) l
  = Ok [a + Z.of_nat (length (filter (fun vc : Z * Z => vc.2 = 0) l));
        b + Z.of_nat (length (filter (fun vc : Z * Z => vc.2 = 1) l))].
Proof.
  revert a b. induction l as [|[v c] l IH]; intros a b Hval.
  - simpl. by rewrite !Z.add_0_r.
  - assert (forall vc, vc ∈ l -> vc.2 = 0 \/ vc.2 = 1) as Hval'
      by (intros vc Hvc; apply Hval; by right).
    cbn [foldl]. destruct (Hval (v, c)) as [Hc|Hc]; [left|..];
      simpl in Hc; subst c; cbn [mbind result_bind snd].
    + change (py_incr [a; b] 0) with (Ok [a + 1; b]).
      rewrite IH by done. rewrite filter_cons_True by done.
      rewrite filter_cons_False by done. simpl length. do 2 f_equal. lia.
    + change (py_incr [a; b] 1) with (Ok [a; b + 1]).
      rewrite IH by done. rewrite filter_cons_False by done.
      rewrite (filter_cons_True (fun vc : Z * Z => vc.2 = 1)) by done.
      simpl length. do 3 f_equal. lia.
Qed.

Lemma count_shores_proper (G : Graph) (col : gmap Z Z) :
  proper_coloring G col ->
  count_shores col = Ok [class_size col 0; class_size col 1].
Proof.
  intros (_ & Hval & _). unfold count_shores. rewrite count_shores_list.
  - done.
  - intros [v c] Hvc%elem_of_map_to_list. by eapply Hval.
Qed.

Lemma py_max_degree (G : Graph) :
  node G ≠ ∅ ->
  exists delta, py_max (degree G <$> nodes G) = Ok delta /\ max_degree G delta.
Proof.
  intros Hne.
  destruct (py_max_spec (degree G <$> nodes G)) as (d & Hd & Hin & Hub).
  - destruct (map_choose (node G) Hne) as (v & dat & Hv).
    assert (v ∈ nodes G) as Hvn by (apply elem_of_nodes, elem_of_dom; by eexists).
    intros E. apply (f_equal length) in E. rewrite length_fmap in E.
    destruct (nodes G); [by apply elem_of_nil in Hvn|done].
  - exists d. split; [done|]. split.
    + apply list_elem_of_fmap in Hin as (v & -> & Hv%elem_of_nodes). by exists v.
    + intros v Hv%elem_of_nodes. apply Hub, list_elem_of_fmap. by exists v.
Qed.

(** What the inference does once the graph is known to be bipartite. *)
Lemma find_chimera_indices_bipartite (o : dict_order) (G : Graph) :
  wf_graph G -> iterates o G -> node G ≠ ∅ -> bipartite G ->
  exists col v0 delta,
    chimera_coloring o G = Some (Ok col) /\ proper_coloring G col /\
    lowest G v0 /\ col !! v0 = Some 1 /\ max_degree G delta /\
    _find_chimera_indices o G
    = Some (if larger_class col =? delta
            then assign_indices col (sorted_nodes G) [0; 0] ∅
            else dia ← diameter G; Raise NotImplementedError).
Proof.
  intros Hwf Ho Hne Hbip.
  destruct (chimera_coloring_correct o G Hwf Ho Hne)
    as [(_ & col & v0 & Hcol & Hproper & Hlow & Hv0 & _)|[Hnbip _]]; [|done].
  destruct (py_max_degree G Hne) as (delta & Hdelta & Hmax).
  exists col, v0, delta. do 5 (split; [done|]).
  unfold _find_chimera_indices. rewrite Hcol. cbn [mbind result_bind].
  rewrite Hdelta. cbn [mbind result_bind].
  rewrite (count_shores_proper G col Hproper). done.
Qed.

(** *** The assignment of the indices of a single tile *)

Lemma seqZ_succ_length (a : Z) (n : nat) :
  seqZ a (Z.of_nat (S n)) = a :: seqZ (a + 1) (Z.of_nat n).
Proof.
  rewrite seqZ_cons by lia. by rewrite Nat2Z.inj_succ, Z.pred_succ.
Qed.

Lemma assign_indices_spec (col : gmap Z Z) (nlist : list Z) (a b : Z)
    (acc : gmap Z index) :
  NoDup nlist ->
  (forall v, v ∈ nlist -> col !! v = Some 0 \/ col !! v = Some 1) ->
  exists idx, assign_indices col nlist [a; b] acc = Ok idx /\
    (forall x, x ∉ nlist -> idx !! x = acc !! x) /\
    (forall x, x ∈ nlist -> exists k, idx !! x = Some (0, 0, shore col x, k)) /\
    (fun v => idx !! v) <$> filter (fun v => shore col v = 0) nlist
    = (fun k => Some (0, 0, 0, k))
        <$> seqZ a (Z.of_nat (length (filter (fun v => shore col v = 0) nlist))) /\
    (fun v => idx !! v) <$> filter (fun v => shore col v = 1) nlist
    = (fun k => Some (0, 0, 1, k))
        <$> seqZ b (Z.of_nat (length (filter (fun v => shore col v = 1) nlist))).
Proof.
  revert a b acc.
  induction nlist as [|v l IH]; intros a b acc Hnd Hcol.
  - exists acc. split; [done|]. split; [done|]. split; [|done].
    intros x Hx. by apply elem_of_nil in Hx.
  - apply NoDup_cons in Hnd as [Hv Hnd].
    assert (forall x, x ∈ l -> col !! x = Some 0 \/ col !! x = Some 1) as Hcol'
      by (intros x Hx; apply Hcol; by right).
    cbn [assign_indices]. unfold py_item.
    destruct (Hcol v) as [Hc|Hc]; [left|..]; rewrite Hc;
      cbn [mbind result_bind].
    + change (py_get [a; b] (1 - 0)) with (Ok b).
      change (py_incr [a; b] (1 - 0)) with (Ok [a; b + 1]).
      cbn [mbind result_bind].
      destruct (IH a (b + 1) (<[v := (0, 0, 1 - 0, b)]> acc) Hnd Hcol')
        as (idx & Hidx & Hframe & Hform & H0 & H1).
      assert (idx !! v = Some (0, 0, 1, b)) as Hiv
        by (by rewrite Hframe, lookup_insert_eq).
      assert (shore col v = 1) as Hs by (unfold shore; by rewrite Hc).
      exists idx. split; [done|]. split; [|split; [|split]].
      * intros x Hx. rewrite Hframe by (intros ?; apply Hx; by right).
        rewrite lookup_insert_ne; [done|]. intros ->. apply Hx. left.
      * intros x [->|Hx]%elem_of_cons; [|by apply Hform].
        exists b. by rewrite Hs.
      * rewrite filter_cons_False by lia. done.
      * rewrite filter_cons_True by done. cbn [length].
        rewrite seqZ_succ_length. cbn [fmap list_fmap]. by rewrite Hiv, <- H1.
    + change (py_get [a; b] (1 - 1)) with (Ok a).
      change (py_incr [a; b] (1 - 1)) with (Ok [a + 1; b]).
      cbn [mbind result_bind].
      destruct (IH (a + 1) b (<[v := (0, 0, 1 - 1, a)]> acc) Hnd Hcol')
        as (idx & Hidx & Hframe & Hform & H0 & H1).
      assert (idx !! v = Some (0, 0, 0, a)) as Hiv
        by (by rewrite Hframe, lookup_insert_eq).
      assert (shore col v = 0) as Hs by (unfold shore; by rewrite Hc).
      exists idx. split; [done|]. split; [|split; [|split]].
      * intros x Hx. rewrite Hframe by (intros ?; apply Hx; by right).
        rewrite lookup_insert_ne; [done|]. intros ->. apply Hx. left.
      * intros x [->|Hx]%elem_of_cons; [|by apply Hform].
        exists a. by rewrite Hs.
      * rewrite filter_cons_True by done. cbn [length].
        rewrite seqZ_succ_length. cbn [fmap list_fmap]. by rewrite Hiv, <- H0.
      * rewrite filter_cons_False by lia. done.
Qed.

Lemma max_degree_unique (G : Graph) (d d' : Z) :
  max_degree G d -> max_degree G d' -> d = d'.
Proof.
  intros [(v & Hv & <-) Hub] [(v' & Hv' & <-) Hub'].
  specialize (Hub v' Hv'). specialize (Hub' v Hv). lia.
Qed.

Lemma lowest_unique (G : Graph) (v v' : Z) : lowest G v -> lowest G v' -> v = v'.
Proof. intros [Hv Hle] [Hv' Hle']. specialize (Hle v' Hv'). specialize (Hle' v Hv). lia. Qed.

Lemma shore_proper (G : Graph) (col : gmap Z Z) (v : Z) :
  proper_coloring G col -> shore col v = 0 \/ shore col v = 1.
Proof.
  intros (_ & Hval & _). unfold shore.
  destruct (col !! v) as [c|] eqn:E; simpl; [|by right].
  destruct (Hval v c E); lia.
Qed.

(** The indices of a single tile.  On a bipartite graph with at least
    one node whose larger colour class (in the colouring the inference
    computes, under the order of the dictionaries at hand) has the
    size of the greatest degree, the inference
    returns an index (0, 0, u, k) for every node, [u] being the
    complement of the colour of the node; the indices [k] of the nodes
    of each shore, taken in the order of the nodes, are 0, 1, ..., one
    less than the size of the shore; the lowest node has the colour 1,
    hence the shore 0, and the index (0, 0, 0, 0). *)
Lemma single_tile_indices (o : dict_order) (G : Graph) :
  wf_graph G -> iterates o G -> node G ≠ ∅ -> bipartite G ->
  (forall col, chimera_coloring o G = Some (Ok col) ->
     max_degree G (larger_class col)) ->
  exists col idx v0,
    chimera_coloring o G = Some (Ok col) /\ proper_coloring G col /\
    _find_chimera_indices o G = Some (Ok idx) /\
    dom idx = dom (node G) /\
    (forall v, v ∈ dom (node G) ->
       (shore col v = 0 \/ shore col v = 1) /\
       exists k, idx !! v = Some (0, 0, shore col v, k)) /\
    (forall u, u = 0 \/ u = 1 ->
       let members := filter (fun v => shore col v = u) (sorted_nodes G) in
       NoDup members /\
       (fun v => idx !! v) <$> members
       = (fun k => Some (0, 0, u, k)) <$> seqZ 0 (Z.of_nat (length members))) /\
    lowest G v0 /\ col !! v0 = Some 1 /\ idx !! v0 = Some (0, 0, 0, 0).
Proof.
  intros Hwf Ho Hne Hbip Hsize.
  destruct (find_chimera_indices_bipartite o G Hwf Ho Hne Hbip)
    as (col & v0 & delta & Hcol & Hproper & Hlow & Hv0 & Hmax & Hfind).
  rewrite (max_degree_unique G _ _ (Hsize col Hcol) Hmax), Z.eqb_refl in Hfind.
  destruct (assign_indices_spec col (sorted_nodes G) 0 0 ∅
              (NoDup_sorted_nodes G))
    as (idx & Hidx & Hframe & Hform & H0 & H1).
  { intros v Hv%elem_of_sorted_nodes. destruct Hproper as (Hdom & Hval & _).
    rewrite <- Hdom in Hv. apply elem_of_dom in Hv as [c Hc].
    rewrite Hc. destruct (Hval v c Hc) as [-> | ->]; [by left|by right]. }
  rewrite Hidx in Hfind. exists col, idx, v0. do 3 (split; [done|]).
  split; [|split; [|split; [|split; [done|split; [done|]]]]].
  - apply set_eq. intros v. split.
    + intros [i Hv]%elem_of_dom. apply elem_of_sorted_nodes.
      destruct (decide (v ∈ sorted_nodes G)) as [|Hnin]; [done|].
      by rewrite (Hframe v Hnin), lookup_empty in Hv.
    + intros Hv%elem_of_sorted_nodes. apply elem_of_dom.
      destruct (Hform v Hv) as [k Hk]. by eexists.
  - intros v Hv%elem_of_sorted_nodes. split; [by eapply shore_proper|].
    by apply Hform.
  - intros u [-> | ->] members; (split; [apply NoDup_filter, NoDup_sorted_nodes|]);
      done.
  - destruct (sorted_nodes_head G Hne) as (v0' & rest & Hhead & Hlow').
    rewrite (lowest_unique G v0' v0 Hlow' Hlow) in Hhead.
    assert (shore col v0 = 0) as Hs by (unfold shore; by rewrite Hv0).
    rewrite Hhead, filter_cons_True in H0 by done.
    cbn [length] in H0. rewrite seqZ_succ_length in H0.
    by injection H0 as -> _.
Qed.

(** *** Connectivity and [diameter] *)

Lemma ball_S (G : Graph) (v : Z) (k : nat) :
  ball G v (S k) = expand G (ball G v k).
Proof. done. Qed.

Lemma elem_of_expand (G : Graph) (S : gset Z) (x : Z) :
  x ∈ expand G S <-> x ∈ S \/ exists w, w ∈ S /\ edge G w x.
Proof.
  unfold expand. rewrite elem_of_union, elem_of_union_list. split.
  - intros [?|(X & HX & Hx)]; [by left|right].
    apply list_elem_of_fmap in HX as (w & -> & Hw%elem_of_elements). by exists w.
  - intros [?|(w & Hw & Hx)]; [by left|right].
    exists (default ∅ (adj G !! w)). split; [|done].
    apply list_elem_of_fmap. exists w. split; [done|by apply elem_of_elements].
Qed.

Lemma ball_reach (G : Graph) (v x : Z) (k : nat) :
  x ∈ ball G v k -> rtc (edge G) v x.
Proof.
  revert x. induction k as [|k IH]; intros x.
  - cbn [ball]. intros ->%elem_of_singleton. done.
  - rewrite ball_S, elem_of_expand. intros [Hx|(w & Hw & Hwx)]; [by apply IH|].
    eapply rtc_r; [by apply IH|done].
Qed.

Lemma ball_sub_dom (G : Graph) (v : Z) (k : nat) :
  wf_graph G -> v ∈ dom (node G) -> ball G v k ⊆ dom (node G).
Proof.
  intros Hwf Hv. induction k as [|k IH].
  - cbn [ball]. by intros x ->%elem_of_singleton.
  - intros x. rewrite ball_S, elem_of_expand. intros [Hx|(w & Hw & Hwx)]; [by apply IH|].
    by eapply edge_node.
Qed.

Lemma ball_stable (G : Graph) (v : Z) (j k : nat) :
  ball G v (S j) = ball G v j -> (j <= k)%nat -> ball G v k = ball G v j.
Proof.
  intros Hj Hle. induction Hle as [|k Hle IH]; [done|].
  by rewrite ball_S, IH, <- ball_S.
Qed.

Lemma ball_closed (G : Graph) (v x : Z) (j : nat) :
  ball G v (S j) = ball G v j -> rtc (edge G) v x -> x ∈ ball G v j.
Proof.
  intros Hj Hvx. apply rtc_nsteps in Hvx as [n Hn].
  assert (x ∈ ball G v n) as Hx.
  { clear Hj. revert x Hn. induction n as [|n IH]; intros x Hn.
    - inversion Hn; subst. cbn [ball]. by apply elem_of_singleton.
    - apply nsteps_inv_r in Hn as (w & Hw & Hwx).
      rewrite ball_S. apply elem_of_expand. right. exists w. split; [by apply IH|done]. }
  destruct (decide (j <= n)%nat) as [Hle|Hgt].
  - by rewrite <- (ball_stable G v j n Hj Hle).
  - assert (forall a b, (a <= b)%nat -> ball G v a ⊆ ball G v b) as Hmono.
    { intros a b Hab. induction Hab as [|b Hab IH]; [done|].
      etrans; [exact IH|]. intros y Hy. rewrite ball_S. apply elem_of_expand. by left. }
    eapply (Hmono n j); [lia|done].
Qed.

(** Within as many steps as there are nodes the balls stop growing. *)
Lemma ball_grows (G : Graph) (v : Z) (k : nat) :
  (exists j, (j <= k)%nat /\ ball G v (S j) = ball G v j)
  \/ (k + 1 <= size (ball G v k))%nat.
Proof.
  induction k as [|k [(j & Hj & Hst)|Hsz]].
  - right. cbn [ball]. by rewrite size_singleton.
  - left. exists j. split; [lia|done].
  - destruct (decide (ball G v (S k) = ball G v k)) as [Hst|Hne].
    + left. exists k. split; [lia|done].
    + right. assert (ball G v k ⊂ ball G v (S k)) as Hsub.
      { split.
        - intros y Hy. rewrite ball_S. apply elem_of_expand. by left.
        - intros Hsup. apply Hne. apply set_eq. intros y. split; [apply Hsup|].
          intros Hy. rewrite ball_S. apply elem_of_expand. by left. }
      apply subset_size in Hsub. lia.
Qed.

Lemma ball_all (G : Graph) (v : Z) :
  wf_graph G -> v ∈ dom (node G) ->
  ball G v (size (node G)) = dom (node G)
  <-> forall w, w ∈ dom (node G) -> rtc (edge G) v w.
Proof.
  intros Hwf Hv. split.
  - intros Hall w Hw. rewrite <- Hall in Hw. by eapply ball_reach.
  - intros Hreach. apply set_eq. intros w. split; [by apply ball_sub_dom|].
    intros Hw. destruct (ball_grows G v (size (node G))) as [(j & Hj & Hst)|Hsz].
    + rewrite (ball_stable G v j _ Hst Hj). by apply ball_closed, Hreach.
    + pose proof (subseteq_size _ _ (ball_sub_dom G v (size (node G)) Hwf Hv)) as Hle.
      rewrite size_dom in Hle. lia.
Qed.

Lemma diameter_connected (G : Graph) :
  wf_graph G -> node G ≠ ∅ -> connected G -> exists d, diameter G = Ok d.
Proof.
  intros Hwf Hne Hconn. unfold diameter.
  assert (forallb (fun v => bool_decide (ball G v (size (node G)) = dom (node G)))
            (nodes G) = true) as ->.
  { apply forallb_forall. intros v Hv%list_elem_of_In%elem_of_nodes.
    apply bool_decide_eq_true, ball_all; [done..|]. intros w Hw. by apply Hconn. }
  destruct (py_max_spec (eccentricity G <$> nodes G)) as (d & Hd & _);
    [|by exists d].
  destruct (map_choose (node G) Hne) as (v & dat & Hv).
  assert (v ∈ nodes G) as Hvn by (apply elem_of_nodes, elem_of_dom; by eexists).
  intros E. apply (f_equal length) in E. rewrite length_fmap in E.
  destruct (nodes G); [by apply elem_of_nil in Hvn|done].
Qed.

Lemma diameter_disconnected (G : Graph) :
  wf_graph G -> ~ connected G ->
  diameter G = Raise (NetworkXError msg_not_connected).
Proof.
  intros Hwf Hnc. unfold diameter.
  destruct (forallb _ (nodes G)) eqn:E; [|done].
  exfalso. apply Hnc. intros v w Hv Hw.
  rewrite forallb_forall in E.
  specialize (E v (proj1 (list_elem_of_In _ _) (proj2 (elem_of_nodes G v) Hv))).
  apply bool_decide_eq_true in E. by apply (ball_all G v Hwf Hv).
Qed.

(** A graph with a closed walk of odd length is not bipartite. *)
Lemma walk_coloring (G : Graph) (c : Z -> Z) (n : nat) (v w : Z) :
  two_coloring G c -> nsteps (edge G) n v w ->
  c w = if Nat.even n then c v else 1 - c v.
Proof.
  intros [Hval Hedge] Hsteps.
  induction Hsteps as [v|n v x w Hvx Hsteps IH]; [done|].
  rewrite IH, (Hedge v x Hvx), Nat.even_succ, <- Nat.negb_even.
  destruct (Nat.even n); simpl; lia.
Qed.

Lemma odd_cycle_not_bipartite (G : Graph) (n : nat) (v : Z) :
  nsteps (edge G) n v v -> Nat.odd n = true -> ~ bipartite G.
Proof.
  intros Hsteps Hodd [c Hc].
  pose proof (walk_coloring G c n v v Hc Hsteps) as E.
  rewrite <- Nat.negb_odd, Hodd in E. simpl in E. lia.
Qed.

(** C7, amended. On a networkx graph, whatever the order of its
    dictionaries, the inference fails with the error "Graph is not
    bipartite." when the graph is not bipartite (as is every graph
    with an odd cycle, [odd_cycle_not_bipartite]).  On a bipartite
    graph with at least one node whose larger colour class (in the
    colouring the inference computes under that order) differs in size
    from the greatest degree it fails with [NotImplementedError] when
    the graph is connected, and with the error of [diameter], "Graph
    not connected", when it is not.  No index is assigned in any of
    these cases. *)
Theorem find_errors (o : dict_order) (G : Graph) :
  wf_graph G -> iterates o G ->
  (~ bipartite G ->
   _find_chimera_indices o G
   = Some (Raise (NetworkXError msg_not_bipartite))) /\
  (bipartite G -> node G ≠ ∅ ->
   forall col delta,
     chimera_coloring o G = Some (Ok col) -> max_degree G delta ->
     larger_class col <> delta ->
     (connected G ->
      _find_chimera_indices o G = Some (Raise NotImplementedError)) /\
     (~ connected G ->
      _find_chimera_indices o G
      = Some (Raise (NetworkXError msg_not_connected)))).
Proof.
  intros Hwf Ho. split.
  - intros Hnbip. unfold _find_chimera_indices, chimera_coloring.
    destruct (color_correct o G Hwf Ho) as [[Hbip _]|[_ ->]]; done.
  - intros Hbip Hne col delta Hcol Hmax Hdiff.
    destruct (find_chimera_indices_bipartite o G Hwf Ho Hne Hbip)
      as (col' & v0 & delta' & Hcol' & _ & _ & _ & Hmax' & ->).
    assert (col' = col) as -> by congruence.
    rewrite (max_degree_unique G delta' delta Hmax' Hmax).
    assert ((larger_class col =? delta) = false) as -> by (by apply Z.eqb_neq).
    split.
    + intros Hconn. by destruct (diameter_connected G Hwf Hne Hconn) as [d ->].
    + intros Hnconn. by rewrite (diameter_disconnected G Hwf Hnconn).
Qed.

(** *** The example graphs *)

(** A graph is connected when [diameter] finds every node from every
    node. *)
Lemma connected_compute (G : Graph) :
  wf_graph G ->
  forallb (fun v => bool_decide (ball G v (size (node G)) = dom (node G)))
    (nodes G) = true ->
  connected G.
Proof.
  intros Hwf E v w Hv Hw. rewrite forallb_forall in E.
  specialize (E v (proj1 (list_elem_of_In _ _) (proj2 (elem_of_nodes G v) Hv))).
  apply bool_decide_eq_true in E. by apply (ball_all G v Hwf Hv).
Qed.

(** The nodes in any order without repetition, with the neighbours
    in the order of the model, are an order of the graph. *)
Lemma iterates_inserted (ns : list Z) (G : Graph) :
  NoDup ns -> (list_to_set ns : gset Z) = dom (node G) ->
  iterates (inserted ns G) G.
Proof.
  intros Hnd Hdom. split; [|done]. cbn [inserted node_order].
  apply NoDup_Permutation; [done|apply NoDup_nodes|].
  intros v. by rewrite elem_of_nodes, <- Hdom, elem_of_list_to_set.
Qed.

Lemma wf_K_2_2 : wf_graph K_2_2.
Proof. apply (bool_decide_unpack _). by vm_compute. Qed.

Lemma wf_two_edges : wf_graph two_edges.
Proof. apply (bool_decide_unpack _). by vm_compute. Qed.

Lemma wf_triangle : wf_graph triangle.
Proof. apply (bool_decide_unpack _). by vm_compute. Qed.

Lemma wf_path_5 : wf_graph path_5.
Proof. apply (bool_decide_unpack _). by vm_compute. Qed.

Lemma wf_star_isolate : wf_graph star_isolate.
Proof. apply (bool_decide_unpack _). by vm_compute. Qed.

Lemma iterates_K_2_2 : iterates (inserted [0; 1; 2; 3] K_2_2) K_2_2.
Proof. apply iterates_inserted; apply (bool_decide_unpack _); by vm_compute. Qed.

Lemma iterates_two_edges : iterates (inserted [0; 1; 2; 3] two_edges) two_edges.
Proof. apply iterates_inserted; apply (bool_decide_unpack _); by vm_compute. Qed.

Lemma iterates_triangle : iterates (inserted [0; 1; 2] triangle) triangle.
Proof. apply iterates_inserted; apply (bool_decide_unpack _); by vm_compute. Qed.

Lemma iterates_path_5 : iterates (inserted [0; 1; 2; 3; 4] path_5) path_5.
Proof. apply iterates_inserted; apply (bool_decide_unpack _); by vm_compute. Qed.

Lemma iterates_star_isolate (ns : list Z) :
  NoDup ns -> (list_to_set ns : gset Z) = dom (node star_isolate) ->
  iterates (inserted ns star_isolate) star_isolate.
Proof. apply iterates_inserted. Qed.

Lemma nonempty_lookup (G : Graph) (v : Z) : is_Some (node G !! v) -> node G ≠ ∅.
Proof. intros [dat Hv] E. by rewrite E, lookup_empty in Hv. Qed.

Lemma nonempty_K_2_2 : node K_2_2 ≠ ∅.
Proof. apply (nonempty_lookup K_2_2 0). eexists. by vm_compute. Qed.

Lemma nonempty_path_5 : node path_5 ≠ ∅.
Proof. apply (nonempty_lookup path_5 0). eexists. by vm_compute. Qed.

Lemma nonempty_two_edges : node two_edges ≠ ∅.
Proof. apply (nonempty_lookup two_edges 0). eexists. by vm_compute. Qed.

Lemma bipartite_color_ok (o : dict_order) (G : Graph) (col : gmap Z Z) :
  wf_graph G -> iterates o G -> color o G = Some (Ok col) ->
  proper_coloring G col /\ bipartite G.
Proof.
  intros Hwf Ho Hcol.
  destruct (color_correct o G Hwf Ho) as [(Hbip & col' & E & Hproper)|[_ E]];
    [|congruence].
  split; [|done]. congruence.
Qed.

Lemma bipartite_K_2_2 : bipartite K_2_2.
Proof.
  eapply (bipartite_color_ok _ K_2_2 _ wf_K_2_2 iterates_K_2_2). by vm_compute.
Qed.

Lemma bipartite_two_edges : bipartite two_edges.
Proof.
  eapply (bipartite_color_ok _ two_edges _ wf_two_edges iterates_two_edges).
  by vm_compute.
Qed.

Lemma bipartite_path_5 : bipartite path_5.
Proof.
  eapply (bipartite_color_ok _ path_5 _ wf_path_5 iterates_path_5).
  by vm_compute.
Qed.

Lemma not_bipartite_triangle : ~ bipartite triangle.
Proof.
  destruct (color_correct _ triangle wf_triangle iterates_triangle)
    as [(_ & col & E & _)|[H _]]; [|done].
  by vm_compute in E.
Qed.

Lemma connected_path_5 : connected path_5.
Proof. apply (connected_compute path_5 wf_path_5). by vm_compute. Qed.

Lemma not_connected_two_edges : ~ connected two_edges.
Proof.
  intros Hconn.
  destruct (diameter_connected two_edges wf_two_edges nonempty_two_edges Hconn)
    as [d Hd].
  by vm_compute in Hd.
Qed.

Lemma max_degree_compute (G : Graph) (d : Z) :
  py_max (degree G <$> nodes G) = Ok d -> max_degree G d.
Proof.
  intros Hd. destruct (decide (node G = ∅)) as [E|Hne].
  - unfold nodes in Hd. by rewrite E, map_to_list_empty in Hd.
  - destruct (py_max_degree G Hne) as (d' & Hd' & Hmax). congruence.
Qed.

Lemma single_tile_K_2_2 (col : gmap Z Z) :
  chimera_coloring (inserted [0; 1; 2; 3] K_2_2) K_2_2 = Some (Ok col) ->
  max_degree K_2_2 (larger_class col).
Proof.
  intros Hcol. vm_compute in Hcol. injection Hcol as <-.
  apply max_degree_compute. by vm_compute.
Qed.

(** What the inference returns on K(2,2). *)
Lemma find_K_2_2 :
  _find_chimera_indices (inserted [0; 1; 2; 3] K_2_2) K_2_2
  = Some (Ok (list_to_map [(0, (0, 0, 0, 0)); (1, (0, 0, 0, 1));
                           (2, (0, 0, 1, 0)); (3, (0, 0, 1, 1))])).
Proof. by vm_compute. Qed.

(** The theorem on the three ways to fail: the triangle is not
    bipartite; the path on five nodes is bipartite and connected, its
    colour classes have 3 and 2 nodes and its greatest degree is 2;
    two disjoint edges are bipartite and not connected, their colour
    classes have 2 nodes each and their greatest degree is 1. *)
Lemma find_errors_witness :
  _find_chimera_indices (inserted [0; 1; 2] triangle) triangle
  = Some (Raise (NetworkXError msg_not_bipartite)) /\
  _find_chimera_indices (inserted [0; 1; 2; 3; 4] path_5) path_5
  = Some (Raise NotImplementedError) /\
  _find_chimera_indices (inserted [0; 1; 2; 3] two_edges) two_edges
  = Some (Raise (NetworkXError msg_not_connected)).
Proof.
  split; [|split].
  - apply (find_errors _ triangle wf_triangle iterates_triangle).
    exact not_bipartite_triangle.
  - eapply (proj2 (find_errors _ path_5 wf_path_5 iterates_path_5)
              bipartite_path_5 nonempty_path_5).
    + by vm_compute.
    + apply max_degree_compute. by vm_compute.
    + by vm_compute.
    + exact connected_path_5.
  - eapply (proj2 (find_errors _ two_edges wf_two_edges iterates_two_edges)
              bipartite_two_edges nonempty_two_edges).
    + by vm_compute.
    + apply max_degree_compute. by vm_compute.
    + by vm_compute.
    + exact not_connected_two_edges.
Defined.

(** C7 as stated fails on two disjoint edges with the nodes inserted
    in the order 0, 1, 2, 3: the graph is bipartite, its colour
    classes have two nodes each, its greatest degree is 1, and the
    inference fails with the error of [diameter] on a graph that is
    not connected, not with [NotImplementedError]. *)
Lemma find_two_edges :
  wf_graph two_edges /\ bipartite two_edges /\
  iterates (inserted [0; 1; 2; 3] two_edges) two_edges /\
  (exists col,
     chimera_coloring (inserted [0; 1; 2; 3] two_edges) two_edges
     = Some (Ok col) /\
     larger_class col = 2) /\
  max_degree two_edges 1 /\
  _find_chimera_indices (inserted [0; 1; 2; 3] two_edges) two_edges
  = Some (Raise (NetworkXError msg_not_connected)).
Proof.
  split; [exact wf_two_edges|]. split; [exact bipartite_two_edges|].
  split; [exact iterates_two_edges|]. split; [|split].
  - eexists. split; by vm_compute.
  - apply max_degree_compute. by vm_compute.
  - by vm_compute.
Qed.

(** *** Graphs given by their edges *)

Lemma lookup_list_to_map_fun {V : Type} (f : Z -> V) (ns : list Z) (v : Z) :
  (list_to_map ((fun v => (v, f v)) <$> ns) : gmap Z V) !! v
  = if decide (v ∈ ns) then Some (f v) else None.
Proof.
  induction ns as [|n ns IH]; cbn [fmap list_fmap list_to_map foldr].
  - rewrite lookup_empty. by rewrite decide_False by apply not_elem_of_nil.
  - destruct (decide (n = v)) as [->|Hne].
    + rewrite lookup_insert_eq. rewrite decide_True; [done|left].
    + rewrite lookup_insert_ne by done. rewrite IH.
      destruct (decide (v ∈ ns)) as [Hin|Hnin].
      * rewrite decide_True; [done|by right].
      * rewrite decide_False; [done|]. by intros [?|?]%elem_of_cons.
Qed.

Lemma node_graph_of_edges (ns : list Z) (es : list (Z * Z)) (v : Z) :
  v ∈ dom (node (graph_of_edges ns es)) <-> v ∈ ns.
Proof.
  rewrite elem_of_dom. unfold graph_of_edges. cbn [node].
  rewrite (lookup_list_to_map_fun (fun _ => ∅)).
  case_decide; split; try done; try (by intros [? ?]); by eexists.
Qed.

Lemma edge_graph_of_edges (ns : list Z) (es : list (Z * Z)) (v w : Z) :
  edge (graph_of_edges ns es) v w
  <-> v ∈ ns /\ ((v, w) ∈ es \/ (w, v) ∈ es).
Proof.
  unfold edge, graph_of_edges. cbn [adj].
  rewrite (lookup_list_to_map_fun
             (fun v => list_to_set
                         ((snd <$> filter (fun e => e.1 = v) es)
                            ++ (fst <$> filter (fun e => e.2 = v) es)))).
  destruct (decide (v ∈ ns)) as [Hv|Hv]; cbn [default from_option id].
  - rewrite elem_of_list_to_set, elem_of_app, !list_elem_of_fmap. split.
    + intros [([a b] & -> & [Ha Hin]%list_elem_of_filter)
             |([a b] & -> & [Hb Hin]%list_elem_of_filter)];
        simpl in *; subst; (split; [done|]); ((by left) || (by right)).
    + intros [_ [Hin|Hin]]; [left; exists (v, w)|right; exists (w, v)];
        (split; [done|]); by apply list_elem_of_filter.
  - split; [set_solver|]. by intros [? _].
Qed.

Lemma wf_graph_of_edges (ns : list Z) (es : list (Z * Z)) :
  (forall e, e ∈ es -> e.1 ∈ ns /\ e.2 ∈ ns) ->
  wf_graph (graph_of_edges ns es).
Proof.
  intros Hes. split.
  - apply set_eq. intros v. rewrite node_graph_of_edges.
    rewrite elem_of_dom. unfold graph_of_edges. cbn [adj].
    rewrite (lookup_list_to_map_fun
               (fun v => list_to_set
                           ((snd <$> filter (fun e => e.1 = v) es)
                              ++ (fst <$> filter (fun e => e.2 = v) es)))).
    case_decide; split; try done; try (by intros [? ?]); by eexists.
  - intros v ws Hv w Hw.
    assert (edge (graph_of_edges ns es) v w) as Hvw
      by (apply edge_adj; by exists ws).
    apply edge_graph_of_edges in Hvw as [Hvn Hvw].
    apply edge_graph_of_edges. split; [|tauto].
    destruct Hvw as [Hin|Hin]; apply Hes in Hin; tauto.
Qed.

(** *** The complete bipartite graph K(T,T) *)

Lemma K_2_2_complete : K_2_2 = complete_bipartite 2.
Proof. reflexivity. Qed.

Lemma node_complete_bipartite (T v : Z) :
  v ∈ dom (node (complete_bipartite T)) <-> 0 <= v < 2 * T.
Proof.
  unfold complete_bipartite. rewrite node_graph_of_edges, elem_of_seqZ. lia.
Qed.

Lemma edge_complete_bipartite (T v w : Z) :
  edge (complete_bipartite T) v w
  <-> (0 <= v < T /\ T <= w < 2 * T) \/ (T <= v < 2 * T /\ 0 <= w < T).
Proof.
  unfold complete_bipartite.
  rewrite edge_graph_of_edges, !list_elem_of_cprod, !elem_of_seqZ. simpl. lia.
Qed.

Lemma wf_complete_bipartite (T : Z) : wf_graph (complete_bipartite T).
Proof.
  apply wf_graph_of_edges. intros [l r].
  rewrite list_elem_of_cprod, !elem_of_seqZ. simpl. lia.
Qed.

Lemma bipartite_complete_bipartite (T : Z) : bipartite (complete_bipartite T).
Proof.
  exists (fun v => if v <? T then 1 else 0). split.
  - intros v. destruct (v <? T); lia.
  - intros v w Hvw%edge_complete_bipartite.
    destruct (v <? T) eqn:Ev, (w <? T) eqn:Ew; lia.
Qed.

Lemma nonempty_complete_bipartite (T : Z) :
  1 <= T -> node (complete_bipartite T) ≠ ∅.
Proof.
  intros HT. apply (nonempty_lookup _ 0), elem_of_dom, node_complete_bipartite. lia.
Qed.

Lemma lowest_complete_bipartite (T : Z) :
  1 <= T -> lowest (complete_bipartite T) 0.
Proof.
  intros HT. split.
  - apply node_complete_bipartite. lia.
  - intros v Hv%node_complete_bipartite. lia.
Qed.

Lemma degree_complete_bipartite (T v : Z) :
  1 <= T -> 0 <= v < 2 * T -> degree (complete_bipartite T) v = T.
Proof.
  intros HT Hv. unfold degree.
  assert (neighbors (complete_bipartite T) v
          ≡ₚ seqZ (if v <? T then T else 0) T) as Hperm.
  { apply NoDup_Permutation.
    - apply NoDup_elements.
    - apply NoDup_seqZ.
    - intros w. rewrite elem_of_neighbors, edge_complete_bipartite, elem_of_seqZ.
      destruct (v <? T) eqn:E; lia. }
  rewrite bool_decide_eq_false_2.
  - rewrite Hperm, length_seqZ. lia.
  - rewrite elem_of_neighbors, edge_complete_bipartite. lia.
Qed.

Lemma max_degree_complete_bipartite (T : Z) :
  1 <= T -> max_degree (complete_bipartite T) T.
Proof.
  intros HT. split.
  - exists 0. split; [apply node_complete_bipartite; lia|].
    apply degree_complete_bipartite; lia.
  - intros v Hv%node_complete_bipartite.
    rewrite degree_complete_bipartite; lia.
Qed.

(** A proper colouring of K(T,T) gives one colour to each shore. *)
Lemma sides_complete_bipartite (T : Z) (col : gmap Z Z) (a : Z) :
  1 <= T -> proper_coloring (complete_bipartite T) col -> col !! 0 = Some a ->
  forall v, col !! v = if bool_decide (0 <= v < T) then Some a
                       else if bool_decide (T <= v < 2 * T) then Some (1 - a)
                       else None.
Proof.
  intros HT (Hdom & Hval & Hedge) H0 v.
  assert (forall r, T <= r < 2 * T -> col !! r = Some (1 - a)) as Hright.
  { intros r Hr. destruct (Hedge 0 r) as (c & Hc & Hcr).
    - apply edge_complete_bipartite. lia.
    - congruence. }
  assert (forall l, 0 <= l < T -> col !! l = Some a) as Hleft.
  { intros l Hl. destruct (Hedge T l) as (c & Hc & Hcl).
    - apply edge_complete_bipartite. lia.
    - rewrite Hright in Hc by lia. injection Hc as <-. rewrite Hcl. f_equal. lia. }
  case_bool_decide; [by apply Hleft|]. case_bool_decide; [by apply Hright|].
  apply not_elem_of_dom. rewrite Hdom, node_complete_bipartite. lia.
Qed.

Lemma class_size_keys (col : gmap Z Z) (c : Z) (keys : list Z) :
  NoDup keys -> (forall v, v ∈ keys <-> col !! v = Some c) ->
  class_size col c = Z.of_nat (length keys).
Proof.
  intros Hnd Hkeys. unfold class_size. f_equal.
  rewrite <- (length_fmap fst). apply Permutation_length, NoDup_Permutation.
  - eapply sublist_NoDup; [apply (NoDup_fst_map_to_list col)|].
    apply fmap_sublist, sublist_filter.
  - done.
  - intros v. rewrite Hkeys, list_elem_of_fmap. split.
    + intros ([v' c'] & -> & [Hc Hin%elem_of_map_to_list]%list_elem_of_filter).
      simpl in *. by subst.
    + intros Hv. exists (v, c). split; [done|].
      apply list_elem_of_filter. split; [done|]. by apply elem_of_map_to_list.
Qed.

Lemma larger_class_complete_bipartite (T : Z) (col : gmap Z Z) :
  1 <= T -> proper_coloring (complete_bipartite T) col -> larger_class col = T.
Proof.
  intros HT Hproper.
  assert (is_Some (col !! 0)) as [a Ha].
  { apply elem_of_dom. rewrite (proj1 Hproper). apply node_complete_bipartite. lia. }
  pose proof (sides_complete_bipartite T col a HT Hproper Ha) as Hsides.
  assert (a = 0 \/ a = 1) as Hcases by (by eapply (proj1 (proj2 Hproper))).
  assert (class_size col a = T) as Hca.
  { rewrite (class_size_keys col a (seqZ 0 T)).
    - rewrite length_seqZ. lia.
    - apply NoDup_seqZ.
    - intros v. rewrite elem_of_seqZ, Hsides.
      repeat case_bool_decide; split; try done; try lia; intros [= ?]; lia. }
  assert (class_size col (1 - a) = T) as Hcb.
  { rewrite (class_size_keys col (1 - a) (seqZ T T)).
    - rewrite length_seqZ. lia.
    - apply NoDup_seqZ.
    - intros v. rewrite elem_of_seqZ, Hsides.
      repeat case_bool_decide; split; try done; try lia; intros [= ?]; lia. }
  unfold larger_class.
  destruct Hcases as [-> | ->];
    [change (1 - 0) with 1 in Hcb|change (1 - 1) with 0 in Hcb]; lia.
Qed.

Lemma StronglySorted_seqZ (m n : Z) : StronglySorted Z.le (seqZ m n).
Proof.
  destruct (decide (n <= 0)) as [Hn|Hn]; [rewrite seqZ_nil by done; constructor|].
  replace n with (Z.of_nat (Z.to_nat n)) by lia.
  generalize (Z.to_nat n) as k. clear. intros k. revert m.
  induction k as [|k IH]; intros m; [constructor|].
  rewrite seqZ_succ_length. constructor; [apply IH|].
  apply Forall_forall. intros x Hx%elem_of_seqZ. lia.
Qed.

Lemma sorted_nodes_complete_bipartite (T : Z) :
  0 <= T -> sorted_nodes (complete_bipartite T) = seqZ 0 T ++ seqZ T T.
Proof.
  intros HT. change (seqZ T T) with (seqZ (0 + T) T).
  rewrite <- (seqZ_app 0 T T) by done.
  apply (StronglySorted_unique Z.le).
  - apply StronglySorted_merge_sort; apply _.
  - apply StronglySorted_seqZ.
  - apply NoDup_Permutation.
    + apply NoDup_sorted_nodes.
    + apply NoDup_seqZ.
    + intros v. rewrite elem_of_sorted_nodes, node_complete_bipartite, elem_of_seqZ. lia.
Qed.

Lemma filter_all {A : Type} (P : A -> Prop) `{forall x, Decision (P x)}
    (l : list A) :
  (forall x, x ∈ l -> P x) -> filter P l = l.
Proof.
  induction l as [|x l IH]; intros Hall; [done|].
  rewrite filter_cons_True by (apply Hall; left).
  rewrite IH; [done|]. intros y Hy. apply Hall. by right.
Qed.

Lemma filter_none {A : Type} (P : A -> Prop) `{forall x, Decision (P x)}
    (l : list A) :
  (forall x, x ∈ l -> ~ P x) -> filter P l = [].
Proof.
  induction l as [|x l IH]; intros Hall; [done|].
  rewrite filter_cons_False by (apply Hall; left).
  apply IH. intros y Hy. apply Hall. by right.
Qed.

Lemma fmap_eq_pointwise {A B : Type} (f g : A -> B) (l : list A) :
  f <$> l = g <$> l -> forall x, x ∈ l -> f x = g x.
Proof.
  induction l as [|y l IH]; intros E x Hx; [by apply elem_of_nil in Hx|].
  injection E as Ey El. apply elem_of_cons in Hx as [->|Hx]; [done|by apply IH].
Qed.

(** On K(T,T), whatever the order of its dictionaries, the inference
    puts the nodes 0 .. T-1 on shore 0 and the nodes T .. 2T-1 on
    shore 1, each with the indices 0 .. T-1. *)
Lemma find_complete_bipartite (o : dict_order) (T : Z) :
  1 <= T -> iterates o (complete_bipartite T) ->
  exists idx,
    _find_chimera_indices o (complete_bipartite T) = Some (Ok idx) /\
    forall v, idx !! v = if bool_decide (0 <= v < T) then Some (0, 0, 0, v)
                         else if bool_decide (T <= v < 2 * T)
                              then Some (0, 0, 1, v - T)
                              else None.
Proof.
  intros HT Ho. set (G := complete_bipartite T) in *.
  assert (forall col, chimera_coloring o G = Some (Ok col) ->
                      max_degree G (larger_class col)) as Hsize.
  { intros col Hcol.
    destruct (chimera_coloring_correct o G (wf_complete_bipartite T) Ho
                (nonempty_complete_bipartite T HT))
      as [(_ & col' & _ & Hcol' & Hproper & _)|[Hnb _]];
      [|destruct Hnb; apply bipartite_complete_bipartite].
    assert (col' = col) as -> by congruence.
    rewrite (larger_class_complete_bipartite T col HT Hproper).
    by apply max_degree_complete_bipartite. }
  destruct (single_tile_indices o G (wf_complete_bipartite T) Ho
              (nonempty_complete_bipartite T HT)
              (bipartite_complete_bipartite T) Hsize)
    as (col & idx & v0 & _ & Hproper & Hfind & Hdom & _ & Hshores & Hlow & Hv0 & _).
  rewrite (lowest_unique G v0 0 Hlow (lowest_complete_bipartite T HT)) in Hv0.
  pose proof (sides_complete_bipartite T col 1 HT Hproper Hv0) as Hsides.
  assert (forall v, 0 <= v < T -> shore col v = 0) as Hleft.
  { intros v Hv. unfold shore. rewrite Hsides.
    by rewrite bool_decide_eq_true_2 by done. }
  assert (forall v, T <= v < 2 * T -> shore col v = 1) as Hright.
  { intros v Hv. unfold shore. rewrite Hsides.
    rewrite bool_decide_eq_false_2 by lia.
    by rewrite bool_decide_eq_true_2 by done. }
  exists idx. split; [done|].
  destruct (Hshores 0 (or_introl eq_refl)) as [_ H0].
  destruct (Hshores 1 (or_intror eq_refl)) as [_ H1].
  unfold G in H0, H1. rewrite sorted_nodes_complete_bipartite in H0, H1 by lia.
  rewrite filter_app in H0, H1.
  rewrite (filter_all _ (seqZ 0 T)), (filter_none _ (seqZ T T)), app_nil_r in H0;
    [|intros x Hx%elem_of_seqZ; rewrite Hright by lia; done
     |intros x Hx%elem_of_seqZ; apply Hleft; lia].
  rewrite (filter_none _ (seqZ 0 T)), (filter_all _ (seqZ T T)), app_nil_l in H1;
    [|intros x Hx%elem_of_seqZ; apply Hright; lia
     |intros x Hx%elem_of_seqZ; rewrite Hleft by lia; done].
  rewrite length_seqZ, Z2Nat.id in H0, H1 by lia.
  replace (seqZ T T) with (Z.add T <$> seqZ 0 T) in H1
    by (rewrite fmap_add_seqZ; f_equal; lia).
  rewrite <- list_fmap_compose in H1.
  intros v. case_bool_decide as Hl; [|case_bool_decide as Hr].
  - apply (fmap_eq_pointwise _ _ _ H0), elem_of_seqZ. lia.
  - pose proof (fmap_eq_pointwise _ _ _ H1 (v - T)) as E. simpl in E.
    replace (T + (v - T)) with v in E by lia. apply E, elem_of_seqZ. lia.
  - assert (v ∉ dom idx) as Hv; [|by apply not_elem_of_dom in Hv].
    rewrite Hdom. unfold G. rewrite node_complete_bipartite. lia.
Qed.

(** C6, amended. (1) On a bipartite graph with at least one node,
    for every order in which the dictionaries of the graph yield
    their keys: when the larger colour class of the colouring the
    inference computes under that order has the size of the greatest
    degree, the inference returns an index (0, 0, u, k) for every
    node; the indices [k] of the nodes of each shore, taken in the
    order of the nodes, are 0, 1, ..., one less than the size of the
    shore, without duplicates; the lowest node has the colour 1, which
    is the shore u = 0, and the index (0, 0, 0, 0).  (2) In particular
    on K(T,T), for T >= 1 and every order, the nodes 0 .. T-1 get
    shore 0 and the nodes T .. 2T-1 get shore 1, each with the indices
    0 .. T-1. *)
Theorem find_single_tile :
  (forall (o : dict_order) (G : Graph),
     wf_graph G -> iterates o G -> node G ≠ ∅ -> bipartite G ->
     (forall col, chimera_coloring o G = Some (Ok col) ->
        max_degree G (larger_class col)) ->
     exists col idx v0,
       chimera_coloring o G = Some (Ok col) /\ proper_coloring G col /\
       _find_chimera_indices o G = Some (Ok idx) /\
       dom idx = dom (node G) /\
       (forall v, v ∈ dom (node G) ->
          (shore col v = 0 \/ shore col v = 1) /\
          exists k, idx !! v = Some (0, 0, shore col v, k)) /\
       (forall u, u = 0 \/ u = 1 ->
          let members := filter (fun v => shore col v = u) (sorted_nodes G) in
          NoDup members /\
          (fun v => idx !! v) <$> members
          = (fun k => Some (0, 0, u, k))
              <$> seqZ 0 (Z.of_nat (length members))) /\
       lowest G v0 /\ col !! v0 = Some 1 /\ idx !! v0 = Some (0, 0, 0, 0)) /\
  (forall (o : dict_order) (T : Z),
     1 <= T -> iterates o (complete_bipartite T) ->
     exists idx,
       _find_chimera_indices o (complete_bipartite T) = Some (Ok idx) /\
       forall v, idx !! v = if bool_decide (0 <= v < T) then Some (0, 0, 0, v)
                            else if bool_decide (T <= v < 2 * T)
                                 then Some (0, 0, 1, v - T)
                                 else None).
Proof.
  split.
  - intros o G Hwf Ho Hne Hbip Hsize. by apply single_tile_indices.
  - intros o T HT Ho. by apply find_complete_bipartite.
Qed.

(** The first part on K(2,2) with the nodes inserted in the order
    0, 1, 2, 3: the shores are {0, 1} and {2, 3}. *)
Lemma find_single_tile_witness :
  exists col idx v0,
    chimera_coloring (inserted [0; 1; 2; 3] K_2_2) K_2_2 = Some (Ok col) /\
    proper_coloring K_2_2 col /\
    _find_chimera_indices (inserted [0; 1; 2; 3] K_2_2) K_2_2 = Some (Ok idx) /\
    dom idx = dom (node K_2_2) /\
    (forall v, v ∈ dom (node K_2_2) ->
       (shore col v = 0 \/ shore col v = 1) /\
       exists k, idx !! v = Some (0, 0, shore col v, k)) /\
    (forall u, u = 0 \/ u = 1 ->
       let members := filter (fun v => shore col v = u) (sorted_nodes K_2_2) in
       NoDup members /\
       (fun v => idx !! v) <$> members
       = (fun k => Some (0, 0, u, k)) <$> seqZ 0 (Z.of_nat (length members))) /\
    lowest K_2_2 v0 /\ col !! v0 = Some 1 /\ idx !! v0 = Some (0, 0, 0, 0).
Proof.
  exact (proj1 find_single_tile _ K_2_2 wf_K_2_2 iterates_K_2_2 nonempty_K_2_2
           bipartite_K_2_2 single_tile_K_2_2).
Defined.

(** C6 as stated fails on the star with the centre 1 and the leaves
    2 and 3 together with the node 0 without an edge: the graph is
    bipartite, in its bipartition {0, 1}, {2, 3} the larger class has
    2 nodes, and its greatest degree is 2; with the nodes inserted in
    the order 0, 1, 2, 3 the inference colours the centre 1 and the
    other three nodes 0, finds classes of 3 and 1 nodes, and fails with
    the error of [diameter]; no index is assigned.  (With the nodes
    inserted in the order 2, 3, 1, 0 it computes the bipartition
    above and returns indices.) *)
Lemma find_star_isolate :
  wf_graph star_isolate /\ bipartite star_isolate /\
  max_degree star_isolate 2 /\
  (exists col, proper_coloring star_isolate col /\ larger_class col = 2 /\
     col !! 0 = Some 1 /\ col !! 1 = Some 1 /\
     col !! 2 = Some 0 /\ col !! 3 = Some 0) /\
  iterates (inserted [0; 1; 2; 3] star_isolate) star_isolate /\
  _find_chimera_indices (inserted [0; 1; 2; 3] star_isolate) star_isolate
  = Some (Raise (NetworkXError msg_not_connected)) /\
  iterates (inserted [2; 3; 1; 0] star_isolate) star_isolate /\
  _find_chimera_indices (inserted [2; 3; 1; 0] star_isolate) star_isolate
  = Some (Ok (list_to_map [(0, (0, 0, 0, 0)); (1, (0, 0, 0, 1));
                           (2, (0, 0, 1, 0)); (3, (0, 0, 1, 1))])).
Proof.
  assert (iterates (inserted [2; 3; 1; 0] star_isolate) star_isolate) as Ho
    by (apply iterates_star_isolate; apply (bool_decide_unpack _); by vm_compute).
  destruct (chimera_coloring_correct _ star_isolate wf_star_isolate Ho)
    as [(Hbip & col & v0 & Hcol & Hproper & _)|[_ E]];
    [apply (nonempty_lookup star_isolate 0); eexists; by vm_compute
    | |by vm_compute in E].
  vm_compute in Hcol. injection Hcol as <-.
  split; [exact wf_star_isolate|]. split; [done|].
  split; [apply max_degree_compute; by vm_compute|].
  split; [eexists; split; [exact Hproper|]; repeat split; by vm_compute|].
  split; [apply iterates_star_isolate; apply (bool_decide_unpack _);
          by vm_compute|].
  split; [by vm_compute|]. split; [done|]. by vm_compute.
Qed.

(** On K(2,2) the lowest node 0 gets the colour 1 and the index
    (0, 0, 0, 0), whose shore is 0. *)
Lemma find_lowest_shore_0 :
  wf_graph K_2_2 /\ bipartite K_2_2 /\
  (exists col,
     chimera_coloring (inserted [0; 1; 2; 3] K_2_2) K_2_2 = Some (Ok col) /\
     larger_class col = 2 /\ col !! 0 = Some 1) /\
  max_degree K_2_2 2 /\ lowest K_2_2 0 /\
  exists idx,
    _find_chimera_indices (inserted [0; 1; 2; 3] K_2_2) K_2_2 = Some (Ok idx) /\
    idx !! 0 = Some (0, 0, 0, 0) /\
    idx_u <$> idx !! 0 = Some 0 /\ idx_u <$> idx !! 0 <> Some 1.
Proof.
  split; [exact wf_K_2_2|]. split; [exact bipartite_K_2_2|].
  split; [|split; [|split]].
  - eexists. split; [by vm_compute|]. split; by vm_compute.
  - apply max_degree_compute. by vm_compute.
  - rewrite K_2_2_complete. apply lowest_complete_bipartite. lia.
  - eexists. split; [by vm_compute|]. split; [by vm_compute|].
    split; by vm_compute.
Qed.


(** * Part IV: further properties of the code *)

(** ** The coordinate mapper *)

Section MapperMore.
Context {F : Type} `{Scalar F}.

Lemma xy_coords_finish (P : placer F) (i j u k : Z) (g : cache) :
  exists xy, (_xy_coords P i j u k g).1 = finish P xy.
Proof.
  unfold _xy_coords. destruct ((0 <? i) || (0 <? j)); [|by eexists].
  destruct (g !! (i, j)); by eexists.
Qed.

Lemma finish_lookup (P : placer F) (xy : Z * Z) (n : nat) :
  finish P xy !! n
  = match n with
    | O => fadd (fmul (of_int xy.1) (scale P)) <$> center P !! O
    | S O => fadd (fmul (of_int xy.2) (scale P)) <$> center P !! 1%nat
    | S (S m) =>
        if decide (m < Z.to_nat (paddims P))%nat
        then fadd fzero <$> center P !! n else None
    end.
Proof.
  unfold finish. rewrite lookup_zip_with.
  destruct n as [|[|m]]; simpl.
  - by destruct (center P !! 0%nat).
  - by destruct (center P !! 1%nat).
  - case_decide as Hm.
    + rewrite lookup_replicate_2 by done. simpl. by destruct (center P !! _).
    + rewrite (proj1 (lookup_replicate_None _ _ _)) by lia. done.
Qed.

(** X1. Padding.  In a mapper built for [dim >= 2] every point has
    [dim] coordinates, and each coordinate after the second is
    [0. + center[n]], whatever the index and the state of the cache. *)
Theorem mapper_padding
    (M N T : Z) (s : F) (c : option (list F)) (dim : Z) :
  0 < M -> 0 < N -> 0 < T -> 2 <= dim ->
  (forall l, c = Some l -> Z.of_nat (length l) = dim) ->
  exists P, chimera_node_placer_2d M N T s c dim = Ok P /\
    forall (i j u k : Z) (g : cache),
      let pt := (_xy_coords P i j u k g).1 in
      Z.of_nat (length pt) = dim /\
      forall n, (2 <= n)%nat -> (Z.of_nat n < dim) ->
        pt !! n = Some (fadd fzero
                          (match c with
                           | Some l => default fzero (l !! n)
                           | None => fzero
                           end)).
Proof.
  intros HM HN HT Hdim Hc. eexists. split; [by apply placer_ok|].
  intros i j u k g. cbv zeta.
  destruct (xy_coords_finish (Placer (T / 2) (T + 3)
              (fdiv s (of_int (Z.max M N * (T + 3) - 3)))
              (match c with Some l => l | None => replicate (Z.to_nat dim) fzero end)
              (dim - 2)) i j u k g) as [xy ->].
  split.
  - unfold finish. rewrite length_zip_with, length_app, length_replicate.
    cbn [length center paddims].
    destruct c as [l|]; [rewrite <- (Hc l eq_refl)|rewrite length_replicate]; lia.
  - intros n Hn Hlt. rewrite finish_lookup.
    destruct n as [|[|m]]; [lia..|]. cbn [paddims center].
    rewrite decide_True by lia.
    destruct c as [l|].
    + destruct (l !! S (S m)) as [x|] eqn:E; [done|].
      apply lookup_ge_None in E. specialize (Hc l eq_refl). lia.
    + rewrite lookup_replicate_2 by lia. done.
Qed.

End MapperMore.

(** The theorem for [dim = 3] and the center (5, 6, 7): the third
    coordinate is 0 + 7. *)
Lemma mapper_padding_witness :
  exists P, chimera_node_placer_2d 2 2 2 (1%Q) (Some [5%Q; 6%Q; 7%Q]) 3 = Ok P /\
    forall (i j u k : Z) (g : cache),
      let pt := (_xy_coords P i j u k g).1 in
      Z.of_nat (length pt) = 3 /\
      forall n, (2 <= n)%nat -> (Z.of_nat n < 3) ->
        pt !! n = Some (fadd fzero (default fzero ([5%Q; 6%Q; 7%Q] !! n))).
Proof.
  apply (mapper_padding 2 2 2 (1%Q) (Some [5%Q; 6%Q; 7%Q]) 3); try lia.
  by intros l [= <-].
Defined.

Section CacheFacts.
Context {F : Type} `{Scalar F}.

(** The cache a call leaves. *)
Lemma call_cache (P : placer F) (i j u k : Z) (g : cache) :
  (call P (i, j, u, k) g).2
  = if (0 <? i) || (0 <? j) then
      match g !! (i, j) with
      | Some _ => g
      | None => <[(i, j) := (j * tile_length P, -1 * i * tile_length P)]> g
      end
    else g.
Proof.
  unfold call, _xy_coords. destruct ((0 <? i) || (0 <? j)); [|done].
  by destruct (g !! (i, j)).
Qed.

Lemma cache_after_lookup (P : placer F) (calls : list index) (g : cache)
    (i j : Z) (off : Z * Z) :
  cache_after P calls g !! (i, j) = Some off
  <-> g !! (i, j) = Some off
      \/ (g !! (i, j) = None /\
          off = (j * tile_length P, -1 * i * tile_length P) /\
          (0 < i \/ 0 < j) /\ exists u k, (i, j, u, k) ∈ calls).
Proof.
  revert g. induction calls as [|[[[i' j'] u'] k'] calls IH]; intros g.
  - simpl. split; [by left|]. intros [?|(_ & _ & _ & u & k & Hin)]; [done|].
    by apply elem_of_nil in Hin.
  - change (cache_after P ((i', j', u', k') :: calls) g)
      with (cache_after P calls (call P (i', j', u', k') g).2).
    rewrite IH, call_cache. clear IH.
    assert (forall u k, (i, j, u, k) ∈ (i', j', u', k') :: calls
              <-> (i = i' /\ j = j' /\ u = u' /\ k = k')
                  \/ (i, j, u, k) ∈ calls) as Hcons.
    { intros u k. rewrite elem_of_cons. split; (intros [E|?]; [left|by right]).
      - by injection E.
      - by destruct E as (-> & -> & -> & ->). }
    destruct ((0 <? i') || (0 <? j')) eqn:Eij.
    + destruct (g !! (i', j')) as [off'|] eqn:E'.
      * split.
        -- intros [?|(Hg & Hoff & Hpos & u & k & Hin)]; [by left|right].
           do 3 (split; [done|]). exists u, k. apply Hcons. by right.
        -- intros [?|(Hg & Hoff & Hpos & u & k & Hin)]; [by left|right].
           do 3 (split; [done|]). exists u, k.
           apply Hcons in Hin as [(-> & -> & _)|Hin]; [congruence|done].
      * destruct (decide ((i', j') = (i, j))) as [[= -> ->]|Hne].
        -- rewrite lookup_insert_eq. split.
           ++ intros [[= <-]|(Hg & _)]; [|done]. right.
              split; [done|]. split; [done|]. split; [lia|].
              exists u', k'. apply Hcons. by left.
           ++ intros [?|(_ & -> & _)]; [congruence|by left].
        -- rewrite lookup_insert_ne by done. split.
           ++ intros [?|(Hg & Hoff & Hpos & u & k & Hin)]; [by left|right].
              do 3 (split; [done|]). exists u, k. apply Hcons. by right.
           ++ intros [?|(Hg & Hoff & Hpos & u & k & Hin)]; [by left|right].
              do 3 (split; [done|]). exists u, k.
              apply Hcons in Hin as [(-> & -> & _)|Hin]; [done|done].
    + apply orb_false_iff in Eij as [Ei Ej]. split.
      * intros [?|(Hg & Hoff & Hpos & u & k & Hin)]; [by left|right].
        do 3 (split; [done|]). exists u, k. apply Hcons. by right.
      * intros [?|(Hg & Hoff & Hpos & u & k & Hin)]; [by left|right].
        do 3 (split; [done|]). exists u, k.
        apply Hcons in Hin as [(-> & -> & _)|Hin]; [lia|done].
Qed.

(** X2. The contents of the cache.  After any sequence of calls on a
    fresh mapper, the cache holds an entry for the tile (i, j) exactly
    when a call was made for that tile and [i > 0 or j > 0]; the entry
    is the offset [(j * tile_length, -1 * i * tile_length)].  The tile
    (0, 0), and any tile with no positive coordinate, is never
    stored. *)
Theorem cache_contents (P : placer F) (calls : list index)
    (i j : Z) (off : Z * Z) :
  cache_after P calls ∅ !! (i, j) = Some off
  <-> off = (j * tile_length P, -1 * i * tile_length P) /\
      (0 < i \/ 0 < j) /\ exists u k, (i, j, u, k) ∈ calls.
Proof.
  rewrite cache_after_lookup, lookup_empty. split.
  - by intros [?|(_ & ?)].
  - intros ?. by right.
Qed.

(** X3. The constructor does not check the lattice dimensions.  It
    fails with [ZeroDivisionError] exactly when
    [max(m, n) * (t + 3) = 3], whatever [dim] and [center] are (the
    division comes before their checks); for every other [m], [n], [t],
    positive or not, with [dim >= 2] and a center absent or of length
    [dim], it returns a mapper whose scale is
    [scale / (max(m, n) * (t + 3) - 3)]. *)
Theorem placer_unchecked_sizes
    (m n t : Z) (s : F) (c : option (list F)) (dim : Z) :
  (chimera_node_placer_2d m n t s c dim = Raise ZeroDivisionError
   <-> Z.max m n * (t + 3) = 3) /\
  (Z.max m n * (t + 3) <> 3 -> 2 <= dim ->
   (forall l, c = Some l -> Z.of_nat (length l) = dim) ->
   exists P, chimera_node_placer_2d m n t s c dim = Ok P /\
     scale P = fdiv s (of_int (Z.max m n * (t + 3) - 3)) /\
     tile_center P = t / 2 /\ tile_length P = t + 3).
Proof.
  unfold chimera_node_placer_2d.
  destruct (Z.max m n * (t + 3) - 3 =? 0) eqn:E.
  - apply Z.eqb_eq in E. split; [split; [lia|done]|lia].
  - apply Z.eqb_neq in E. split.
    + split; [|lia]. destruct c as [l|]; simpl.
      * destruct (dim - 2 <? 0); [done|]. by destruct (negb _).
      * unfold np_zeros. destruct (dim <? 0); simpl; [done|].
        destruct (dim - 2 <? 0); [done|]. by destruct (negb _).
    + intros _ Hdim Hc. destruct c as [l|]; simpl.
      * assert ((dim - 2 <? 0) = false) as -> by lia.
        rewrite (Hc l eq_refl), Z.eqb_refl. simpl. by eexists.
      * unfold np_zeros. assert ((dim <? 0) = false) as -> by lia. simpl.
        assert ((dim - 2 <? 0) = false) as -> by lia.
        rewrite length_replicate, Z2Nat.id, Z.eqb_refl by lia. simpl.
        by eexists.
Qed.

(** The point of a call on a cache that holds tile offsets only, for
    any tile: the offset is added when [i > 0 or j > 0]. *)
Lemma call_point (P : placer F) (i j u k : Z) (g : cache) :
  cache_ok P g ->
  (_xy_coords P i j u k g).1
  = finish P
      (let p := if k <? tile_center P then k else k + 1 in
       let xy := if u =? 0 then (p, -1 * tile_center P)
                 else (tile_center P, -1 * p) in
       if (0 <? i) || (0 <? j)
       then add2 xy (j * tile_length P, -1 * i * tile_length P)
       else xy).
Proof.
  intros Hg. unfold _xy_coords. cbv zeta.
  destruct ((0 <? i) || (0 <? j)); [|done].
  destruct (g !! (i, j)) as [off|] eqn:E; [|done].
  by rewrite (Hg _ _ _ E).
Qed.

(** X4. The lines of a tile.  Whatever calls were made before, the
    points of the first shore ([u = 0]) of a tile share their second
    coordinate, and the points of the second shore (any other [u])
    share their first coordinate: the shores of a tile are drawn as a
    horizontal and a vertical line. *)
Theorem shore_lines (P : placer F) (i j k k' : Z) (prior prior' : list index) :
  (_xy_coords P i j 0 k (cache_after P prior ∅)).1 !! 1%nat
  = (_xy_coords P i j 0 k' (cache_after P prior' ∅)).1 !! 1%nat /\
  forall u u', u <> 0 -> u' <> 0 ->
    (_xy_coords P i j u k (cache_after P prior ∅)).1 !! 0%nat
    = (_xy_coords P i j u' k' (cache_after P prior' ∅)).1 !! 0%nat.
Proof.
  assert (forall l, cache_ok P (cache_after P l ∅)) as Hok
    by (intros l; apply cache_ok_after, cache_ok_empty).
  split.
  - rewrite !call_point by done. cbv zeta. unfold finish.
    destruct ((0 <? i) || (0 <? j)); simpl; by destruct (center P) as [|? [|? ?]].
  - intros u u' Hu Hu'. rewrite !call_point by done. cbv zeta.
    apply Z.eqb_neq in Hu, Hu'. rewrite Hu, Hu'. unfold finish.
    destruct ((0 <? i) || (0 <? j)); simpl; by destruct (center P) as [|? [|? ?]].
Qed.

End CacheFacts.

(** The second part on the sizes (0, 0, 0), where the denominator is -3. *)
Lemma placer_unchecked_sizes_witness :
  exists P, chimera_node_placer_2d 0 0 0 (1%Q) None 2 = Ok P /\
    scale P = fdiv (1%Q) (of_int (Z.max 0 0 * (0 + 3) - 3)) /\
    tile_center P = 0 / 2 /\ tile_length P = 0 + 3.
Proof.
  apply (proj2 (placer_unchecked_sizes 0 0 0 (1%Q) None 2)); [lia|lia|done].
Defined.

(** What a mapper that the constructor returned is made of. *)
Lemma placer_built {F : Type} `{Scalar F}
    (m n t : Z) (s : F) (c : option (list F)) (dim : Z) (P : placer F) :
  chimera_node_placer_2d m n t s c dim = Ok P ->
  2 <= dim /\ Z.of_nat (length (center P)) = dim /\ paddims P = dim - 2 /\
  tile_center P = t / 2 /\ tile_length P = t + 3 /\
  scale P = fdiv s (of_int (Z.max m n * (t + 3) - 3)) /\
  Z.max m n * (t + 3) <> 3.
Proof.
  unfold chimera_node_placer_2d.
  destruct (_ =? 0) eqn:E0; [done|]. apply Z.eqb_neq in E0.
  destruct c as [l|]; simpl.
  - destruct (dim - 2 <? 0) eqn:Ed; [done|].
    destruct (Z.of_nat (length l) =? dim) eqn:El; [|done]. simpl.
    intros [= <-]. simpl. repeat split; lia.
  - unfold np_zeros. destruct (dim <? 0) eqn:E1; simpl; [done|].
    destruct (dim - 2 <? 0) eqn:Ed; [done|].
    destruct (Z.of_nat _ =? dim) eqn:El; [|done]. simpl.
    intros [= <-]. simpl. rewrite length_replicate. repeat split; lia.
Qed.

(** ** The geometry of the picture

    The closure computes the integer array [xy] ([_xy_grid]) and
    returns [xy * scale + center], computed with floats.  What follows
    holds of the integer array, hence in every arithmetic; rounding
    can move the returned points by an error of the scaling and the
    addition, and no more. *)

Section GridFacts.
Context {F : Type} `{Scalar F}.

(** A call returns the integer array through the last line. *)
Lemma xy_coords_grid (P : placer F) (i j u k : Z) (g : cache) :
  _xy_coords P i j u k g
  = (finish P (_xy_grid P i j u k g).1, (_xy_grid P i j u k g).2).
Proof.
  unfold _xy_coords, _xy_grid. cbv zeta.
  destruct ((0 <? i) || (0 <? j)); [|done].
  by destruct (g !! (i, j)).
Qed.

(** The integer array of a call on a cache that holds tile offsets
    only. *)
Lemma xy_grid_point (P : placer F) (i j u k : Z) (g : cache) :
  cache_ok P g -> 0 <= i -> 0 <= j ->
  (_xy_grid P i j u k g).1
  = grid_point (tile_center P) (tile_length P) i j u k.
Proof.
  intros Hg Hi Hj. unfold _xy_grid, grid_point.
  set (p := if k <? tile_center P then k else k + 1).
  destruct ((0 <? i) || (0 <? j)) eqn:Eij.
  - destruct (g !! (i, j)) as [off|] eqn:E.
    + rewrite (Hg _ _ _ E). simpl.
      destruct (u =? 0); unfold add2; simpl; f_equal; lia.
    + simpl. destruct (u =? 0); unfold add2; simpl; f_equal; lia.
  - apply orb_false_iff in Eij as [Ei Ej].
    assert (i = 0) as -> by lia. assert (j = 0) as -> by lia.
    simpl. destruct (u =? 0); f_equal; lia.
Qed.

(** The integer array of a call on a mapper that the constructor
    built, whatever calls were made before. *)
Lemma xy_grid_built
    (M N T : Z) (s : F) (c : option (list F)) (dim : Z) (P : placer F)
    (i j u k : Z) (prior : list index) :
  chimera_node_placer_2d M N T s c dim = Ok P -> 0 <= i -> 0 <= j ->
  (_xy_grid P i j u k (cache_after P prior ∅)).1
  = grid_point (T / 2) (T + 3) i j u k.
Proof.
  intros HP Hi Hj.
  rewrite xy_grid_point by (done || apply cache_ok_after, cache_ok_empty).
  revert HP. unfold chimera_node_placer_2d.
  destruct (_ =? 0); [done|].
  destruct (match c with None => np_zeros dim | Some c0 => Ok c0 end)
    as [ctr|e]; cbn [mbind result_bind]; [|done].
  destruct (dim - 2 <? 0); [done|]. destruct (negb _); [done|].
  by intros [= <-].
Qed.

End GridFacts.

(** The grid point of an in-bounds index lies within its tile, off
    the middle of the cross. *)
Lemma grid_point_tile (M N T i j u k : Z) :
  0 < T -> in_bounds M N T (i, j, u, k) ->
  let xy := grid_point (T / 2) (T + 3) i j u k in
  j * (T + 3) <= xy.1 <= j * (T + 3) + T /\
  - (i * (T + 3)) - T <= xy.2 <= - (i * (T + 3)) /\
  xy <> (T / 2 + j * (T + 3), - (T / 2) - i * (T + 3)).
Proof.
  intros HT (Hi & Hj & Hu & Hk).
  pose proof (slot_range T k HT Hk) as (Hp & Hne & Htc & Htc').
  cbv zeta in Hp, Hne. unfold grid_point.
  set (p := if k <? T / 2 then k else k + 1) in *.
  set (tc := T / 2) in *.
  destruct Hu as [-> | ->]; simpl; (split; [lia|split; [lia|]]);
    intros [=]; lia.
Qed.

Section Geometry.
Context {F : Type} `{Scalar F}.

(** X5. The tiles are kept apart.  On a mapper built for a shore
    size [T > 0], whatever calls were made before, the point returned
    for an index is the integer array [xy] of the call put through
    [xy * scale + center], and the arrays of two in-bounds indices of
    different columns are ordered by the column with three grid units
    or more between them along the first axis; those of different rows
    are ordered against the row along the second axis (the y axis is
    inverted), with the same gap. *)
Theorem tiles_apart
    (M N T : Z) (s : F) (c : option (list F)) (dim : Z) (P : placer F)
    (i j u k i' j' u' k' : Z) (prior prior' : list index) :
  0 < T -> chimera_node_placer_2d M N T s c dim = Ok P ->
  in_bounds M N T (i, j, u, k) -> in_bounds M N T (i', j', u', k') ->
  let r := _xy_grid P i j u k (cache_after P prior ∅) in
  let r' := _xy_grid P i' j' u' k' (cache_after P prior' ∅) in
  (_xy_coords P i j u k (cache_after P prior ∅)).1 = finish P r.1 /\
  (_xy_coords P i' j' u' k' (cache_after P prior' ∅)).1 = finish P r'.1 /\
  (j < j' -> r.1.1 + 3 <= r'.1.1) /\
  (i < i' -> r'.1.2 + 3 <= r.1.2).
Proof.
  intros HT HP Hb Hb'. cbv zeta.
  destruct (in_bounds_nonneg _ _ _ _ _ _ _ Hb) as [Hi Hj].
  destruct (in_bounds_nonneg _ _ _ _ _ _ _ Hb') as [Hi' Hj'].
  rewrite !xy_coords_grid. do 2 (split; [done|]).
  rewrite !(xy_grid_built M N T s c dim P) by done.
  pose proof (grid_point_tile M N T i j u k HT Hb) as (Hx & Hy & _).
  pose proof (grid_point_tile M N T i' j' u' k' HT Hb') as (Hx' & Hy' & _).
  cbv zeta in Hx, Hy, Hx', Hy'. split; intros; nia.
Qed.

(** X6. The middle of the cross stays free.  On a mapper built for a
    shore size [T > 0], whatever calls were made before, the integer
    array [xy] of an in-bounds index is never the point where the two
    lines of its tile cross,
    [(tile_center + j * tile_length, -tile_center - i * tile_length)]. *)
Theorem cross_centre_free
    (M N T : Z) (s : F) (c : option (list F)) (dim : Z) (P : placer F)
    (i j u k : Z) (prior : list index) :
  0 < T -> chimera_node_placer_2d M N T s c dim = Ok P ->
  in_bounds M N T (i, j, u, k) ->
  (_xy_grid P i j u k (cache_after P prior ∅)).1
  <> (tile_center P + j * tile_length P, - tile_center P - i * tile_length P).
Proof.
  intros HT HP Hb.
  destruct (in_bounds_nonneg _ _ _ _ _ _ _ Hb) as [Hi Hj].
  rewrite (xy_grid_built M N T s c dim P) by done.
  destruct (placer_built _ _ _ _ _ _ _ HP) as (_ & _ & _ & -> & -> & _).
  by apply (grid_point_tile M N T i j u k HT Hb).
Qed.

(** X7. The square of the lattice.  On a mapper built for positive
    lattice dimensions, with [L = max(M, N) * (T + 3) - 3] the number
    the scale is divided by, the integer array [xy] of an in-bounds
    index has [0 <= x <= L] and [-L <= y <= 0]; [x = L] holds exactly
    at the last slot of the first shore in the last column and only
    when [M <= N], [y = -L] exactly at the last slot of the second
    shore in the last row and only when [N <= M]. *)
Theorem mapper_box
    (M N T : Z) (s : F) (c : option (list F)) (dim : Z) (P : placer F)
    (i j u k : Z) (prior : list index) :
  0 < M -> 0 < N -> 0 < T ->
  chimera_node_placer_2d M N T s c dim = Ok P ->
  in_bounds M N T (i, j, u, k) ->
  let L := Z.max M N * (T + 3) - 3 in
  let xy := (_xy_grid P i j u k (cache_after P prior ∅)).1 in
  scale P = fdiv s (of_int L) /\
  (_xy_coords P i j u k (cache_after P prior ∅)).1 = finish P xy /\
  0 <= xy.1 <= L /\ - L <= xy.2 <= 0 /\
  (xy.1 = L <-> M <= N /\ j = N - 1 /\ u = 0 /\ k = T - 1) /\
  (xy.2 = - L <-> N <= M /\ i = M - 1 /\ u = 1 /\ k = T - 1).
Proof.
  intros HM HN HT HP Hb. cbv zeta.
  destruct (in_bounds_nonneg _ _ _ _ _ _ _ Hb) as [Hi Hj].
  rewrite xy_coords_grid.
  rewrite !(xy_grid_built M N T s c dim P) by done.
  destruct (placer_built _ _ _ _ _ _ _ HP) as (_ & _ & _ & _ & _ & Hs & _).
  do 2 (split; [done|]).
  pose proof (grid_point_range M N T i j u k HT Hb) as (Hx & Hy & Hx1 & Hy1).
  cbv zeta in Hx, Hy, Hx1, Hy1.
  destruct (grid_point (T / 2) (T + 3) i j u k) as [x y]. simpl in *.
  split; [nia|]. split; [nia|]. split; split; intros; nia.
Qed.

End Geometry.

(** The theorem on two neighbouring tiles of a 2 x 2 lattice, in
    binary64. *)
Lemma tiles_apart_witness :
  exists P, chimera_node_placer_2d 2 2 2 (1%float) None 2 = Ok P /\
    let r := _xy_grid P 0 0 0 1 (cache_after P [] ∅) in
    let r' := _xy_grid P 1 1 1 0 (cache_after P [(1, 1, 0, 0)] ∅) in
    (_xy_coords P 0 0 0 1 (cache_after P [] ∅)).1 = finish P r.1 /\
    (_xy_coords P 1 1 1 0 (cache_after P [(1, 1, 0, 0)] ∅)).1
    = finish P r'.1 /\
    (0 < 1 -> r.1.1 + 3 <= r'.1.1) /\
    (0 < 1 -> r'.1.2 + 3 <= r.1.2).
Proof.
  eexists. split; [reflexivity|].
  apply (tiles_apart 2 2 2 (1%float) None 2 _ 0 0 0 1 1 1 1 0 []
           [(1, 1, 0, 0)]); [lia|reflexivity|..]; unfold in_bounds; lia.
Defined.

(** The theorem on an index of a tile of shore size 2, in binary64. *)
Lemma cross_centre_free_witness :
  exists P, chimera_node_placer_2d 1 1 2 (1%float) None 2 = Ok P /\
    (_xy_grid P 0 0 1 1 (cache_after P [] ∅)).1
    <> (tile_center P + 0 * tile_length P,
        - tile_center P - 0 * tile_length P).
Proof.
  eexists. split; [reflexivity|].
  apply (cross_centre_free 1 1 2 (1%float) None 2 _ 0 0 1 1 []);
    [lia|reflexivity|unfold in_bounds; lia].
Defined.

(** The theorem at the far corner of a 2 x 2 lattice, in binary64. *)
Lemma mapper_box_witness :
  exists P, chimera_node_placer_2d 2 2 2 (1%float) None 2 = Ok P /\
    let L := Z.max 2 2 * (2 + 3) - 3 in
    let xy := (_xy_grid P 1 1 0 1 (cache_after P [] ∅)).1 in
    scale P = fdiv (1%float) (of_int L) /\
    (_xy_coords P 1 1 0 1 (cache_after P [] ∅)).1 = finish P xy /\
    0 <= xy.1 <= L /\ - L <= xy.2 <= 0 /\
    (xy.1 = L <-> 2 <= 2 /\ 1 = 2 - 1 /\ 0 = 0 /\ 1 = 2 - 1) /\
    (xy.2 = - L <-> 2 <= 2 /\ 1 = 2 - 1 /\ 0 = 1 /\ 1 = 2 - 1).
Proof.
  eexists. split; [reflexivity|].
  apply (mapper_box 2 2 2 (1%float) None 2 _ 1 1 0 1 []);
    [lia|lia|lia|reflexivity|unfold in_bounds; lia].
Defined.

(** ** The layout, continued *)

(** One pass of [add_nodes_from]: which nodes are there afterwards,
    and where an index comes from. *)
Lemma add_node_lookup (G0 : Graph) (n : node_item) (v : Z) :
  (is_Some (node (add_node G0 n) !! v)
   <-> is_Some (node G0 !! v) \/ n = Bare v \/ exists dat, n = WithData v dat) /\
  (forall d idx,
     node (add_node G0 n) !! v = Some d ->
     d !! "chimera_index" = Some idx ->
     (exists d0, node G0 !! v = Some d0 /\ d0 !! "chimera_index" = Some idx)
     \/ exists dat, n = WithData v dat /\ dat !! "chimera_index" = Some idx).
Proof.
  destruct n as [x|x dat]; cbn [add_node].
  - destruct (decide (is_Some (node G0 !! x))) as [Hx|Hx].
    + split.
      * split; [by left|]. intros [?|[[= ->]|(dat & [=])]]; done.
      * intros d idx Hd Hidx. left. by exists d.
    + cbn [node]. destruct (decide (x = v)) as [->|Hne].
      * rewrite lookup_insert_eq. split.
        -- split; [intros _; right; by left|by eexists].
        -- intros d idx [= <-] Hidx. by rewrite lookup_empty in Hidx.
      * rewrite lookup_insert_ne by done. split.
        -- split; [by left|]. intros [?|[[= ?]|(dat & [=])]]; done.
        -- intros d idx Hd Hidx. left. by exists d.
  - destruct (node G0 !! x) as [old|] eqn:Ex; cbn [node].
    + destruct (decide (x = v)) as [->|Hne].
      * rewrite lookup_insert_eq, Ex. split.
        -- split; [intros _; left; by eexists|by eexists].
        -- intros d idx [= <-] Hidx.
           apply lookup_union_Some_raw in Hidx as [Hidx|[_ Hidx]].
           ++ right. by exists dat.
           ++ left. by exists old.
      * rewrite lookup_insert_ne by done. split.
        -- split; [by left|]. intros [?|[[=]|(dat' & [= ? ?])]]; done.
        -- intros d idx Hd Hidx. left. by exists d.
    + destruct (decide (x = v)) as [->|Hne].
      * rewrite lookup_insert_eq, Ex. split.
        -- split; [intros _; right; right; by exists dat|by eexists].
        -- intros d idx [= <-] Hidx. right. by exists dat.
      * rewrite lookup_insert_ne by done. split.
        -- split; [by left|]. intros [?|[[=]|(dat' & [= ? ?])]]; done.
        -- intros d idx Hd Hidx. left. by exists d.
Qed.

(** [add_nodes_from]: a node of the graph was in the collection, and
    an index it carries was given with it. *)
Lemma add_nodes_from_lookup (l : list node_item) (G0 : Graph) (v : Z) :
  (is_Some (node (foldl add_node G0 l) !! v)
   <-> is_Some (node G0 !! v) \/ Bare v ∈ l \/ exists dat, WithData v dat ∈ l) /\
  (forall d idx,
     node (foldl add_node G0 l) !! v = Some d ->
     d !! "chimera_index" = Some idx ->
     (exists d0, node G0 !! v = Some d0 /\ d0 !! "chimera_index" = Some idx)
     \/ exists dat, WithData v dat ∈ l /\ dat !! "chimera_index" = Some idx).
Proof.
  revert G0. induction l as [|n l IH]; intros G0; cbn [foldl].
  - split.
    + split; [by left|]. intros [?|[Hin|(dat & Hin)]]; [done|..];
        by apply elem_of_nil in Hin.
    + intros d idx Hd Hidx. left. by exists d.
  - destruct (IH (add_node G0 n)) as [IH1 IH2]. clear IH.
    destruct (add_node_lookup G0 n v) as [S1 S2]. split.
    + rewrite IH1, S1. split.
      * intros [[?|[->|(dat & ->)]]|[?|(dat & ?)]].
        -- by left.
        -- right. left. left.
        -- right. right. exists dat. left.
        -- right. left. by right.
        -- right. right. exists dat. by right.
      * intros [?|[[E|?]%elem_of_cons|(dat & [E|?]%elem_of_cons)]].
        -- left. by left.
        -- left. right. by left.
        -- right. by left.
        -- left. right. right. by exists dat.
        -- right. right. by exists dat.
    + intros d idx Hd Hidx.
      destruct (IH2 d idx Hd Hidx) as [(d0 & Hd0 & Hi0)|(dat & ? & ?)].
      * destruct (S2 d0 idx Hd0 Hi0) as [?|(dat & -> & ?)]; [by left|right].
        exists dat. split; [left|done].
      * right. exists dat. split; [by right|done].
Qed.

(** [add_nodes_from] on pairs of distinct nodes and their indices
    builds the edgeless graph with these indices. *)
Lemma add_nodes_from_indexed (items : list (Z * index)) :
  NoDup items.*1 -> add_nodes_from (with_index <$> items) = indexed_graph items.
Proof.
  intros Hnd.
  assert (forall G0 : Graph,
            (forall v, v ∈ items.*1 -> node G0 !! v = None) ->
            foldl add_node G0 (with_index <$> items)
            = mkGraph
                (foldl (fun d kv => <[kv.1 := kv.2]> d) (node G0)
                   (prod_map id (fun idx : index =>
                                   ({["chimera_index" := idx]} : attrs))
                      <$> items))
                (foldl (fun d kv => <[kv.1 := kv.2]> d) (adj G0)
                   (prod_map id (fun _ : index => (∅ : gset Z)) <$> items)))
    as Hgen.
  { induction items as [|[v idx] items IH]; intros G0 Hnew.
    - by destruct G0.
    - apply NoDup_cons in Hnd as [Hv Hnd]. cbn [fmap list_fmap foldl].
      unfold with_index at 1. cbn [add_node fst snd].
      rewrite (Hnew v) by left. rewrite (IH Hnd); [done|].
      intros w Hw. cbn [node]. rewrite lookup_insert_ne by (by intros ->).
      apply Hnew. by right. }
  unfold add_nodes_from. rewrite Hgen by (intros v _; apply lookup_empty).
  unfold indexed_graph. cbn [node adj]. f_equal.
  - apply (dict_of_list_to_map
             (prod_map id (fun idx : index => ({["chimera_index" := idx]} : attrs))
                <$> items)).
    rewrite <- list_fmap_compose.
    by rewrite (list_fmap_ext (fst ∘ prod_map id _) fst) by (by intros ? []).
  - apply (dict_of_list_to_map
             (prod_map id (fun _ : index => (∅ : gset Z)) <$> items)).
    rewrite <- list_fmap_compose.
    by rewrite (list_fmap_ext (fst ∘ prod_map id _) fst) by (by intros ? []).
Qed.

Section LayoutMore.
Context {F : Type} `{Scalar F}.

(** X8. A collection of nodes in place of a graph.  Given an iterable
    that is no graph, [chimera_layout] lays out the graph that
    [add_nodes_from] builds from it: without a node it raises the
    [ValueError] of [max] on an empty sequence; with a node given bare
    and nowhere together with a [chimera_index] it raises
    [NotImplementedError]; with pairs [(v, {'chimera_index': idx})] of
    distinct nodes it returns the layout of the edgeless graph that
    carries these indices. *)
Theorem chimera_layout_node_list (s : F) (c : option (list F)) (dim : Z) :
  chimera_layout (Nodes []) s c dim = Raise (ValueError msg_max_empty) /\
  (forall (l : list node_item) (v : Z),
     Bare v ∈ l ->
     (forall dat, WithData v dat ∈ l -> dat !! "chimera_index" = None) ->
     chimera_layout (Nodes l) s c dim = Raise NotImplementedError) /\
  (forall items : list (Z * index),
     NoDup items.*1 ->
     chimera_layout (Nodes (with_index <$> items)) s c dim
     = chimera_layout (IsGraph (indexed_graph items)) s c dim).
Proof.
  split; [reflexivity|]. split.
  - intros l v Hv Hnone. unfold chimera_layout.
    destruct (forallb _ _) eqn:E; [|done].
    apply all_indexed_forallb in E. exfalso.
    destruct (add_nodes_from_lookup l (mkGraph ∅ ∅) v) as [Hsome Hidx].
    destruct (proj2 Hsome) as [d Hd]; [right; by left|].
    destruct (E v d Hd) as [idx Hi].
    destruct (Hidx d idx Hd Hi) as [(d0 & Hd0 & _)|(dat & Hin & Hdat)].
    + cbn [node] in Hd0. by rewrite lookup_empty in Hd0.
    + by rewrite (Hnone dat Hin) in Hdat.
  - intros items Hnd. unfold chimera_layout.
    by rewrite (add_nodes_from_indexed items Hnd).
Qed.

(** The layout of a graph whose nodes all carry an index, once the
    three maxima are known. *)
Lemma chimera_layout_indexed
    (G : Graph) (s : F) (c : option (list F)) (dim m n t : Z) :
  all_indexed G ->
  greatest G idx_i m -> greatest G idx_j n -> greatest G idx_k t ->
  chimera_layout (IsGraph G) s c dim
  = (P ← chimera_node_placer_2d (m + 1) (n + 1) (t + 1) s c dim;
     Ok ((fun idx => (call P idx ∅).1)
           <$> ((fun dat : attrs => dat !!! "chimera_index") <$> node G))).
Proof.
  intros Hall Hm Hn Ht.
  assert (node G <> ∅) as Hne.
  { destruct Hm as [(v & idx & (dat & Hv & _) & _) _]. intros E.
    by rewrite E, lookup_empty in Hv. }
  assert (forall f a b, greatest G f a -> greatest G f b -> a = b) as Huniq.
  { intros f a b [(v & idx & Hv & <-) Ha] [(v' & idx' & Hv' & <-) Hb].
    specialize (Ha v' idx' Hv'). specialize (Hb v idx Hv). lia. }
  destruct (py_max_greatest G idx_i Hall Hne) as (m' & Hm' & Hgm).
  destruct (py_max_greatest G idx_j Hall Hne) as (n' & Hn' & Hgn).
  destruct (py_max_greatest G idx_k Hall Hne) as (t' & Ht' & Hgt).
  rewrite (Huniq _ _ _ Hgm Hm) in Hm'. rewrite (Huniq _ _ _ Hgn Hn) in Hn'.
  rewrite (Huniq _ _ _ Hgt Ht) in Ht'.
  unfold chimera_layout.
  rewrite (proj2 (all_indexed_forallb G) Hall).
  unfold nodes_iter_data. cbv zeta. rewrite dict_of_fmap, Hm', Hn', Ht'.
  cbn [mbind result_bind].
  destruct (chimera_node_placer_2d (m + 1) (n + 1) (t + 1) s c dim)
    as [P|e]; cbn [mbind result_bind]; [|done].
  by rewrite place_all.
Qed.

(** Whenever [chimera_layout] returns, the graph has a node, every
    node carries an index, and the layout has a position for exactly
    the nodes. *)
Lemma chimera_layout_ok_inv
    (G : Graph) (s : F) (c : option (list F)) (dim : Z) (pos : gmap Z (list F)) :
  chimera_layout (IsGraph G) s c dim = Ok pos ->
  node G <> ∅ /\ all_indexed G /\ dom pos = dom (node G) /\
  exists P m n t,
    greatest G idx_i m /\ greatest G idx_j n /\ greatest G idx_k t /\
    chimera_node_placer_2d (m + 1) (n + 1) (t + 1) s c dim = Ok P /\
    forall v idx, index_of G v idx -> pos !! v = Some (call P idx ∅).1.
Proof.
  intros Hpos.
  assert (all_indexed G) as Hall.
  { apply all_indexed_forallb. unfold chimera_layout in Hpos.
    by destruct (forallb _ _). }
  assert (node G <> ∅) as Hne.
  { intros E. unfold chimera_layout, nodes_iter_data in Hpos.
    rewrite E, map_to_list_empty in Hpos. done. }
  destruct (py_max_greatest G idx_i Hall Hne) as (m & _ & Hgm).
  destruct (py_max_greatest G idx_j Hall Hne) as (n & _ & Hgn).
  destruct (py_max_greatest G idx_k Hall Hne) as (t & _ & Hgt).
  rewrite (chimera_layout_indexed G s c dim m n t Hall Hgm Hgn Hgt) in Hpos.
  destruct (chimera_node_placer_2d (m + 1) (n + 1) (t + 1) s c dim)
    as [P|e] eqn:EP; cbn [mbind result_bind] in Hpos; [|done].
  injection Hpos as <-. do 2 (split; [done|]).
  split; [by rewrite !dom_fmap_L|].
  exists P, m, n, t. do 4 (split; [done|]).
  intros v idx Hv. apply indices_lookup in Hv; [|done].
  rewrite lookup_fmap. apply fmap_Some. exists idx. split; [exact Hv|done].
Qed.

End LayoutMore.

(** The lattice of a graph with valid indices. *)
Lemma valid_lattice (G : Graph) (m n t : Z) :
  valid_indices G ->
  greatest G idx_i m -> greatest G idx_j n -> greatest G idx_k t ->
  0 < m + 1 /\ 0 < n + 1 /\ 0 < t + 1 /\
  forall v idx, index_of G v idx -> in_bounds (m + 1) (n + 1) (t + 1) idx.
Proof.
  intros Hvalid [(v1 & i1 & Hv1 & <-) Hm] [(v2 & i2 & Hv2 & <-) Hn]
    [(v3 & i3 & Hv3 & <-) Ht].
  destruct (Hvalid _ _ Hv1) as (? & _). destruct (Hvalid _ _ Hv2) as (_ & ? & _).
  destruct (Hvalid _ _ Hv3) as (_ & _ & _ & ?).
  do 3 (split; [lia|]). intros v idx Hv.
  specialize (Hm v idx Hv). specialize (Hn v idx Hv). specialize (Ht v idx Hv).
  destruct (Hvalid v idx Hv) as (Hi & Hj & Hu & Hk).
  destruct idx as [[[i j] u] k]. unfold idx_i, idx_j, idx_u, idx_k in *.
  simpl in *. unfold in_bounds. lia.
Qed.

Lemma greatest_exists (G : Graph) (f : index -> Z) :
  all_indexed G -> node G <> ∅ -> exists m, greatest G f m.
Proof.
  intros Hall Hne. destruct (py_max_greatest G f Hall Hne) as (m & _ & Hm).
  by exists m.
Qed.

Section LayoutGrid.
Context {F : Type} `{Scalar F}.

(** X9. Distinct indices, distinct grid points.  For a graph with at
    least one node whose nodes all carry an index of a lattice,
    [dim >= 2] and a center absent or of length [dim],
    [chimera_layout] returns a position for exactly the nodes; the
    position of a node is the integer array [xy] of its index put
    through [xy * scale + center], and nodes with different indices
    have different integer arrays. *)
Theorem chimera_layout_injective
    (G : Graph) (s : F) (c : option (list F)) (dim : Z) :
  node G <> ∅ -> all_indexed G -> valid_indices G -> 2 <= dim ->
  (forall l, c = Some l -> Z.of_nat (length l) = dim) ->
  exists M N T P pos,
    greatest G idx_i (M - 1) /\ greatest G idx_j (N - 1) /\
    greatest G idx_k (T - 1) /\
    chimera_node_placer_2d M N T s c dim = Ok P /\
    chimera_layout (IsGraph G) s c dim = Ok pos /\
    dom pos = dom (node G) /\
    (forall v i j u k,
       index_of G v (i, j, u, k) ->
       pos !! v = Some (finish P (_xy_grid P i j u k ∅).1)) /\
    (forall v w i j u k i' j' u' k',
       index_of G v (i, j, u, k) -> index_of G w (i', j', u', k') ->
       (i, j, u, k) <> (i', j', u', k') ->
       (_xy_grid P i j u k ∅).1 <> (_xy_grid P i' j' u' k' ∅).1).
Proof.
  intros Hne Hall Hvalid Hdim Hc.
  destruct (greatest_exists G idx_i Hall Hne) as [m Hm].
  destruct (greatest_exists G idx_j Hall Hne) as [n Hn].
  destruct (greatest_exists G idx_k Hall Hne) as [t Ht].
  destruct (valid_lattice G m n t Hvalid Hm Hn Ht) as (HM & HN & HT & Hb).
  pose proof (placer_ok (m + 1) (n + 1) (t + 1) s c dim HM HN HT Hdim Hc) as HP.
  exists (m + 1), (n + 1), (t + 1). eexists. eexists.
  replace (m + 1 - 1) with m by lia. replace (n + 1 - 1) with n by lia.
  replace (t + 1 - 1) with t by lia. do 3 (split; [done|]).
  split; [exact HP|].
  rewrite (chimera_layout_indexed G s c dim m n t Hall Hm Hn Ht), HP.
  cbn [mbind result_bind]. set (P := Placer _ _ _ _ _).
  split; [done|]. split; [by rewrite !dom_fmap_L|]. split.
  - intros v i j u k Hv. apply indices_lookup in Hv; [|done].
    rewrite lookup_fmap. apply fmap_Some. exists (i, j, u, k).
    split; [exact Hv|]. unfold call. by rewrite xy_coords_grid.
  - intros v w i j u k i' j' u' k' Hv Hw Hdiff Heq. apply Hdiff.
    pose proof (Hb v _ Hv) as Hbv. pose proof (Hb w _ Hw) as Hbw.
    destruct (in_bounds_nonneg _ _ _ _ _ _ _ Hbv) as [Hi Hj].
    destruct (in_bounds_nonneg _ _ _ _ _ _ _ Hbw) as [Hi' Hj'].
    rewrite !xy_grid_point in Heq by (done || apply cache_ok_empty).
    by apply (grid_point_inj (m + 1) (n + 1) (t + 1) (i, j, u, k)
                (i', j', u', k')).
Qed.

End LayoutGrid.

(** A point of the unit-scale mapper with the center at the origin. *)
Lemma unit_box_point (L x y : Z) :
  0 < L -> 0 <= x <= L -> - L <= y <= 0 ->
  let pt := zip_with Qplus
              [(inject_Z x * (1 / inject_Z L))%Q; (inject_Z y * (1 / inject_Z L))%Q]
              [0%Q; 0%Q] in
  length pt = 2%nat /\ (0 <= coord 0 pt <= 1)%Q /\ (-1 <= coord 1 pt <= 0)%Q.
Proof.
  intros HL Hx Hy. cbv zeta. unfold coord. simpl.
  pose proof (Qunit_scaled x 0 L HL) as (_ & Hx0b & _).
  pose proof (Qunit_scaled x 1 L HL) as (Hx1a & _ & _).
  pose proof (Qunit_scaled y 0 L HL) as (Hy0a & _ & _).
  pose proof (Qunit_scaled y (-1) L HL) as (_ & Hy1b & _).
  cbv zeta in *.
  change (inject_Z 0) with 0%Q in *. change (inject_Z 1) with 1%Q in *.
  change (inject_Z (-1)) with (-1)%Q in *.
  split; [done|].
  split; (split; [first [apply Hx0b|apply Hy1b]|first [apply Hx1a|apply Hy0a]]; lia).
Qed.

(** X10. The default layout fits the unit box.  In exact arithmetic,
    for a graph with at least one node whose nodes all carry an index
    of a lattice, [chimera_layout(G)] with the default scale, center
    and dimension places every node at a point (x, y) with
    0 <= x <= 1 and -1 <= y <= 0. *)
Theorem chimera_layout_unit_box (G : Graph) :
  node G <> ∅ -> all_indexed G -> valid_indices G ->
  exists pos, chimera_layout (IsGraph G) (1%Q) None 2 = Ok pos /\
    forall v, v ∈ dom (node G) ->
      exists pt, pos !! v = Some pt /\ length pt = 2%nat /\
        (0 <= coord 0 pt <= 1)%Q /\ (-1 <= coord 1 pt <= 0)%Q.
Proof.
  intros Hne Hall Hvalid.
  destruct (greatest_exists G idx_i Hall Hne) as [m Hm].
  destruct (greatest_exists G idx_j Hall Hne) as [n Hn].
  destruct (greatest_exists G idx_k Hall Hne) as [t Ht].
  destruct (valid_lattice G m n t Hvalid Hm Hn Ht) as (HM & HN & HT & Hb).
  rewrite (chimera_layout_indexed G (1%Q) None 2 m n t Hall Hm Hn Ht).
  rewrite (placer_ok (m + 1) (n + 1) (t + 1) (1%Q) None 2 HM HN HT)
    by (done || lia).
  cbn [mbind result_bind]. set (P := Placer _ _ _ _ _).
  eexists. split; [done|].
  intros v [dat Hv]%elem_of_dom. destruct (Hall v dat Hv) as [idx Hidx].
  assert (index_of G v idx) as Hvi by (by exists dat).
  apply indices_lookup in Hvi as Hl; [|done].
  eexists. split; [rewrite lookup_fmap, Hl; done|].
  pose proof (Hb v idx Hvi) as Hbv. destruct idx as [[[i j] u] k].
  destruct (in_bounds_nonneg _ _ _ _ _ _ _ Hbv) as [Hi Hj].
  rewrite call_grid_point by (done || apply cache_ok_empty).
  pose proof (grid_point_range (m + 1) (n + 1) (t + 1) i j u k HT Hbv)
    as (Hx & Hy & _).
  cbv zeta in Hx, Hy. simpl tile_center. simpl tile_length.
  destruct (grid_point ((t + 1) / 2) (t + 1 + 3) i j u k) as [x y].
  simpl in Hx, Hy.
  apply (unit_box_point (Z.max (m + 1) (n + 1) * (t + 1 + 3) - 3) x y); nia.
Qed.

Lemma tile_2_indexed : all_indexed tile_2.
Proof. apply all_indexed_forallb. by vm_compute. Qed.

Lemma tile_2_nonempty : node tile_2 <> ∅.
Proof. apply (nonempty_lookup tile_2 0). eexists. by vm_compute. Qed.

Lemma indexed_graph_index_of (l : list (Z * index)) (v : Z) (idx : index) :
  index_of (indexed_graph l) v idx -> (v, idx) ∈ l.
Proof.
  intros (dat & Hv & Hidx). unfold indexed_graph in Hv. cbn [node] in Hv.
  apply elem_of_list_to_map_2 in Hv.
  apply list_elem_of_fmap in Hv as ([v' idx'] & [= -> ->] & Hin).
  apply lookup_singleton_Some in Hidx as [_ <-]. done.
Qed.

Lemma tile_2_valid : valid_indices tile_2.
Proof.
  intros v idx Hv%indexed_graph_index_of.
  repeat (apply elem_of_cons in Hv as [[= -> ->]|Hv];
          [unfold valid_index, idx_i, idx_j, idx_u, idx_k; simpl; lia|]).
  by apply elem_of_nil in Hv.
Qed.

(** The theorem on one tile of shore size 2, in binary64. *)
Lemma chimera_layout_injective_witness :
  exists M N T P pos,
    greatest tile_2 idx_i (M - 1) /\ greatest tile_2 idx_j (N - 1) /\
    greatest tile_2 idx_k (T - 1) /\
    chimera_node_placer_2d M N T (1%float) None 2 = Ok P /\
    chimera_layout (IsGraph tile_2) (1%float) None 2 = Ok pos /\
    dom pos = dom (node tile_2) /\
    (forall v i j u k,
       index_of tile_2 v (i, j, u, k) ->
       pos !! v = Some (finish P (_xy_grid P i j u k ∅).1)) /\
    (forall v w i j u k i' j' u' k',
       index_of tile_2 v (i, j, u, k) -> index_of tile_2 w (i', j', u', k') ->
       (i, j, u, k) <> (i', j', u', k') ->
       (_xy_grid P i j u k ∅).1 <> (_xy_grid P i' j' u' k' ∅).1).
Proof.
  apply (chimera_layout_injective tile_2 (1%float) None 2
           tile_2_nonempty tile_2_indexed tile_2_valid); done.
Defined.

(** The theorem on a collection with a bare node, and on one node
    given with its index. *)
Lemma chimera_layout_node_list_witness :
  chimera_layout
    (Nodes [Bare 0; WithData 1 {["chimera_index" := (0, 0, 0, 0)]}])
    (1%float) None 2
  = Raise NotImplementedError /\
  chimera_layout (Nodes (with_index <$> [(0, (0, 0, 0, 0))])) (1%float) None 2
  = chimera_layout (IsGraph (indexed_graph [(0, (0, 0, 0, 0))]))
      (1%float) None 2.
Proof.
  split.
  - apply (proj1 (proj2 (chimera_layout_node_list (1%float) None 2)) _ 0).
    + left.
    + intros dat [[=]|[[=]|Hin]%elem_of_cons]%elem_of_cons.
      by apply elem_of_nil in Hin.
  - apply (proj2 (proj2 (chimera_layout_node_list (1%float) None 2))).
    apply (bool_decide_unpack _). by vm_compute.
Defined.

Lemma chimera_layout_unit_box_witness :
  exists pos, chimera_layout (IsGraph tile_2) (1%Q) None 2 = Ok pos /\
    forall v, v ∈ dom (node tile_2) ->
      exists pt, pos !! v = Some pt /\ length pt = 2%nat /\
        (0 <= coord 0 pt <= 1)%Q /\ (-1 <= coord 1 pt <= 0)%Q.
Proof.
  exact (chimera_layout_unit_box tile_2
           tile_2_nonempty tile_2_indexed tile_2_valid).
Defined.

(** ** The render adapter, continued *)

(** The points of a mapper have [dim] coordinates. *)
Lemma length_call {F : Type} `{Scalar F}
    (m n t : Z) (s : F) (c : option (list F)) (dim : Z) (P : placer F)
    (idx : index) (g : cache) :
  chimera_node_placer_2d m n t s c dim = Ok P ->
  Z.of_nat (length (call P idx g).1) = dim.
Proof.
  intros (Hdim & Hlen & Hpad & _)%placer_built.
  destruct idx as [[[i j] u] k]. unfold call.
  destruct (xy_coords_finish P i j u k g) as [xy ->].
  unfold finish. rewrite length_zip_with, length_app, length_replicate.
  cbn [length]. lia.
Qed.

Lemma Qabs_bound (c m : Q) : (Qabs c <= m)%Q -> (-1 * m <= c <= m)%Q.
Proof.
  intros Hc. apply Qabs_Qle_condition in Hc as [Hlo Hhi]. split; [|done].
  assert (-1 * m == - m)%Q as -> by ring. done.
Qed.

(** X11. The default colour scale holds every colour.  With a
    non-empty bias map and none of the four bounds given, when
    [draw_chimera] has computed its arguments: [vmax] and [edge_vmax]
    are one value [hi >= 0], [vmin] and [edge_vmin] are [-1 * hi], and
    the colour of every node of the node list and of every edge of the
    edge list lies between [-1 * hi] and [hi]. *)
Theorem draw_chimera_colors_in_scale
    (matplotlib : bool) (G : Graph) (lb : gmap Z Q) (qb : gmap (Z * Z) Q)
    (nodelist : option (list Z)) (edgelist : option (list (Z * Z)))
    (kwargs : gset string) (args : draw_args) :
  lb ≠ ∅ \/ qb ≠ ∅ ->
  draw_chimera_args matplotlib G lb qb nodelist edgelist
    None None None None kwargs = Ok args ->
  exists hi ncol ecol,
    arg_vmax args = Some hi /\ arg_edge_vmax args = Some hi /\
    arg_vmin args = Some (-1 * hi)%Q /\ arg_edge_vmin args = Some (-1 * hi)%Q /\
    arg_node_color args = Some ncol /\ arg_edge_color args = Some ecol /\
    (0 <= hi)%Q /\
    forall c, c ∈ ncol ++ ecol -> (-1 * hi <= c <= hi)%Q.
Proof.
  intros Hne. unfold draw_chimera_args.
  assert (bool_decide (lb ≠ ∅) || bool_decide (qb ≠ ∅) = true) as ->.
  { apply orb_true_iff. destruct Hne; [left|right]; by apply bool_decide_eq_true. }
  destruct (negb matplotlib); [done|].
  destruct (bool_decide _ || bool_decide _); [done|].
  set (nl := match nodelist with None => nodes G | Some l => l end).
  set (el := match edgelist with None => edges G | Some l => l end).
  destruct (py_max_Q (Qabs <$> (node_color lb qb <$> nl)))
    as [a|e] eqn:Ea; simpl; [|done].
  destruct (py_max_Q (Qabs <$> ((fun e => edge_color qb e.1 e.2) <$> el)))
    as [b|e] eqn:Eb; simpl; [|done].
  intros [= <-]. simpl.
  apply py_max_Q_ok in Ea as [Ha Hua]. apply py_max_Q_ok in Eb as [Hb Hub].
  eexists _, _, _. do 6 (split; [done|]). split.
  - apply list_elem_of_fmap in Ha as (ca & -> & _).
    eapply Qle_trans; [apply Qabs_nonneg|apply Q.le_max_l].
  - intros c [Hc|Hc]%elem_of_app; apply Qabs_bound.
    + eapply Qle_trans; [|apply Q.le_max_l].
      apply Hua, list_elem_of_fmap. by exists c.
    + eapply Qle_trans; [|apply Q.le_max_r].
      apply Hub, list_elem_of_fmap. by exists c.
Qed.

(** X12. The colour of an edge does not depend on its orientation:
    [edge_color(u, v)] and [edge_color(v, u)] are the same number, the
    sum of the biases stored under [(u, v)] and under [(v, u)]; for a
    self-loop the one bias stored under [(v, v)] is counted twice. *)
Theorem edge_color_orientation (qb : gmap (Z * Z) Q) (u v : Z) :
  (edge_color qb u v == edge_color qb v u)%Q /\
  (edge_color qb v v == 2 * get0 qb (v, v))%Q.
Proof.
  unfold edge_color, get0. split.
  - destruct (qb !! (u, v)), (qb !! (v, u)); simpl; ring.
  - destruct (qb !! (v, v)); simpl; ring.
Qed.

(** X13. What a drawing needs.  Whenever [draw_chimera] gets to the
    call of [draw], the graph has a node, every node carries a chimera
    index, the layout handed to [draw] has a point of two coordinates
    for exactly the nodes of the graph, and, when a bias map is not
    empty, matplotlib was importable and the caller gave neither
    [node_color] nor [edge_color]. *)
Theorem draw_chimera_reached
    (matplotlib : bool) (G : Graph) (lb : gmap Z Q) (qb : gmap (Z * Z) Q)
    (nodelist : option (list Z)) (edgelist : option (list (Z * Z)))
    (vmin vmax edge_vmin edge_vmax : option Q) (kwargs : gset string)
    (pos : gmap Z (list Q)) (args : draw_args) :
  draw_chimera matplotlib G lb qb nodelist edgelist
    vmin vmax edge_vmin edge_vmax kwargs = Ok (pos, args) ->
  node G <> ∅ /\ all_indexed G /\ dom pos = dom (node G) /\
  (forall v pt, pos !! v = Some pt -> length pt = 2%nat) /\
  (lb ≠ ∅ \/ qb ≠ ∅ ->
   matplotlib = true /\ ("node_color" ∉ kwargs) /\ ("edge_color" ∉ kwargs)).
Proof.
  unfold draw_chimera.
  destruct (draw_chimera_args _ _ _ _ _ _ _ _ _ _ _) as [args'|e] eqn:Eargs;
    cbn [mbind result_bind]; [|done].
  destruct (chimera_layout _ _ _ _) as [pos'|e] eqn:Epos;
    cbn [mbind result_bind]; [|done].
  intros [= <- <-].
  destruct (chimera_layout_ok_inv G _ _ _ _ Epos)
    as (Hne & Hall & Hdom & P & m & n & t & _ & _ & _ & HP & Hpos).
  do 3 (split; [done|]). split.
  - intros v pt Hv.
    assert (v ∈ dom (node G)) as [dat Hdat]%elem_of_dom
      by (rewrite <- Hdom; apply elem_of_dom; by eexists).
    destruct (Hall v dat Hdat) as [idx Hidx].
    rewrite (Hpos v idx) in Hv by (by exists dat). injection Hv as <-.
    pose proof (length_call _ _ _ _ _ _ P idx ∅ HP). lia.
  - intros Hb. unfold draw_chimera_args in Eargs.
    assert (bool_decide (lb ≠ ∅) || bool_decide (qb ≠ ∅) = true) as Hb'.
    { apply orb_true_iff. destruct Hb; [left|right]; by apply bool_decide_eq_true. }
    rewrite Hb' in Eargs. destruct matplotlib; [|done]. split; [done|].
    simpl in Eargs.
    destruct (bool_decide ("node_color" ∈ kwargs)) eqn:E1; [done|].
    destruct (bool_decide ("edge_color" ∈ kwargs)) eqn:E2; [done|].
    by apply bool_decide_eq_false in E1, E2.
Qed.

(** The theorem on the edge 0 - 1 with the example biases. *)
Lemma draw_chimera_colors_in_scale_witness :
  exists hi ncol ecol,
    Some (3 # 4)%Q = Some hi /\ Some (3 # 4)%Q = Some hi /\
    Some (-3 # 4)%Q = Some (-1 * hi)%Q /\ Some (-3 # 4)%Q = Some (-1 * hi)%Q /\
    Some [0%Q; (1 # 2)%Q] = Some ncol /\ Some [(-3 # 4)%Q] = Some ecol /\
    (0 <= hi)%Q /\
    forall c, c ∈ ncol ++ ecol -> (-1 * hi <= c <= hi)%Q.
Proof.
  apply (draw_chimera_colors_in_scale true half_indexed
           example_linear example_quadratic None None ∅
           (DrawArgs (Some [1; 0]) (Some [(1, 0)])
              (Some (-3 # 4)%Q) (Some (3 # 4)%Q)
              (Some (-3 # 4)%Q) (Some (3 # 4)%Q)
              (Some [0%Q; (1 # 2)%Q]) (Some [(-3 # 4)%Q]) (Some (3 # 4)%Q))).
  - left. apply example_linear_nonempty.
  - by vm_compute.
Defined.

(** The theorem on a tile of shore size 2 drawn without biases. *)
Lemma draw_chimera_reached_witness :
  node tile_2 <> ∅ /\ all_indexed tile_2 /\
  dom tile_2_layout = dom (node tile_2) /\
  (forall v pt, tile_2_layout !! v = Some pt -> length pt = 2%nat) /\
  ((∅ : gmap Z Q) ≠ ∅ \/ (∅ : gmap (Z * Z) Q) ≠ ∅ ->
   true = true /\ ("node_color" ∉ (∅ : gset string)) /\
   ("edge_color" ∉ (∅ : gset string))).
Proof.
  apply (draw_chimera_reached true tile_2 ∅ ∅ None None None None None None ∅
           tile_2_layout (DrawArgs None None None None None None None None None)).
  by vm_compute.
Defined.

(** ** The index inference, continued *)

(** Without a node the inference fails at [nlist[0]]. *)
Lemma find_empty (o : dict_order) (G : Graph) :
  iterates o G -> node G = ∅ ->
  _find_chimera_indices o G = Some (Raise IndexError).
Proof.
  intros [Ho _] E.
  assert (nodes G = []) as En by (unfold nodes; by rewrite E, map_to_list_empty).
  rewrite En in Ho. apply Permutation_nil_r in Ho.
  unfold _find_chimera_indices, chimera_coloring, color, sorted_nodes, isolates.
  rewrite Ho, En. reflexivity.
Qed.

(** What a successful inference went through. *)
Lemma find_ok_inv (o : dict_order) (G : Graph) (idx : gmap Z index) :
  wf_graph G -> iterates o G -> _find_chimera_indices o G = Some (Ok idx) ->
  node G ≠ ∅ /\ bipartite G /\
  exists col delta,
    chimera_coloring o G = Some (Ok col) /\ proper_coloring G col /\
    max_degree G delta /\ larger_class col = delta /\
    assign_indices col (sorted_nodes G) [0; 0] ∅ = Ok idx.
Proof.
  intros Hwf Ho Hfind.
  destruct (decide (node G = ∅)) as [E|Hne];
    [by rewrite (find_empty o G Ho E) in Hfind|].
  split; [done|].
  destruct (chimera_coloring_correct o G Hwf Ho Hne)
    as [(Hbip & _)|[Hnbip Hcc]].
  - split; [done|].
    destruct (find_chimera_indices_bipartite o G Hwf Ho Hne Hbip)
      as (col & v0 & delta & Hcol & Hproper & _ & _ & Hmax & Heq).
    rewrite Heq in Hfind. exists col, delta.
    destruct (larger_class col =? delta) eqn:Elc.
    + apply Z.eqb_eq in Elc. injection Hfind as Hfind. done.
    + by destruct (diameter G).
  - unfold _find_chimera_indices in Hfind. by rewrite Hcc in Hfind.
Qed.

Lemma sorted_filter {A : Type} (R : relation A) (P : A -> Prop)
    `{forall x, Decision (P x)} (l : list A) :
  StronglySorted R l -> StronglySorted R (filter P l).
Proof.
  induction 1 as [|x l Hl IH Hall]; [constructor|].
  rewrite filter_cons. destruct (decide (P x)); [|done].
  constructor; [done|]. apply Forall_forall.
  intros y [_ Hy]%list_elem_of_filter. by eapply Forall_forall in Hall.
Qed.

Lemma sorted_lookup_le (l : list Z) (p q : nat) (a b : Z) :
  StronglySorted Z.le l -> l !! p = Some a -> l !! q = Some b ->
  (p < q)%nat -> a <= b.
Proof.
  intros Hl. revert p q. induction Hl as [|x l Hl IH Hall]; intros p q Hp Hq Hpq.
  - by rewrite lookup_nil in Hp.
  - destruct q as [|q]; [lia|]. cbn in Hq. destruct p as [|p].
    + injection Hp as <-. eapply Forall_forall in Hall; [done|].
      by eapply list_elem_of_lookup_2.
    + cbn in Hp. apply (IH p q); [done..|lia].
Qed.

(** The members of a shore are the nodes of one colour. *)
Lemma length_members (G : Graph) (col : gmap Z Z) (u : Z) :
  proper_coloring G col -> u = 0 \/ u = 1 ->
  Z.of_nat (length (filter (fun v => shore col v = u) (sorted_nodes G)))
  = class_size col (1 - u).
Proof.
  intros (Hdom & Hval & _) Hu. symmetry. apply class_size_keys.
  - apply NoDup_filter, NoDup_sorted_nodes.
  - intros v. rewrite list_elem_of_filter, elem_of_sorted_nodes, <- Hdom.
    unfold shore. split.
    + intros [Hs [c Hc]%elem_of_dom]. rewrite Hc in Hs |- *. simpl in Hs.
      f_equal. lia.
    + intros Hc. split; [rewrite Hc; simpl; lia|].
      apply elem_of_dom. by eexists.
Qed.

(** The index of a node tells its shore and its place among the
    members of the shore, taken in the order of the nodes. *)
Lemma find_shape (o : dict_order) (G : Graph) (idx : gmap Z index) :
  wf_graph G -> iterates o G -> _find_chimera_indices o G = Some (Ok idx) ->
  exists col delta,
    proper_coloring G col /\ max_degree G delta /\ larger_class col = delta /\
    dom idx = dom (node G) /\
    forall v i, idx !! v = Some i ->
      (shore col v = 0 \/ shore col v = 1) /\
      exists p : nat,
        filter (fun w => shore col w = shore col v) (sorted_nodes G) !! p
        = Some v /\
        i = (0, 0, shore col v, Z.of_nat p).
Proof.
  intros Hwf Ho Hfind.
  destruct (find_ok_inv o G idx Hwf Ho Hfind)
    as (Hne & Hbip & col & delta & Hcol & Hproper & Hmax & Hlc & Hassign).
  exists col, delta. do 3 (split; [done|]).
  destruct (assign_indices_spec col (sorted_nodes G) 0 0 ∅
              (NoDup_sorted_nodes G))
    as (idx' & Hidx & Hframe & Hform & H0 & H1).
  { intros v Hv%elem_of_sorted_nodes. destruct Hproper as (Hdom & Hval & _).
    rewrite <- Hdom in Hv. apply elem_of_dom in Hv as [c Hc].
    rewrite Hc. destruct (Hval v c Hc) as [-> | ->]; [by left|by right]. }
  rewrite Hassign in Hidx. injection Hidx as <-.
  assert (forall v i, idx !! v = Some i -> v ∈ sorted_nodes G) as Hin.
  { intros v i Hv. destruct (decide (v ∈ sorted_nodes G)) as [|Hnin]; [done|].
    by rewrite (Hframe v Hnin), lookup_empty in Hv. }
  split.
  - apply set_eq. intros v. rewrite <- elem_of_sorted_nodes. split.
    + intros [i Hv]%elem_of_dom. by eapply Hin.
    + intros Hv. apply elem_of_dom. destruct (Hform v Hv) as [k Hk]. by eexists.
  - intros v i Hv. pose proof (shore_proper G col v Hproper) as Hu.
    split; [done|].
    assert (v ∈ filter (fun w => shore col w = shore col v) (sorted_nodes G))
      as [p Hp]%list_elem_of_lookup_1
      by (apply list_elem_of_filter; split; [done|by eapply Hin]).
    exists p. split; [done|].
    pose proof (lookup_lt_Some _ _ _ Hp) as Hlt.
    assert (idx !! v = Some (0, 0, shore col v, Z.of_nat p)) as Hv';
      [|congruence].
    destruct Hu as [Hu|Hu]; rewrite Hu in Hp, Hlt |- *.
    + apply (f_equal (fun l => l !! p)) in H0.
      rewrite !list_lookup_fmap, Hp, lookup_seqZ_lt in H0 by lia.
      simpl in H0. injection H0 as ->. do 2 f_equal.
    + apply (f_equal (fun l => l !! p)) in H1.
      rewrite !list_lookup_fmap, Hp, lookup_seqZ_lt in H1 by lia.
      simpl in H1. injection H1 as ->. do 2 f_equal.
Qed.

(** [connected] can be decided by [diameter]. *)
Lemma connected_cases (G : Graph) :
  wf_graph G -> connected G \/ ~ connected G.
Proof.
  intros Hwf.
  destruct (forallb (fun v => bool_decide (ball G v (size (node G)) = dom (node G)))
              (nodes G)) eqn:E.
  - left. intros v w Hv Hw. rewrite forallb_forall in E.
    specialize (E v (proj1 (list_elem_of_In _ _) (proj2 (elem_of_nodes G v) Hv))).
    apply bool_decide_eq_true in E. by apply (ball_all G v Hwf Hv).
  - right. intros Hconn.
    assert (forallb (fun v => bool_decide (ball G v (size (node G)) = dom (node G)))
              (nodes G) = true) as E'; [|congruence].
    apply forallb_forall. intros v Hv%list_elem_of_In%elem_of_nodes.
    apply bool_decide_eq_true, ball_all; [done..|]. intros w Hw. by apply Hconn.
Qed.

(** X14. The outcomes of the inference.  On every networkx graph,
    whatever the order in which its dictionaries yield their keys,
    [_find_chimera_indices] comes to an end, in one of five ways:
    [IndexError] when the graph has no node; the error "Graph is not
    bipartite." when it is not bipartite; an index for exactly the
    nodes of the graph; [NotImplementedError] on a connected bipartite
    graph that is no single tile; the error of [diameter] on a
    bipartite graph that is not connected and whose colouring under
    that order is no single tile.  It never raises [KeyError] or
    [ValueError]. *)
Theorem find_outcomes (o : dict_order) (G : Graph) :
  wf_graph G -> iterates o G ->
  exists r, _find_chimera_indices o G = Some r /\
    match r with
    | Ok idx => node G ≠ ∅ /\ bipartite G /\ dom idx = dom (node G)
    | Raise e =>
        (e = IndexError /\ node G = ∅)
        \/ (e = NetworkXError msg_not_bipartite /\ ~ bipartite G)
        \/ (e = NotImplementedError /\
            node G ≠ ∅ /\ bipartite G /\ connected G)
        \/ (e = NetworkXError msg_not_connected /\
            node G ≠ ∅ /\ bipartite G /\ ~ connected G)
    end.
Proof.
  intros Hwf Ho.
  destruct (decide (node G = ∅)) as [E|Hne].
  { eexists. split; [by apply find_empty|]. by left. }
  destruct (chimera_coloring_correct o G Hwf Ho Hne)
    as [(Hbip & _)|[Hnbip Hcc]].
  - destruct (find_chimera_indices_bipartite o G Hwf Ho Hne Hbip)
      as (col & v0 & delta & Hcol & Hproper & _ & _ & Hmax & Heq).
    destruct (larger_class col =? delta) eqn:Elc.
    + destruct (assign_indices col (sorted_nodes G) [0; 0] ∅) as [idx|e] eqn:Ea.
      * exists (Ok idx). split; [done|]. do 2 (split; [done|]).
        by destruct (find_shape o G idx Hwf Ho Heq) as (_ & _ & _ & _ & _ & ? & _).
      * exfalso.
        destruct (assign_indices_spec col (sorted_nodes G) 0 0 ∅
                    (NoDup_sorted_nodes G)) as (idx' & Hidx & _); [|congruence].
        intros v Hv%elem_of_sorted_nodes. destruct Hproper as (Hdom & Hval & _).
        rewrite <- Hdom in Hv. apply elem_of_dom in Hv as [c Hc].
        rewrite Hc. destruct (Hval v c Hc) as [-> | ->]; [by left|by right].
    + destruct (connected_cases G Hwf) as [Hconn|Hnconn].
      * destruct (diameter_connected G Hwf Hne Hconn) as [d Hd].
        rewrite Hd in Heq. eexists. split; [exact Heq|].
        right. right. by left.
      * rewrite (diameter_disconnected G Hwf Hnconn) in Heq.
        eexists. split; [exact Heq|]. right. right. by right.
  - eexists. split.
    + unfold _find_chimera_indices. by rewrite Hcc.
    + right. by left.
Qed.

(** X15. No two nodes share an index.  Whenever the inference returns
    indices for a networkx graph, under any order of its dictionaries,
    different nodes have different indices. *)
Theorem find_indices_injective
    (o : dict_order) (G : Graph) (idx : gmap Z index) :
  wf_graph G -> iterates o G -> _find_chimera_indices o G = Some (Ok idx) ->
  forall v w i i', v <> w -> idx !! v = Some i -> idx !! w = Some i' -> i <> i'.
Proof.
  intros Hwf Ho Hfind v w i i' Hvw Hv Hw <-.
  destruct (find_shape o G idx Hwf Ho Hfind)
    as (col & delta & _ & _ & _ & _ & Hshape).
  destruct (Hshape v i Hv) as (_ & p & Hp & ->).
  destruct (Hshape w _ Hw) as (_ & q & Hq & [= Hs Hpq]).
  apply Nat2Z.inj in Hpq as ->. rewrite <- Hs in Hq. congruence.
Qed.

(** X16. Every edge joins the two shores.  Whenever the inference
    returns indices for a networkx graph, under any order of its
    dictionaries, the two ends of every edge lie in the tile (0, 0) on
    different shores. *)
Theorem find_indices_edges (o : dict_order) (G : Graph) (idx : gmap Z index) :
  wf_graph G -> iterates o G -> _find_chimera_indices o G = Some (Ok idx) ->
  forall v w, edge G v w ->
    exists u k k', (u = 0 \/ u = 1) /\
      idx !! v = Some (0, 0, u, k) /\ idx !! w = Some (0, 0, 1 - u, k').
Proof.
  intros Hwf Ho Hfind v w Hvw.
  destruct (find_shape o G idx Hwf Ho Hfind)
    as (col & delta & Hproper & _ & _ & Hdom & Hshape).
  destruct (edge_node G v w Hwf Hvw) as [Hv Hw].
  rewrite <- Hdom in Hv, Hw.
  apply elem_of_dom in Hv as [i Hi], Hw as [i' Hi'].
  destruct (Hshape v i Hi) as (Hu & p & _ & ->).
  destruct (Hshape w i' Hi') as (_ & q & _ & ->).
  destruct Hproper as (_ & _ & Hedge).
  destruct (Hedge v w Hvw) as (c & Hcv & Hcw).
  exists (shore col v), (Z.of_nat p), (Z.of_nat q). do 2 (split; [done|]).
  etrans; [exact Hi'|]. do 3 f_equal. unfold shore. rewrite Hcv, Hcw. simpl. lia.
Qed.

(** X17. The shore indices follow the order of the nodes.  Whenever
    the inference returns indices for a networkx graph, under any
    order of its dictionaries, of two nodes on the same shore the
    lower node has the lower shore index. *)
Theorem find_indices_ordered (o : dict_order) (G : Graph) (idx : gmap Z index) :
  wf_graph G -> iterates o G -> _find_chimera_indices o G = Some (Ok idx) ->
  forall v w u k k',
    idx !! v = Some (0, 0, u, k) -> idx !! w = Some (0, 0, u, k') ->
    v < w -> k < k'.
Proof.
  intros Hwf Ho Hfind v w u k k' Hv Hw Hvw.
  destruct (find_shape o G idx Hwf Ho Hfind)
    as (col & delta & _ & _ & _ & _ & Hshape).
  destruct (Hshape v _ Hv) as (_ & p & Hp & [= Hsv ->]).
  destruct (Hshape w _ Hw) as (_ & q & Hq & [= Hsw ->]).
  rewrite <- Hsv in Hp. rewrite <- Hsw in Hq.
  assert (StronglySorted Z.le
            (filter (fun x => shore col x = u) (sorted_nodes G))) as Hsorted
    by (apply sorted_filter, StronglySorted_merge_sort; apply _).
  destruct (decide (p < q)%nat) as [|Hge]; [lia|]. exfalso.
  destruct (decide (p = q)) as [->|Hne]; [rewrite Hp in Hq; injection Hq; lia|].
  pose proof (sorted_lookup_le _ q p w v Hsorted Hq Hp). lia.
Qed.

(** X18. The indices fit one tile.  Whenever the inference returns
    indices for a networkx graph, under any order of its dictionaries,
    every index is an index of the 1 x 1 lattice whose shore size is
    the greatest degree of the graph. *)
Theorem find_indices_in_tile (o : dict_order) (G : Graph) (idx : gmap Z index) :
  wf_graph G -> iterates o G -> _find_chimera_indices o G = Some (Ok idx) ->
  exists delta, max_degree G delta /\
    forall v i, idx !! v = Some i -> in_bounds 1 1 delta i.
Proof.
  intros Hwf Ho Hfind.
  destruct (find_shape o G idx Hwf Ho Hfind)
    as (col & delta & Hproper & Hmax & Hlc & _ & Hshape).
  exists delta. split; [done|]. intros v i Hv.
  destruct (Hshape v i Hv) as (Hu & p & Hp & ->).
  apply lookup_lt_Some in Hp.
  pose proof (length_members G col (shore col v) Hproper Hu) as Hlen.
  unfold in_bounds. do 2 (split; [lia|]). split; [done|].
  assert (class_size col (1 - shore col v) <= larger_class col) as Hle
    by (unfold larger_class; destruct Hu as [-> | ->];
        [change (1 - 0) with 1|change (1 - 1) with 0]; lia).
  lia.
Qed.

(** The colouring of a graph as a function. *)
Lemma proper_two_coloring (G : Graph) (col : gmap Z Z) :
  proper_coloring G col -> two_coloring G (fun v => default 0 (col !! v)).
Proof.
  intros (_ & Hval & Hedge). split.
  - intros v. destruct (col !! v) as [c|] eqn:E; simpl; [by eapply Hval|by left].
  - intros v w (c & -> & ->)%Hedge. done.
Qed.

(** On a connected graph a proper colouring is fixed by the colour of
    one node. *)
Lemma proper_coloring_unique (G : Graph) (col col' : gmap Z Z) (v0 c0 : Z) :
  connected G -> v0 ∈ dom (node G) ->
  proper_coloring G col -> proper_coloring G col' ->
  col !! v0 = Some c0 -> col' !! v0 = Some c0 -> col = col'.
Proof.
  intros Hconn Hv0 Hcol Hcol' H0 H0'. apply map_eq. intros w.
  destruct (decide (w ∈ dom (node G))) as [Hw|Hw].
  - pose proof (Hconn v0 w Hv0 Hw) as Hpath.
    apply rtc_nsteps in Hpath as [n Hn].
    pose proof (walk_coloring G _ n v0 w (proper_two_coloring G col Hcol) Hn)
      as E.
    pose proof (walk_coloring G _ n v0 w (proper_two_coloring G col' Hcol') Hn)
      as E'.
    cbv beta in E, E'. rewrite H0 in E. rewrite H0' in E'.
    rewrite <- E' in E. clear E'.
    destruct Hcol as (Hdom & _), Hcol' as (Hdom' & _).
    rewrite <- Hdom in Hw. apply elem_of_dom in Hw as Hs. destruct Hs as [c Hc].
    rewrite Hdom, <- Hdom' in Hw. apply elem_of_dom in Hw as [c' Hc'].
    rewrite Hc, Hc' in E |- *. simpl in E. by subst.
  - destruct Hcol as (Hdom & _), Hcol' as (Hdom' & _).
    rewrite <- Hdom in Hw. apply not_elem_of_dom in Hw as Hn. rewrite Hn.
    rewrite Hdom, <- Hdom' in Hw. by apply not_elem_of_dom in Hw as ->.
Qed.

(** X19. On a connected graph the order does not matter.  On a
    connected networkx graph, [_find_chimera_indices] ends in the same
    way, with the same indices or the same error, whatever the order
    in which the dictionaries of the graph yield their keys.  (On a
    graph that is not connected it can depend on the order.) *)
Theorem find_order_irrelevant (o o' : dict_order) (G : Graph) :
  wf_graph G -> iterates o G -> iterates o' G -> connected G ->
  _find_chimera_indices o G = _find_chimera_indices o' G.
Proof.
  intros Hwf Ho Ho' Hconn.
  destruct (decide (node G = ∅)) as [E|Hne];
    [by rewrite (find_empty o G Ho E), (find_empty o' G Ho' E)|].
  destruct (chimera_coloring_correct o G Hwf Ho Hne)
    as [(Hbip & col & v0 & Hcol & Hproper & Hlow & Hv0 & _)|[Hnbip Hcc]];
    destruct (chimera_coloring_correct o' G Hwf Ho' Hne)
    as [(Hbip' & col' & v0' & Hcol' & Hproper' & Hlow' & Hv0' & _)|[Hnbip' Hcc']];
    try done.
  - rewrite (lowest_unique G v0' v0 Hlow' Hlow) in Hv0'.
    pose proof (proper_coloring_unique G col col' v0 1 Hconn (proj1 Hlow)
                  Hproper Hproper' Hv0 Hv0') as <-.
    unfold _find_chimera_indices. by rewrite Hcol, Hcol'.
  - unfold _find_chimera_indices. by rewrite Hcc, Hcc'.
Qed.

Lemma connected_K_2_2 : connected K_2_2.
Proof. apply (connected_compute K_2_2 wf_K_2_2). by vm_compute. Qed.

(** The theorem on K(2,2) with the nodes inserted in two orders. *)
Lemma find_order_irrelevant_witness :
  _find_chimera_indices (inserted [0; 1; 2; 3] K_2_2) K_2_2
  = _find_chimera_indices (inserted [3; 1; 2; 0] K_2_2) K_2_2.
Proof.
  apply (find_order_irrelevant _ _ K_2_2 wf_K_2_2 iterates_K_2_2).
  - apply iterates_inserted; apply (bool_decide_unpack _); by vm_compute.
  - exact connected_K_2_2.
Defined.

Lemma wf_empty_graph : wf_graph (mkGraph ∅ ∅).
Proof. apply (bool_decide_unpack _). by vm_compute. Qed.

Lemma iterates_empty_graph : iterates (inserted [] (mkGraph ∅ ∅)) (mkGraph ∅ ∅).
Proof. apply iterates_inserted; apply (bool_decide_unpack _); by vm_compute. Qed.

(** The theorem on the five ways to end, with the nodes inserted in
    their natural order: the graph without nodes, the triangle,
    K(2,2), the path on five nodes, two disjoint edges. *)
Lemma find_outcomes_witness :
  _find_chimera_indices (inserted [] (mkGraph ∅ ∅)) (mkGraph ∅ ∅)
  = Some (Raise IndexError) /\
  (_find_chimera_indices (inserted [0; 1; 2] triangle) triangle
   = Some (Raise (NetworkXError msg_not_bipartite)) /\
   ~ bipartite triangle) /\
  (exists idx,
     _find_chimera_indices (inserted [0; 1; 2; 3] K_2_2) K_2_2 = Some (Ok idx) /\
     bipartite K_2_2 /\ dom idx = dom (node K_2_2)) /\
  (_find_chimera_indices (inserted [0; 1; 2; 3; 4] path_5) path_5
   = Some (Raise NotImplementedError) /\
   bipartite path_5 /\ connected path_5) /\
  (_find_chimera_indices (inserted [0; 1; 2; 3] two_edges) two_edges
   = Some (Raise (NetworkXError msg_not_connected)) /\
   bipartite two_edges /\ ~ connected two_edges).
Proof.
  split; [|split; [|split; [|split]]].
  - destruct (find_outcomes _ _ wf_empty_graph iterates_empty_graph)
      as (r & Hr & _). rewrite Hr. revert Hr. by vm_compute.
  - destruct (find_outcomes _ _ wf_triangle iterates_triangle) as (r & Hr & Hres).
    assert (r = Raise (NetworkXError msg_not_bipartite)) as ->
      by (revert Hr; vm_compute; congruence).
    split; [exact Hr|].
    destruct Hres as [[E _]|[[_ Hnb]|[[E _]|[E _]]]];
      [discriminate E|exact Hnb|discriminate E|by vm_compute in E].
  - destruct (find_outcomes _ _ wf_K_2_2 iterates_K_2_2) as (r & Hr & Hres).
    rewrite find_K_2_2 in Hr. injection Hr as <-.
    eexists. split; [exact find_K_2_2|]. apply Hres.
  - destruct (find_outcomes _ _ wf_path_5 iterates_path_5) as (r & Hr & Hres).
    assert (r = Raise NotImplementedError) as ->
      by (revert Hr; vm_compute; congruence).
    split; [exact Hr|].
    destruct Hres as [[E _]|[[E _]|[(_ & _ & Hb & Hc)|[E _]]]];
      [discriminate E|discriminate E|by split|discriminate E].
  - destruct (find_outcomes _ _ wf_two_edges iterates_two_edges)
      as (r & Hr & Hres).
    assert (r = Raise (NetworkXError msg_not_connected)) as ->
      by (revert Hr; vm_compute; congruence).
    split; [exact Hr|].
    destruct Hres as [[E _]|[[E _]|[[E _]|(_ & _ & Hb & Hc)]]];
      [discriminate E|by vm_compute in E|discriminate E|by split].
Defined.

(** The theorem on the nodes 0 and 1 of K(2,2). *)
Lemma find_indices_injective_witness :
  ((0, 0, 0, 0) : index) <> (0, 0, 0, 1).
Proof.
  apply (find_indices_injective _ K_2_2 _ wf_K_2_2 iterates_K_2_2 find_K_2_2
           0 1); [lia|reflexivity|reflexivity].
Defined.

(** The theorem on the edge 0 - 2 of K(2,2). *)
Lemma find_indices_edges_witness :
  exists u k k', (u = 0 \/ u = 1) /\
    (list_to_map [(0, (0, 0, 0, 0)); (1, (0, 0, 0, 1));
                  (2, (0, 0, 1, 0)); (3, (0, 0, 1, 1))] : gmap Z index) !! 0
    = Some (0, 0, u, k) /\
    (list_to_map [(0, (0, 0, 0, 0)); (1, (0, 0, 0, 1));
                  (2, (0, 0, 1, 0)); (3, (0, 0, 1, 1))] : gmap Z index) !! 2
    = Some (0, 0, 1 - u, k').
Proof.
  apply (find_indices_edges _ K_2_2 _ wf_K_2_2 iterates_K_2_2 find_K_2_2 0 2).
  apply edge_graph_of_edges. split; [left|left; left].
Defined.

(** The theorem on the nodes 0 and 1 of the first shore of K(2,2). *)
Lemma find_indices_ordered_witness : 0 < 1.
Proof.
  apply (find_indices_ordered _ K_2_2 _ wf_K_2_2 iterates_K_2_2 find_K_2_2
           0 1 0 0 1); reflexivity.
Defined.

(** The theorem on K(2,2), whose greatest degree is 2. *)
Lemma find_indices_in_tile_witness :
  exists delta, max_degree K_2_2 delta /\
    forall v i,
      (list_to_map [(0, (0, 0, 0, 0)); (1, (0, 0, 0, 1));
                    (2, (0, 0, 1, 0)); (3, (0, 0, 1, 1))] : gmap Z index) !! v
      = Some i ->
      in_bounds 1 1 delta i.
Proof.
  exact (find_indices_in_tile _ K_2_2 _ wf_K_2_2 iterates_K_2_2 find_K_2_2).
Defined.
